(** * Game of Life on a Morton-ordered grid: model of [main.cpp] and proofs

    The first half of this file is a shallow embedding of the simulation
    core of [main.cpp]: the bit-interleaving codec ([delta_swap],
    [interleaveXY]), the cell codes, the class [GameField] with its cursor
    and neighbour walk, and the methods [simulationTick], [openFile] and
    [saveFile] of the class [Game].  The second half states and proves the
    properties of that code.

    Fixed-width integers are integers of [Z] with the wrap-around written
    out ([u8], [u16], [u32], [u64]).  The cell array is a list of cell
    codes; an access outside the array is undefined behaviour in C++ and
    makes the modelled computation fail ([None]). *)

From Stdlib Require Import ZArith Lia ZifyBool Bool List String Permutation Sorted.
From stdpp Require Import base list.
Import ListNotations.
Local Open Scope Z_scope.

(** ** Fixed-width unsigned integers *)

Definition u8 (z : Z) : Z := z mod 2 ^ 8.
Definition u16 (z : Z) : Z := z mod 2 ^ 16.
Definition u32 (z : Z) : Z := z mod 2 ^ 32.
Definition u64 (z : Z) : Z := z mod 2 ^ 64.

(** ** The coordinate codec *)

(** [uint32_t delta_swap(uint32_t a, uint32_t mask, uint8_t shift)] *)
Definition delta_swap (a mask shift : Z) : Z :=
  let b := Z.land (Z.lxor (u32 (Z.shiftl a shift)) a) mask in
  u32 (Z.lxor a (Z.lxor b (Z.shiftr b shift))).

(** [uint32_t interleaveXY(uint16_t x, uint16_t y)]: the arguments are
    converted to 16 bits on entry. *)
Definition interleaveXY (x y : Z) : Z :=
  let x := u16 x in
  let y := u16 y in
  let res := u32 (Z.lor (Z.shiftl y 16) x) in
  let res := delta_swap res 0x00FF0000 8 in
  let res := delta_swap res 0x0F000F00 4 in
  let res := delta_swap res 0x30303030 2 in
  let res := delta_swap res 0x44444444 1 in
  res.

(** ** Cell codes: [enum Cell : uint8_t] *)

Definition Dead : Z := 0.
Definition Alive : Z := 1.
Definition Dying : Z := 3.
Definition Birthing : Z := 2.
Definition DeadVisited : Z := 4.

(** ** Observable events

    Ghost instrumentation, absent from the C++ text: every access to the
    cell array and every entry into [updateCell] is appended to a trace, so
    that statements about how often something happens can be written. *)

Inductive event : Type :=
  | EvRead (i : Z)
  | EvWrite (i v : Z)
  | EvUpdateCell (i : Z).

(** Exceptions thrown by the constructor. *)
Inductive exn : Type :=
  | invalid_argument (what : string).

(** ** A state-and-failure monad *)

Definition M (St A : Type) : Type := St -> option (A * St).

Definition ret {St A} (a : A) : M St A := fun s => Some (a, s).

Definition bind {St A B} (m : M St A) (k : A -> M St B) : M St B :=
  fun s => match m s with
           | Some (a, s') => k a s'
           | None => None
           end.

Notation "x <- m ;; k" := (bind m (fun x => k))
  (at level 63, m at next level, right associativity, only parsing).
Notation "m ;;; k" := (bind m (fun _ => k))
  (at level 63, right associativity, only parsing).

(** [for (i = start; count iterations; ++i) body(i)]; the result is the
    final value of the counter. *)
Fixpoint for_each {St} (body : Z -> M St unit) (count : nat) (i : Z) : M St Z :=
  match count with
  | O => ret i
  | S count' => body i ;;; for_each body count' (i + 1)
  end.

(** ** [class GameField] *)

Module GameField.

Definition MASK_X : Z := 0x55555555.
Definition MASK_Y : Z := 0xAAAAAAAA.

Record t : Type := mk {
  n : Z;             (* uint8_t n *)
  size_x : Z;        (* size_t size_x *)
  size_y : Z;        (* size_t size_y *)
  cells : list Z;    (* Cell *cells *)
  size : Z;          (* size_t size *)
  idx : Z            (* size_t idx: the cursor *)
}.

(** A running object: the fields and the trace of events so far. *)
Record machine : Type := Machine {
  field : t;
  trace : list event
}.

Definition gets {A} (proj : t -> A) : M machine A :=
  fun s => Some (proj (field s), s).

Definition set_idx (k : Z) : M machine unit :=
  fun s =>
    let f := field s in
    Some (tt, Machine (mk (n f) (size_x f) (size_y f) (cells f) (size f) k) (trace s)).

Definition emit (e : event) : M machine unit :=
  fun s => Some (tt, Machine (field s) (trace s ++ [e])).

(** [cells[k]] as an rvalue. *)
Definition read_cell (k : Z) : M machine Z :=
  fun s =>
    if 0 <=? k then
      match cells (field s) !! Z.to_nat k with
      | Some c => Some (c, Machine (field s) (trace s ++ [EvRead k]))
      | None => None
      end
    else None.

(** [cells[k] = v]. *)
Definition write_cell (k v : Z) : M machine unit :=
  fun s =>
    let f := field s in
    if (0 <=? k) && (k <? Z.of_nat (length (cells f))) then
      Some (tt, Machine (mk (n f) (size_x f) (size_y f)
                            (<[Z.to_nat k := v]> (cells f)) (size f) (idx f))
                        (trace s ++ [EvWrite k v]))
    else None.

(** The loop of the constructor: [remaining] is [bits - n], the number of
    iterations left before the guard [n < bits] fails. *)
Fixpoint ctor_loop (remaining : nat) (n size : Z) : Z * Z :=
  match remaining with
  | O => (n, size)
  | S remaining' =>
      if Z.land size 1 =? 1
      then (n, Z.shiftr size 1)
      else ctor_loop remaining' (n + 1) (Z.shiftr size 1)
  end.

(** [GameField(size_t size)]; [inl] is a thrown exception. *)
Definition new (size0 : Z) : exn + t :=
  let bits := 64 in
  let '(n, size) := ctor_loop (Z.to_nat bits) 0 size0 in
  if (n =? bits) || negb (size =? 0) then
    inl (invalid_argument "size needs to be power of 2")
  else if n >? 12 then
    inl (invalid_argument "size >4096 not supported")
  else
    let len := Z.shiftl 1 (Z.shiftl n 1) in
    let size_x := interleaveXY size0 0 in
    inr (mk n size_x (Z.shiftl size_x 1) (replicate (Z.to_nat len) Dead) size0 0).

Definition clear : M machine unit :=
  sz <- gets size ;;
  let n := u64 (sz * sz) in
  for_each (fun i => write_cell i Dead) (Z.to_nat n) 0 ;;; ret tt.

Definition setCursor (x y : Z) : M machine Z :=
  sz <- gets size ;;
  if (x >=? sz) || (y >=? sz) then ret DeadVisited
  else
    set_idx (interleaveXY x y) ;;;
    i <- gets idx ;;
    read_cell i.

Definition toggle : M machine unit :=
  i <- gets idx ;;
  c <- read_cell i ;;
  write_cell i (if c =? Dead then Alive else Dead).

Fixpoint setAlive_loop (max_idx : Z) (idxs : list Z) : M machine unit :=
  match idxs with
  | [] => ret tt
  | i :: rest =>
      (if i <? max_idx then write_cell i Alive else ret tt) ;;;
      setAlive_loop max_idx rest
  end.

(** [setAlive(idxs, len)] with [len] the length of [idxs]. *)
Definition setAlive (idxs : list Z) : M machine unit :=
  sz <- gets size ;;
  setAlive_loop (u64 (sz * sz)) idxs.

(** The tail shared by the four moves: the bounds test and the masked
    read at the new cursor. *)
Definition probe (x y mask : Z) : M machine Z :=
  sx <- gets size_x ;;
  sy <- gets size_y ;;
  if (x >=? sx) || (y >=? sy) then ret (u8 (Z.land DeadVisited mask))
  else
    i <- gets idx ;;
    c <- read_cell i ;;
    ret (u8 (Z.land c mask)).

Definition right (mask : Z) : M machine Z :=
  i <- gets idx ;;
  let y := u32 (Z.land i MASK_Y) in
  let x := u32 (Z.land (u64 (Z.lor i MASK_Y + 1)) MASK_X) in
  set_idx (Z.lor y x) ;;;
  probe x y mask.

Definition left (mask : Z) : M machine Z :=
  i <- gets idx ;;
  let y := u32 (Z.land i MASK_Y) in
  let x := u32 (Z.land (u64 (Z.land i MASK_X - 1)) MASK_X) in
  set_idx (Z.lor y x) ;;;
  probe x y mask.

Definition up (mask : Z) : M machine Z :=
  i <- gets idx ;;
  let x := u32 (Z.land i MASK_X) in
  let y := u32 (Z.land (u64 (Z.land i MASK_Y - 1)) MASK_Y) in
  set_idx (Z.lor x y) ;;;
  probe x y mask.

Definition down (mask : Z) : M machine Z :=
  i <- gets idx ;;
  let x := u32 (Z.land i MASK_X) in
  let y := u32 (Z.land (u64 (Z.lor i MASK_X + 1)) MASK_Y) in
  set_idx (Z.lor x y) ;;;
  probe x y mask.

Definition countAliveNeighbors : M machine Z :=
  let count := 0 in
  old_idx <- gets idx ;;
  c <- up Alive ;; let count := u8 (count + c) in
  c <- left Alive ;; let count := u8 (count + c) in
  c <- down Alive ;; let count := u8 (count + c) in
  c <- down Alive ;; let count := u8 (count + c) in
  c <- right Alive ;; let count := u8 (count + c) in
  c <- right Alive ;; let count := u8 (count + c) in
  c <- up Alive ;; let count := u8 (count + c) in
  c <- up Alive ;; let count := u8 (count + c) in
  set_idx old_idx ;;;
  ret count.

Definition updateCell : M machine unit :=
  i <- gets idx ;;
  emit (EvUpdateCell i) ;;;
  alive_neighbors <- countAliveNeighbors ;;
  i <- gets idx ;;
  c <- read_cell i ;;
  if (c =? Alive) && ((alive_neighbors <? 2) || (alive_neighbors >? 3)) then
    write_cell i Dying
  else
    c <- read_cell i ;;
    if c =? Dead then
      write_cell i (if alive_neighbors =? 3 then Birthing else DeadVisited)
    else ret tt.

End GameField.

(** ** [class Game]: the members that touch the field *)

Module Game.

Import GameField.

Definition mask : Z := Z.lor Alive DeadVisited.

(** One neighbour step of the evaluate pass:
    [if (field.move(mask) == Dead) field.updateCell();] *)
Definition visit (move : Z -> M machine Z) : M machine unit :=
  c <- move mask ;;
  if c =? Dead then updateCell else ret tt.

(** Body of the first double loop of [simulationTick]. *)
Definition evaluate_cell (idx : Z) : M machine unit :=
  cell <- read_cell idx ;;
  if cell =? Alive then
    set_idx idx ;;;
    updateCell ;;;
    visit up ;;;
    visit left ;;;
    visit down ;;;
    visit down ;;;
    visit right ;;;
    visit right ;;;
    visit up ;;;
    visit up
  else ret tt.

(** Body of the second double loop of [simulationTick]. *)
Definition commit_cell (idx : Z) : M machine unit :=
  cell <- read_cell idx ;;
  if cell =? Birthing then write_cell idx Alive
  else if (cell =? Dying) || (cell =? DeadVisited) then write_cell idx Dead
  else ret tt.

(** [for (y = 0; y < size; ++y) for (x = 0; x < size; ++x) { body(idx); ++idx; }]
    The counters [x] and [y] are not used by the bodies, and the bodies
    do not change [field.size]. *)
Fixpoint rows (body : Z -> M machine unit) (ys xs : nat) (idx : Z) : M machine Z :=
  match ys with
  | O => ret idx
  | S ys' => idx' <- for_each body xs idx ;; rows body ys' xs idx'
  end.

Definition evaluate_pass : M machine unit :=
  sz <- gets size ;;
  rows evaluate_cell (Z.to_nat sz) (Z.to_nat sz) 0 ;;; ret tt.

Definition commit_pass : M machine unit :=
  sz <- gets size ;;
  rows commit_cell (Z.to_nat sz) (Z.to_nat sz) 0 ;;; ret tt.

Definition simulationTick : M machine unit :=
  evaluate_pass ;;; commit_pass.

(** The loop of [saveFile] that collects the indices of the alive cells. *)
Fixpoint collect_alive (count : nat) (i : Z) (vec : list Z) : M machine (list Z) :=
  match count with
  | O => ret vec
  | S count' =>
      cell <- read_cell i ;;
      collect_alive count' (i + 1) (if cell =? Alive then vec ++ [i] else vec)
  end.

(** [saveFile]: the result is the sequence of 32-bit words written to
    the file. *)
Definition saveFile : M machine (list Z) :=
  sz <- gets size ;;
  let vec := [u32 sz] in
  let len := u32 (sz * sz) in
  collect_alive (Z.to_nat len) 0 vec.

(** [field = std::move(GameField(new_size))] once the temporary has been
    built. *)
Definition replace_field (f : GameField.t) : M machine unit :=
  fun s => Some (tt, Machine f (trace s)).

(** [openFile] applied to the 32-bit words of the file.  Reading
    [idxs[0]] from an empty buffer is undefined. *)
Definition openFile (words : list Z) : M machine unit :=
  match words with
  | [] => fun _ => None
  | new_size :: idxs =>
      sz <- gets size ;;
      if negb (new_size =? sz) then
        match GameField.new new_size with
        | inl _ => ret tt
        | inr f => replace_field f ;;; clear ;;; setAlive idxs
        end
      else clear ;;; setAlive idxs
  end.

(** [int]: a 32-bit word read in two's complement. *)
Definition i32 (z : Z) : Z := (z + 2 ^ 31) mod 2 ^ 32 - 2 ^ 31.

(** The first pixel and the first cell of [draw] along one axis.
    Negating the least [int] and dividing by a [cell_size] of zero are
    undefined. *)
Definition draw_start (origin cell_size field_size : Z) : option (Z * Z) :=
  if origin <=? 0 then
    if origin =? - 2 ^ 31 then None else Some (- origin, 0)
  else if cell_size =? 0 then None
  else Some (i32 (u32 (- (u32 origin mod cell_size))),
             Z.min (u32 origin / cell_size) (u32 field_size)).

(** The inner loop of [draw]: the cells of one row from the cursor
    rightwards.  [remaining] is [field.size - coord_x], the number of
    iterations left before the guard [coord_x < field.size] fails.  The
    result is the last value of [cell] with the sprites stamped so far. *)
Fixpoint draw_row (remaining : nat) (cell_size window_x pixel_y : Z)
    (pixel_x coord_x cell : Z) (sprites : list (Z * Z))
    : M machine (Z * list (Z * Z)) :=
  match remaining with
  | O => ret (cell, sprites)
  | S remaining' =>
      sz <- gets size ;;
      if (pixel_x <? i32 window_x) && (coord_x <? sz) then
        let sprites :=
          if cell =? Alive then sprites ++ [(pixel_x, pixel_y)] else sprites in
        cell <- right Alive ;;
        draw_row remaining' cell_size window_x pixel_y
                 (i32 (u32 (pixel_x + cell_size))) (coord_x + 1) cell sprites
      else ret (cell, sprites)
  end.

(** The outer loop of [draw], with [remaining] the value of
    [field.size - coord_y]. *)
Fixpoint draw_rows (remaining : nat) (cell_size window_x window_y : Z)
    (pixel_x_start coord_x_start : Z) (pixel_y coord_y cell : Z)
    (sprites : list (Z * Z)) : M machine (list (Z * Z)) :=
  match remaining with
  | O => ret sprites
  | S remaining' =>
      sz <- gets size ;;
      if (pixel_y <? i32 window_y) && (coord_y <? sz) then
        i <- gets idx ;;
        row <- draw_row (Z.to_nat (sz - coord_x_start)) cell_size window_x pixel_y
                        pixel_x_start coord_x_start cell sprites ;;
        set_idx i ;;;
        cell <- down Alive ;;
        draw_rows remaining' cell_size window_x window_y pixel_x_start coord_x_start
                  (i32 (u32 (pixel_y + cell_size))) (coord_y + 1) cell (snd row)
      else ret sprites
  end.

(** The part of [draw] that stamps the alive cells, for a window of
    [window_x] by [window_y] pixels; the result is the list of the
    positions at which the sprite is drawn.  The grid lines drawn
    afterwards do not touch the field. *)
Definition draw (origin_x origin_y cell_size window_x window_y : Z)
    : M machine (list (Z * Z)) :=
  sz <- gets size ;;
  match draw_start origin_x cell_size sz, draw_start origin_y cell_size sz with
  | Some (pixel_x_start, coord_x_start), Some (pixel_y_start, coord_y_start) =>
      cell <- setCursor coord_x_start coord_y_start ;;
      draw_rows (Z.to_nat (sz - coord_y_start)) cell_size window_x window_y
                pixel_x_start coord_x_start pixel_y_start coord_y_start cell []
  | _, _ => fun _ => None
  end.

Definition CELL_SIZE_INIT : Z := 25.
Definition CELL_SIZE_MAX : Z := 100.
Definition GRID_THICKNESS : Z := 2.
Definition DRAW_GRID_THRESHOLD : Z := 8.

Definition grid_thickness_threshold : Z :=
  u32 ((CELL_SIZE_INIT + DRAW_GRID_THRESHOLD) / 2).

(** [std::clamp(v, lo, hi)]. *)
Definition clamp (v lo hi : Z) : Z :=
  if v <? lo then lo else if hi <? v then hi else v.

(** [updateCellSize(delta)]: the new values of [cell_size] and
    [grid_thickness].  An overflow of the [int] sum is undefined. *)
Definition updateCellSize (delta cell_size : Z) : option (Z * Z) :=
  let v := i32 cell_size + delta in
  if (v <? - 2 ^ 31) || (2 ^ 31 <=? v) then None
  else
    let cell_size := u32 (clamp v 1 CELL_SIZE_MAX) in
    Some (cell_size,
          if cell_size <? grid_thickness_threshold
          then GRID_THICKNESS / 2 else GRID_THICKNESS).

End Game.

(** ** [main]: the events that reach the field *)

Module Main.

Definition FRAMES_PER_TICK_INIT : Z := 60.

(** [sf::Keyboard::Up]: fewer frames per tick. *)
Definition key_Up (frames_per_tick : Z) : Z :=
  if frames_per_tick >? 10 then u32 (frames_per_tick - 10)
  else if frames_per_tick >? 5 then u32 (frames_per_tick - 5)
  else if frames_per_tick >? 1 then u32 (frames_per_tick - 2)
  else frames_per_tick.

(** [sf::Keyboard::Down]: more frames per tick. *)
Definition key_Down (frames_per_tick : Z) : Z :=
  if frames_per_tick <? 5 then u32 (frames_per_tick + 2)
  else if frames_per_tick <? 10 then u32 (frames_per_tick + 5)
  else if frames_per_tick <? 60 then u32 (frames_per_tick + 10)
  else frames_per_tick.

Inductive key : Type := Up | Down.

Definition press (k : key) (frames_per_tick : Z) : Z :=
  match k with
  | Up => key_Up frames_per_tick
  | Down => key_Down frames_per_tick
  end.

(** The left mouse button, with [pixel_x] and [pixel_y] the position of
    the click on the board in pixels.  Dividing by a [cell_size] of zero
    is undefined. *)
Definition click (pixel_x pixel_y cell_size : Z) : M GameField.machine unit :=
  if (pixel_x >=? 0) && (pixel_y >=? 0) then
    if cell_size =? 0 then fun _ => None
    else
      let coord_x := pixel_x / cell_size in
      let coord_y := pixel_y / cell_size in
      sz <- GameField.gets GameField.size ;;
      if (coord_x <? sz) && (coord_y <? sz) then
        GameField.setCursor coord_x coord_y ;;;
        GameField.toggle
      else ret tt
  else ret tt.

(** The end of one iteration of the main loop:
    [if (simulating && frames_till_next_tick-- == 0)
       { game.simulationTick(); frames_till_next_tick = frames_per_tick; }]
    The result is the new value of [frames_till_next_tick]. *)
Definition frame (simulating : bool) (frames_per_tick frames_till_next_tick : Z)
    : M GameField.machine Z :=
  if simulating then
    if frames_till_next_tick =? 0 then
      Game.simulationTick ;;; ret frames_per_tick
    else ret (u32 (frames_till_next_tick - 1))
  else ret frames_till_next_tick.

(** [count] iterations of the main loop while simulating, with no event
    pending. *)
Fixpoint frames (count : nat) (frames_per_tick frames_till_next_tick : Z)
    : M GameField.machine Z :=
  match count with
  | O => ret frames_till_next_tick
  | S count' =>
      next <- frame true frames_per_tick frames_till_next_tick ;;
      frames count' frames_per_tick next
  end.

Definition SCROLL_PPF : Z := 1.

(** The mouse wheel, as far as [cell_size] goes: [delta_negative] is
    [event.mouseWheelScroll.delta < 0]. *)
Definition wheel (delta_negative : bool) (cell_size : Z) : option (Z * Z) :=
  if delta_negative then Game.updateCellSize (- SCROLL_PPF) cell_size
  else Game.updateCellSize SCROLL_PPF cell_size.

End Main.

(** ** Reference definitions for the proofs *)

(** The Morton key of [(x, y)] on [m] bits per axis, one base-4 digit at a
    time: bit [j] of [x] goes to bit [2j], bit [j] of [y] to bit [2j+1]. *)
Fixpoint morton (m : nat) (x y : Z) : Z :=
  match m with
  | O => 0
  | S m' => Z.b2z (Z.odd x) + 2 * Z.b2z (Z.odd y) + 4 * morton m' (Z.div2 x) (Z.div2 y)
  end.

(** The coordinates of a key. *)
Fixpoint morton_x (m : nat) (k : Z) : Z :=
  match m with
  | O => 0
  | S m' => Z.b2z (Z.odd k) + 2 * morton_x m' (k / 4)
  end.

Definition morton_y (m : nat) (k : Z) : Z := morton_x m (Z.div2 k).

(** Where bit [i] of the result of one delta swap comes from, and the
    side conditions under which that holds. *)
Definition swap_src (m s i : Z) : Z :=
  if Z.testbit m i then i - s else if Z.testbit m (i + s) then i + s else i.

Definition swap_ok (m s i : Z) : bool :=
  (0 <=? s) && (0 <=? i) && (i <? 32) &&
  (if Z.testbit m i then (s <=? i) && negb (Z.testbit m (i + s)) else true) &&
  (if Z.testbit m (i + s) then i + s <? 32 else true).

(** The four swaps of [interleaveXY] composed. *)
Definition network_src (i : Z) : Z :=
  swap_src 0x00FF0000 8 (swap_src 0x0F000F00 4 (swap_src 0x30303030 2 (swap_src 0x44444444 1 i))).

Definition network_ok (i : Z) : bool :=
  swap_ok 0x44444444 1 i &&
  swap_ok 0x30303030 2 (swap_src 0x44444444 1 i) &&
  swap_ok 0x0F000F00 4 (swap_src 0x30303030 2 (swap_src 0x44444444 1 i)) &&
  swap_ok 0x00FF0000 8 (swap_src 0x0F000F00 4 (swap_src 0x30303030 2 (swap_src 0x44444444 1 i))).

(** ** Well-formed fields and the view of a field by coordinates *)

(** The class invariant established by the constructor. *)
Record wf (f : GameField.t) : Prop := {
  wf_n : 0 <= GameField.n f <= 12;
  wf_size : GameField.size f = 2 ^ GameField.n f;
  wf_size_x : GameField.size_x f = 4 ^ GameField.n f;
  wf_size_y : GameField.size_y f = 2 * 4 ^ GameField.n f;
  wf_cells : Z.of_nat (length (GameField.cells f)) = 4 ^ GameField.n f;
  wf_idx : 0 <= GameField.idx f < 2 ^ 32
}.

(** The code stored at index [k] ([Dead] outside the array). *)
Definition cell (f : GameField.t) (k : Z) : Z :=
  default Dead (GameField.cells f !! Z.to_nat k).

(** Coordinates, as 16-bit values, that lie on the grid. *)
Definition on_grid (f : GameField.t) (x y : Z) : bool :=
  (u16 x <? GameField.size f) && (u16 y <? GameField.size f).

Definition with_idx (k : Z) (f : GameField.t) : GameField.t :=
  GameField.mk (GameField.n f) (GameField.size_x f) (GameField.size_y f)
               (GameField.cells f) (GameField.size f) k.

Definition with_cells (cs : list Z) (f : GameField.t) : GameField.t :=
  GameField.mk (GameField.n f) (GameField.size_x f) (GameField.size_y f)
               cs (GameField.size f) (GameField.idx f).

(** What a move that lands on [(x, y)] returns and reads. *)
Definition probe_val (f : GameField.t) (x y mask : Z) : Z :=
  if on_grid f x y then u8 (Z.land (cell f (interleaveXY x y)) mask)
  else u8 (Z.land DeadVisited mask).

Definition probe_ev (f : GameField.t) (x y : Z) : list event :=
  if on_grid f x y then [EvRead (interleaveXY x y)] else [].

Definition moved (x y : Z) (s : GameField.machine) : GameField.machine :=
  GameField.Machine (with_idx (interleaveXY x y) (GameField.field s))
                    (GameField.trace s ++ probe_ev (GameField.field s) x y).

Definition logged (es : list event) (s : GameField.machine) : GameField.machine :=
  GameField.Machine (GameField.field s) (GameField.trace s ++ es).

(** The eight positions of the neighbour walk from [(x, y)], in the order
    N, W, S, S, E, E, N, N of the moves. *)
Definition walk (x y : Z) : list (Z * Z) :=
  [ (x, y - 1); (x - 1, y - 1); (x - 1, y); (x - 1, y + 1);
    (x, y + 1); (x + 1, y + 1); (x + 1, y); (x + 1, y - 1) ].

(** The was-alive bit seen at [(x, y)]: 0 off the grid. *)
Definition low_bit (f : GameField.t) (x y : Z) : Z :=
  if on_grid f x y then Z.land (cell f (interleaveXY x y)) 1 else 0.

Definition walk_sum (f : GameField.t) (x y : Z) : Z :=
  fold_right (fun p acc  => low_bit f (fst p) (snd p) + acc) 0 (walk x y).

Definition walk_ev (f : GameField.t) (x y : Z) : list event :=
  flat_map (fun p => probe_ev f (fst p) (snd p)) (walk x y).

(** The transition rule of [updateCell] on a cell code [c] with [a] alive
    neighbours, and the accesses it makes to cell [k]. *)
Definition rule (c a : Z) : Z :=
  if (c =? Alive) && ((a <? 2) || (a >? 3)) then Dying
  else if c =? Dead then (if a =? 3 then Birthing else DeadVisited)
  else c.

Definition rule_ev (k c a : Z) : list event :=
  if (c =? Alive) && ((a <? 2) || (a >? 3)) then [EvRead k; EvWrite k Dying]
  else if c =? Dead then
    [EvRead k; EvRead k; EvWrite k (if a =? 3 then Birthing else DeadVisited)]
  else [EvRead k; EvRead k].

(** The machine after [updateCell] with the cursor on [(x, y)]. *)
Definition updated (x y : Z) (s : GameField.machine) : GameField.machine :=
  let f := GameField.field s in
  let k := interleaveXY x y in
  let c := cell f k in
  let a := walk_sum f x y in
  GameField.Machine
    (with_cells (<[Z.to_nat k := rule c a]> (GameField.cells f)) f)
    (GameField.trace s ++ EvUpdateCell k :: walk_ev f x y ++ rule_ev k c a).

(** Two fields of the same geometry. *)
Definition same_shape (f f' : GameField.t) : Prop :=
  GameField.n f' = GameField.n f /\
  GameField.size f' = GameField.size f /\
  GameField.size_x f' = GameField.size_x f /\
  GameField.size_y f' = GameField.size_y f /\
  length (GameField.cells f') = length (GameField.cells f).

(** The machine after [cells[k] = v]. *)
Definition wrote (k v : Z) (s : GameField.machine) : GameField.machine :=
  GameField.Machine
    (with_cells (<[Z.to_nat k := v]> (GameField.cells (GameField.field s))) (GameField.field s))
    (GameField.trace s ++ [EvWrite k v]).

(** The machine after one neighbour step of the evaluate pass that lands
    on [(a, b)]. *)
Definition visit_post (a b : Z) (s : GameField.machine) : GameField.machine :=
  let s1 := moved a b s in
  if probe_val (GameField.field s) a b Game.mask =? Dead then updated a b s1 else s1.

Definition start_at (k : Z) (s : GameField.machine) : GameField.machine :=
  GameField.Machine (with_idx k (GameField.field s)) (GameField.trace s).

(** The machine after the body of the evaluate loop at index [k]. *)
Definition evaluated (k : Z) (s : GameField.machine) : GameField.machine :=
  let x := morton_x 16 k in
  let y := morton_y 16 k in
  let s0 := logged [EvRead k] s in
  if cell (GameField.field s) k =? Alive then
    fold_left (fun s p => visit_post (fst p) (snd p) s) (walk x y)
              (updated x y (start_at k s0))
  else s0.

(** The code a cell holds after the commit pass. *)
Definition commit_code (c : Z) : Z :=
  if c =? Birthing then Alive
  else if (c =? Dying) || (c =? DeadVisited) then Dead
  else c.

(** The machine after the body of the commit loop at index [k]. *)
Definition committed (k : Z) (s : GameField.machine) : GameField.machine :=
  let c := cell (GameField.field s) k in
  let s0 := logged [EvRead k] s in
  if c =? Birthing then wrote k Alive s0
  else if (c =? Dying) || (c =? DeadVisited) then wrote k Dead s0
  else s0.

(** A pass over a list of indices. *)
Definition pass (post : Z -> GameField.machine -> GameField.machine)
    (order : list Z) (s : GameField.machine) : GameField.machine :=
  fold_left (fun s k => post k s) order s.

(** The evaluate pass run over an arbitrary enumeration of indices. *)
Definition evaluate_order (order : list Z) : M GameField.machine unit :=
  fold_right (fun k m => Game.evaluate_cell k ;;; m) (ret tt) order.

(** The invariant carried through a pass: the geometry of the start. *)
Definition shaped (f0 : GameField.t) (s : GameField.machine) : Prop :=
  wf (GameField.field s) /\ same_shape f0 (GameField.field s).

(** The cells visited by both loops of [simulationTick], in order. *)
Definition scan_order (f : GameField.t) : list Z :=
  seqZ 0 (Z.of_nat (length (GameField.cells f))).

Definition ticked (s : GameField.machine) : GameField.machine :=
  pass committed (scan_order (GameField.field s))
       (pass evaluated (scan_order (GameField.field s)) s).

(** ** The rule of the game on coordinates *)

Definition in_grid (N x y : Z) : bool :=
  (0 <=? x) && (x <? N) && (0 <=? y) && (y <? N).

(** A cell of the bounded board is alive; cells off the board are dead. *)
Definition alive_at (f : GameField.t) (x y : Z) : bool :=
  if in_grid (GameField.size f) x y then cell f (interleaveXY x y) =? Alive else false.

(** The number of alive cells among the eight Moore neighbours. *)
Definition neighbours_alive (f : GameField.t) (x y : Z) : Z :=
  Z.b2z (alive_at f (x - 1) (y - 1)) + Z.b2z (alive_at f x (y - 1))
  + Z.b2z (alive_at f (x + 1) (y - 1))
  + Z.b2z (alive_at f (x - 1) y) + Z.b2z (alive_at f (x + 1) y)
  + Z.b2z (alive_at f (x - 1) (y + 1)) + Z.b2z (alive_at f x (y + 1))
  + Z.b2z (alive_at f (x + 1) (y + 1)).

(** Conway's rule: survival on 2 or 3 neighbours, birth on exactly 3. *)
Definition life_next (f : GameField.t) (x y : Z) : bool :=
  let c := neighbours_alive f x y in
  if alive_at f x y then (c =? 2) || (c =? 3) else c =? 3.

(** Between ticks every cell is [Dead] or [Alive]. *)
Definition settled (f : GameField.t) : Prop :=
  Forall (fun c => c = Dead \/ c = Alive) (GameField.cells f).

(** The code the evaluate pass leaves in an evaluated cell of the board
    [f0] of the start of the tick. *)
Definition final (f0 : GameField.t) (x y : Z) : Z :=
  rule (cell f0 (interleaveXY x y)) (neighbours_alive f0 x y).

(** Invariant of the evaluate pass: every cell still holds its code of the
    start of the tick or has been evaluated. *)
Definition Inv (f0 : GameField.t) (s : GameField.machine) : Prop :=
  shaped f0 s /\
  forall x y, in_grid (GameField.size f0) x y = true ->
    cell (GameField.field s) (interleaveXY x y) = cell f0 (interleaveXY x y) \/
    cell (GameField.field s) (interleaveXY x y) = final f0 x y.

Definition Fin (f0 : GameField.t) (s : GameField.machine) (x y : Z) : Prop :=
  cell (GameField.field s) (interleaveXY x y) = final f0 x y.

(** An alive cell has been processed: it and its dead neighbours on the
    board are evaluated. *)
Definition Done (f0 : GameField.t) (s : GameField.machine) (x y : Z) : Prop :=
  Fin f0 s x y /\
  forall p, In p (walk x y) ->
    in_grid (GameField.size f0) (fst p) (snd p) = true ->
    alive_at f0 (fst p) (snd p) = false -> Fin f0 s (fst p) (snd p).

(** Every cell marked [Dying] has been processed. *)
Definition Marked (f0 : GameField.t) (s : GameField.machine) : Prop :=
  forall x y, in_grid (GameField.size f0) x y = true ->
    cell (GameField.field s) (interleaveXY x y) = Dying -> Done f0 s x y.

(** Evaluated cells stay evaluated from [s] to [s']. *)
Definition grows (f0 : GameField.t) (s s' : GameField.machine) : Prop :=
  forall x y, in_grid (GameField.size f0) x y = true -> Fin f0 s x y -> Fin f0 s' x y.

(** The cells alive at the start of the tick are the same in [s] and [s']. *)
Definition keeps_alive (f0 : GameField.t) (s s' : GameField.machine) : Prop :=
  forall x y, in_grid (GameField.size f0) x y = true -> alive_at f0 x y = true ->
    cell (GameField.field s') (interleaveXY x y) = cell (GameField.field s) (interleaveXY x y).

(** One tick whose evaluate pass enumerates the cells in the given order. *)
Definition tick_with (order : list Z) : M GameField.machine unit :=
  evaluate_order order ;;; Game.commit_pass.

(** ** Cursor steps *)

Inductive direction : Type := Right | Left | Up | Down.

Definition step (d : direction) (mask : Z) : M GameField.machine Z :=
  match d with
  | Right => GameField.right mask
  | Left => GameField.left mask
  | Up => GameField.up mask
  | Down => GameField.down mask
  end.

(** A sequence of cursor steps, each with its mask; the result is the list
    of the values returned. *)
Fixpoint steps (ds : list (direction * Z)) : M GameField.machine (list Z) :=
  match ds with
  | [] => ret []
  | (d, mask) :: rest =>
      v <- step d mask ;;
      vs <- steps rest ;;
      ret (v :: vs)
  end.

(** The cursor after each of a sequence of moves. *)
Fixpoint trail (ds : list direction) : M GameField.machine (list Z) :=
  match ds with
  | [] => ret []
  | d :: rest =>
      step d Alive ;;;
      i <- GameField.gets GameField.idx ;;
      tl <- trail rest ;;
      ret (i :: tl)
  end.

(** The moves of [countAliveNeighbors], in program order. *)
Definition neighbour_moves : list direction :=
  [Up; Left; Down; Down; Right; Right; Up; Up].

(** Where a step from [(x, y)] lands, and the positions along a sequence
    of steps. *)
Definition target (d : direction) (x y : Z) : Z * Z :=
  match d with
  | Right => (x + 1, y)
  | Left => (x - 1, y)
  | Up => (x, y - 1)
  | Down => (x, y + 1)
  end.

Fixpoint path (ds : list direction) (x y : Z) : list (Z * Z) :=
  match ds with
  | [] => []
  | d :: rest =>
      let p := target d x y in
      p :: path rest (fst p) (snd p)
  end.

(** Counting events of a trace. *)
Definition is_call (k : Z) (e : event) : bool :=
  match e with EvUpdateCell i => i =? k | _ => false end.

Definition is_write (k : Z) (e : event) : bool :=
  match e with EvWrite i _ => i =? k | _ => false end.

Definition is_read (e : event) : bool :=
  match e with EvRead _ => true | _ => false end.

Definition calls (k : Z) (t : list event) : nat := length (List.filter (is_call k) t).
Definition writes (k : Z) (t : list event) : nat := length (List.filter (is_write k) t).
Definition reads (t : list event) : nat := length (List.filter is_read t).

(** A 4x4 board with a vertical blinker in column 1, rows 0 to 2. *)
Definition blinker4 : GameField.t :=
  GameField.mk 2 16 32 [0; 1; 0; 1; 0; 0; 0; 0; 0; 1; 0; 0; 0; 0; 0; 0] 4 0.

(** The 1x1 board with its only cell alive. *)
Definition single1 : GameField.t := GameField.mk 0 1 2 [Alive] 1 0.

(** ** Snapshots *)

(** The indices of the [Alive] cells, in increasing order. *)
Definition alive_indices (f : GameField.t) : list Z :=
  List.filter (fun k => cell f k =? Alive) (seqZ 0 (Z.of_nat (length (GameField.cells f)))).

(** The machine after one iteration of the loop of [setAlive]. *)
Definition marked_alive (max_idx i : Z) (s : GameField.machine) : GameField.machine :=
  if i <? max_idx then wrote i Alive s else s.

(** How often the cells dead at the start of the tick have been written
    and passed to [updateCell] since the trace [t0] of the start. *)
Definition Counted (f0 : GameField.t) (t0 : list event) (s : GameField.machine) : Prop :=
  forall x y, in_grid (GameField.size f0) x y = true ->
    cell f0 (interleaveXY x y) = Dead ->
    let k := interleaveXY x y in
    let c := cell (GameField.field s) k in
    (writes k (GameField.trace s)
     = writes k t0 + (if (c =? Dead)%Z then 0 else 1))%nat /\
    (c = Dead -> calls k (GameField.trace s) = calls k t0) /\
    (c = DeadVisited -> calls k (GameField.trace s) = (calls k t0 + 1)%nat) /\
    (c = Birthing -> (calls k t0 + 1 <= calls k (GameField.trace s))%nat).

(** The low bit of every cell is the same in [s] and [s']. *)
Definition same_low (s s' : GameField.machine) : Prop :=
  forall k, 0 <= k ->
    Z.land (cell (GameField.field s') k) 1 = Z.land (cell (GameField.field s) k) 1.

(** The number of entries into [updateCell] in a trace. *)
Definition is_update (e : event) : bool :=
  match e with EvUpdateCell _ => true | _ => false end.

Definition updates (t : list event) : nat := length (List.filter is_update t).

(** Every cell holds one of the five codes. *)
Definition coded (f : GameField.t) : Prop :=
  Forall (fun c => c = Dead \/ c = Alive \/ c = Dying \/ c = Birthing \/ c = DeadVisited)
         (GameField.cells f).

(** The frame rates reachable with the Up and Down keys. *)
Definition cadence (frames_per_tick : Z) : Prop :=
  In frames_per_tick [1; 3; 5; 10; 20; 30; 40; 50; 60].

(** The next generation of a board, cell by cell. *)
Definition generation (f : GameField.t) : GameField.t :=
  with_cells
    (map (fun k => if life_next f (morton_x 16 k) (morton_y 16 k) then Alive else Dead)
         (seqZ 0 (Z.of_nat (length (GameField.cells f))))) f.

(** [count] ticks in a row. *)
Fixpoint ticks (count : nat) : M GameField.machine unit :=
  match count with
  | O => ret tt
  | S count' => Game.simulationTick ;;; ticks count'
  end.

(** ** Drawing *)

(** The columns of row [y] stamped from column [x0] on, and their
    sprites. *)
Definition row_cells (f : GameField.t) (cell_size origin_x window_x y x0 : Z)
    (count : nat) : list Z :=
  List.filter (fun x => (x * cell_size - origin_x <? window_x) && alive_at f x y)
              (seqZ x0 (Z.of_nat count)).

Definition row_sprites (f : GameField.t) (cell_size origin_x window_x y py x0 : Z)
    (count : nat) : list (Z * Z) :=
  map (fun x => (x * cell_size - origin_x, py))
      (row_cells f cell_size origin_x window_x y x0 count).

Definition board_sprites (f : GameField.t) (cell_size origin_x origin_y window_x window_y : Z)
    (x0 y0 : Z) (count : nat) : list (Z * Z) :=
  flat_map (fun y => row_sprites f cell_size origin_x window_x y (y * cell_size - origin_y) x0
                       (Z.to_nat (GameField.size f - x0)))
           (List.filter (fun y => y * cell_size - origin_y <? window_y)
                        (seqZ y0 (Z.of_nat count))).

(** A machine that holds the board [f0], with any cursor. *)
Definition same_board (f0 : GameField.t) (s : GameField.machine) : Prop :=
  wf (GameField.field s) /\ same_shape f0 (GameField.field s) /\
  GameField.cells (GameField.field s) = GameField.cells f0.

(** The value of [cell_size] after a sequence of wheel events. *)
Fixpoint scrolled (ws : list bool) (cell_size : Z) : option Z :=
  match ws with
  | [] => Some cell_size
  | w :: rest =>
      match Main.wheel w cell_size with
      | Some (cell_size', _) => scrolled rest cell_size'
      | None => None
      end
  end.

(** ** Repeated visits *)

(** How often the position [(x, y)] occurs in a list of positions. *)
Definition occurrences (x y : Z) (ps : list (Z * Z)) : nat :=
  length (List.filter (fun q => (fst q =? x) && (snd q =? y)) ps).

(** The number of alive Moore neighbours of [(x, y)] whose index is in
    [order]. *)
Definition alive_neighbours_in (f : GameField.t) (x y : Z) (order : list Z) : nat :=
  length (List.filter
            (fun p => alive_at f (fst p) (snd p)
                      && existsb (Z.eqb (interleaveXY (fst p) (snd p))) order)
            (walk x y)).

(** The cells of [order] that were alive at the start still hold
    [Alive]. *)
Definition Unprocessed (f0 : GameField.t) (order : list Z) (s : GameField.machine) : Prop :=
  forall k, In k order -> cell f0 k = Alive -> cell (GameField.field s) k = Alive.

(** * Proofs *)

(* ---------- digits ---------- *)

Lemma land_double_bit a b (p q : bool) :
  Z.land (Z.b2z p + 2 * a) (Z.b2z q + 2 * b) = Z.b2z (p && q) + 2 * Z.land a b.
Proof.
  apply Z.bits_inj'. intros i Hi.
  rewrite Z.land_spec.
  destruct (Z.eq_dec i 0) as [->|Hne].
  - rewrite !Z.add_b2z_double_bit0. reflexivity.
  - replace i with (Z.succ (i - 1)) by lia.
    rewrite !(Z.add_comm (Z.b2z _)), !Z.testbit_succ_r by lia.
    now rewrite Z.land_spec.
Qed.

Lemma lor_double_bit a b (p q : bool) :
  Z.lor (Z.b2z p + 2 * a) (Z.b2z q + 2 * b) = Z.b2z (p || q) + 2 * Z.lor a b.
Proof.
  apply Z.bits_inj'. intros i Hi.
  rewrite Z.lor_spec.
  destruct (Z.eq_dec i 0) as [->|Hne].
  - rewrite !Z.add_b2z_double_bit0. reflexivity.
  - replace i with (Z.succ (i - 1)) by lia.
    rewrite !(Z.add_comm (Z.b2z _)), !Z.testbit_succ_r by lia.
    now rewrite Z.lor_spec.
Qed.

Lemma digits_eq (x : Z) : x = Z.b2z (Z.odd x) + 2 * Z.div2 x.
Proof. rewrite (Z.div2_odd x) at 1. lia. Qed.

Lemma odd_digit (p : bool) a : Z.odd (Z.b2z p + 2 * a) = p.
Proof. rewrite <- Z.bit0_odd. apply Z.add_b2z_double_bit0. Qed.

Lemma div2_digit (p : bool) a : Z.div2 (Z.b2z p + 2 * a) = a.
Proof. rewrite Z.div2_div. apply Z.add_b2z_double_div2. Qed.

Lemma morton_digit m (p q : bool) a b :
  morton (S m) (Z.b2z p + 2 * a) (Z.b2z q + 2 * b) =
  Z.b2z p + 2 * (Z.b2z q + 2 * morton m a b).
Proof. cbn [morton]. rewrite !odd_digit, !div2_digit. lia. Qed.

Lemma morton_S m x y :
  morton (S m) x y =
  Z.b2z (Z.odd x) + 2 * (Z.b2z (Z.odd y) + 2 * morton m (Z.div2 x) (Z.div2 y)).
Proof. cbn [morton]. lia. Qed.

Lemma morton_range m : forall x y, 0 <= morton m x y < 4 ^ Z.of_nat m.
Proof.
  induction m as [|m IH]; intros x y.
  - simpl. lia.
  - rewrite Nat2Z.inj_succ, Z.pow_succ_r by lia. rewrite morton_S.
    specialize (IH (Z.div2 x) (Z.div2 y)).
    destruct (Z.odd x), (Z.odd y); simpl Z.b2z; lia.
Qed.

Lemma morton_testbit_even m : forall x y j, 0 <= j ->
  Z.testbit (morton m x y) (2 * j) = (j <? Z.of_nat m) && Z.testbit x j.
Proof.
  induction m as [|m IH]; intros x y j Hj.
  - cbn [morton]. rewrite Z.bits_0. destruct (j <? Z.of_nat 0) eqn:E; [lia|reflexivity].
  - rewrite morton_S.
    destruct (Z.eq_dec j 0) as [->|Hne].
    + rewrite Z.mul_0_r, Z.add_b2z_double_bit0, Z.bit0_odd. reflexivity.
    + replace (2 * j) with (Z.succ (Z.succ (2 * (j - 1)))) by lia.
      rewrite (Z.add_comm (Z.b2z (Z.odd x))), Z.testbit_succ_r by lia.
      rewrite (Z.add_comm (Z.b2z (Z.odd y))), Z.testbit_succ_r by lia.
      rewrite IH by lia.
      assert (Hb : forall z, Z.testbit (Z.div2 z) (j - 1) = Z.testbit z j).
      { intros z. rewrite Z.div2_div, Z.div2_bits by lia. f_equal. lia. }
      rewrite Hb. f_equal. rewrite Nat2Z.inj_succ.
      destruct (j - 1 <? Z.of_nat m) eqn:E1, (j <? Z.succ (Z.of_nat m)) eqn:E2; lia.
Qed.

Lemma morton_testbit_odd m : forall x y j, 0 <= j ->
  Z.testbit (morton m x y) (2 * j + 1) = (j <? Z.of_nat m) && Z.testbit y j.
Proof.
  induction m as [|m IH]; intros x y j Hj.
  - cbn [morton]. rewrite Z.bits_0. destruct (j <? Z.of_nat 0) eqn:E; [lia|reflexivity].
  - rewrite morton_S.
    destruct (Z.eq_dec j 0) as [->|Hne].
    + change (2 * 0 + 1) with (Z.succ 0).
      rewrite (Z.add_comm (Z.b2z (Z.odd x))), Z.testbit_succ_r by lia.
      rewrite Z.add_b2z_double_bit0, Z.bit0_odd. reflexivity.
    + replace (2 * j + 1) with (Z.succ (Z.succ (2 * (j - 1) + 1))) by lia.
      rewrite (Z.add_comm (Z.b2z (Z.odd x))), Z.testbit_succ_r by lia.
      rewrite (Z.add_comm (Z.b2z (Z.odd y))), Z.testbit_succ_r by lia.
      rewrite IH by lia.
      assert (Hb : forall z, Z.testbit (Z.div2 z) (j - 1) = Z.testbit z j).
      { intros z. rewrite Z.div2_div, Z.div2_bits by lia. f_equal. lia. }
      rewrite Hb. f_equal. rewrite Nat2Z.inj_succ.
      destruct (j - 1 <? Z.of_nat m) eqn:E1, (j <? Z.succ (Z.of_nat m)) eqn:E2; lia.
Qed.

Lemma index_parity i : 0 <= i -> exists j, 0 <= j /\ (i = 2 * j \/ i = 2 * j + 1).
Proof.
  intros Hi. exists (i / 2). pose proof (Z.div_mod i 2). pose proof (Z.mod_pos_bound i 2). lia.
Qed.

Lemma morton_land m x y x' y' :
  Z.land (morton m x y) (morton m x' y') = morton m (Z.land x x') (Z.land y y').
Proof.
  apply Z.bits_inj'. intros i Hi.
  destruct (index_parity i Hi) as (j & Hj & [-> | ->]);
    rewrite Z.land_spec, ?morton_testbit_even, ?morton_testbit_odd, ?Z.land_spec by lia;
    destruct (j <? Z.of_nat m), (Z.testbit _ j), (Z.testbit _ j); reflexivity.
Qed.

Lemma morton_lor m x y x' y' :
  Z.lor (morton m x y) (morton m x' y') = morton m (Z.lor x x') (Z.lor y y').
Proof.
  apply Z.bits_inj'. intros i Hi.
  destruct (index_parity i Hi) as (j & Hj & [-> | ->]);
    rewrite Z.lor_spec, ?morton_testbit_even, ?morton_testbit_odd, ?Z.lor_spec by lia;
    destruct (j <? Z.of_nat m), (Z.testbit _ j), (Z.testbit _ j); reflexivity.
Qed.

Lemma morton_mod m x y :
  morton m (x mod 2 ^ Z.of_nat m) (y mod 2 ^ Z.of_nat m) = morton m x y.
Proof.
  apply Z.bits_inj'. intros i Hi.
  destruct (index_parity i Hi) as (j & Hj & [-> | ->]);
    rewrite ?morton_testbit_even, ?morton_testbit_odd by lia;
    destruct (j <? Z.of_nat m) eqn:E; try reflexivity;
    rewrite Z.mod_pow2_bits_low by lia; reflexivity.
Qed.

Lemma morton_lt m : forall (n : nat) x y,
  (n <= m)%nat -> 0 <= x < 2 ^ Z.of_nat m -> 0 <= y < 2 ^ Z.of_nat m ->
  morton m x y < 4 ^ Z.of_nat n <-> x < 2 ^ Z.of_nat n /\ y < 2 ^ Z.of_nat n.
Proof.
  induction m as [|m IH]; intros n x y Hn Hx Hy.
  - assert (n = O) by lia. subst n. simpl in *. lia.
  - rewrite Nat2Z.inj_succ, Z.pow_succ_r in Hx, Hy by lia.
    rewrite morton_S.
    pose proof (digits_eq x) as Ex. pose proof (digits_eq y) as Ey.
    pose proof (morton_range m (Z.div2 x) (Z.div2 y)) as HK.
    assert (Hbx : 0 <= Z.b2z (Z.odd x) <= 1) by (destruct (Z.odd x); simpl; lia).
    assert (Hby : 0 <= Z.b2z (Z.odd y) <= 1) by (destruct (Z.odd y); simpl; lia).
    destruct n as [|n].
    + specialize (IH O (Z.div2 x) (Z.div2 y)). simpl Z.of_nat in *.
      rewrite !Z.pow_0_r in *. lia.
    + specialize (IH n (Z.div2 x) (Z.div2 y)).
      rewrite Nat2Z.inj_succ, !Z.pow_succ_r by lia. lia.
Qed.

Lemma morton_x_range m : forall k, 0 <= morton_x m k < 2 ^ Z.of_nat m.
Proof.
  induction m as [|m IH]; intros k.
  - simpl. lia.
  - rewrite Nat2Z.inj_succ, Z.pow_succ_r by lia. cbn [morton_x].
    specialize (IH (k / 4)). destruct (Z.odd k); simpl Z.b2z; lia.
Qed.

Lemma morton_y_range m k : 0 <= morton_y m k < 2 ^ Z.of_nat m.
Proof. apply morton_x_range. Qed.

Lemma morton_decode m : forall k, 0 <= k < 4 ^ Z.of_nat m ->
  morton m (morton_x m k) (morton_y m k) = k.
Proof.
  unfold morton_y.
  induction m as [|m IH]; intros k Hk.
  - simpl in *. lia.
  - rewrite Nat2Z.inj_succ, Z.pow_succ_r in Hk by lia.
    cbn [morton_x]. rewrite morton_digit.
    replace (Z.div2 k / 4) with (Z.div2 (k / 4))
      by (rewrite !Z.div2_div, !Z.div_div by lia; reflexivity).
    rewrite IH by (split; [apply Z.div_pos; lia | apply Z.div_lt_upper_bound; lia]).
    rewrite (digits_eq k) at 4. rewrite (digits_eq (Z.div2 k)) at 2.
    replace (Z.div2 (Z.div2 k)) with (k / 4)
      by (rewrite !Z.div2_div, !Z.div_div by lia; reflexivity).
    reflexivity.
Qed.

Lemma morton_encode_x m : forall x y, 0 <= x < 2 ^ Z.of_nat m ->
  morton_x m (morton m x y) = x.
Proof.
  induction m as [|m IH]; intros x y Hx.
  - simpl in *. lia.
  - rewrite Nat2Z.inj_succ, Z.pow_succ_r in Hx by lia.
    rewrite morton_S. cbn [morton_x]. rewrite odd_digit.
    replace ((Z.b2z (Z.odd x) + 2 * (Z.b2z (Z.odd y) + 2 * morton m (Z.div2 x) (Z.div2 y))) / 4)
      with (morton m (Z.div2 x) (Z.div2 y)).
    + pose proof (digits_eq x).
      rewrite IH by (destruct (Z.odd x); simpl Z.b2z in *; lia). lia.
    + apply Z.div_unique with (r := Z.b2z (Z.odd x) + 2 * Z.b2z (Z.odd y)).
      * destruct (Z.odd x), (Z.odd y); simpl; lia.
      * lia.
Qed.

Lemma morton_encode_y m : forall x y, 0 <= y < 2 ^ Z.of_nat m ->
  morton_y m (morton m x y) = y.
Proof.
  unfold morton_y.
  induction m as [|m IH]; intros x y Hy.
  - simpl in *. lia.
  - rewrite Nat2Z.inj_succ, Z.pow_succ_r in Hy by lia.
    rewrite morton_S, div2_digit. cbn [morton_x]. rewrite odd_digit.
    replace ((Z.b2z (Z.odd y) + 2 * morton m (Z.div2 x) (Z.div2 y)) / 4)
      with (Z.div2 (morton m (Z.div2 x) (Z.div2 y))).
    + pose proof (digits_eq y).
      rewrite IH by (destruct (Z.odd y); simpl Z.b2z in *; lia). lia.
    + rewrite Z.div2_div.
      replace 4 with (2 * 2) by reflexivity.
      rewrite <- Z.div_div, Z.add_b2z_double_div2 by lia. reflexivity.
Qed.

(* carries along one axis *)
Lemma morton_inc_x m : forall x,
  Z.land (morton m x (-1) + 1) (morton m (-1) 0) = morton m (x + 1) 0.
Proof.
  induction m as [|m IH]; intros x.
  - reflexivity.
  - rewrite (digits_eq x) at 2. rewrite !morton_S.
    change (Z.odd (-1)) with true. change (Z.div2 (-1)) with (-1).
    change (Z.odd 0) with false. change (Z.div2 0) with 0.
    destruct (Z.odd x).
    + replace (Z.b2z true + 2 * (Z.b2z true + 2 * morton m (Z.div2 x) (-1)) + 1)
        with (Z.b2z false + 2 * (Z.b2z false + 2 * (morton m (Z.div2 x) (-1) + 1)))
        by (simpl Z.b2z; lia).
      rewrite !land_double_bit, IH.
      replace (Z.b2z true + 2 * Z.div2 x + 1) with (Z.b2z false + 2 * (Z.div2 x + 1))
        by (simpl Z.b2z; lia).
      rewrite odd_digit, div2_digit. reflexivity.
    + replace (Z.b2z false + 2 * (Z.b2z true + 2 * morton m (Z.div2 x) (-1)) + 1)
        with (Z.b2z true + 2 * (Z.b2z true + 2 * morton m (Z.div2 x) (-1)))
        by (simpl Z.b2z; lia).
      rewrite !land_double_bit, morton_land, Z.land_m1_r, Z.land_0_r.
      replace (Z.b2z false + 2 * Z.div2 x + 1) with (Z.b2z true + 2 * Z.div2 x)
        by (simpl Z.b2z; lia).
      rewrite odd_digit, div2_digit. reflexivity.
Qed.

Lemma morton_dec_x m : forall x,
  Z.land (morton m x 0 - 1) (morton m (-1) 0) = morton m (x - 1) 0.
Proof.
  induction m as [|m IH]; intros x.
  - reflexivity.
  - rewrite (digits_eq x) at 2. rewrite !morton_S.
    change (Z.odd (-1)) with true. change (Z.div2 (-1)) with (-1).
    change (Z.odd 0) with false. change (Z.div2 0) with 0.
    destruct (Z.odd x).
    + replace (Z.b2z true + 2 * (Z.b2z false + 2 * morton m (Z.div2 x) 0) - 1)
        with (Z.b2z false + 2 * (Z.b2z false + 2 * morton m (Z.div2 x) 0))
        by (simpl Z.b2z; lia).
      rewrite !land_double_bit, morton_land, Z.land_m1_r, Z.land_0_r.
      replace (Z.b2z true + 2 * Z.div2 x - 1) with (Z.b2z false + 2 * Z.div2 x)
        by (simpl Z.b2z; lia).
      rewrite odd_digit, div2_digit. reflexivity.
    + replace (Z.b2z false + 2 * (Z.b2z false + 2 * morton m (Z.div2 x) 0) - 1)
        with (Z.b2z true + 2 * (Z.b2z true + 2 * (morton m (Z.div2 x) 0 - 1)))
        by (simpl Z.b2z; lia).
      rewrite !land_double_bit, IH.
      replace (Z.b2z false + 2 * Z.div2 x - 1) with (Z.b2z true + 2 * (Z.div2 x - 1))
        by (simpl Z.b2z; lia).
      rewrite odd_digit, div2_digit. reflexivity.
Qed.

Lemma morton_inc_y m : forall y,
  Z.land (morton m (-1) y + 1) (morton m 0 (-1)) = morton m 0 (y + 1).
Proof.
  induction m as [|m IH]; intros y.
  - reflexivity.
  - rewrite (digits_eq y) at 2. rewrite !morton_S.
    change (Z.odd (-1)) with true. change (Z.div2 (-1)) with (-1).
    change (Z.odd 0) with false. change (Z.div2 0) with 0.
    destruct (Z.odd y).
    + replace (Z.b2z true + 2 * (Z.b2z true + 2 * morton m (-1) (Z.div2 y)) + 1)
        with (Z.b2z false + 2 * (Z.b2z false + 2 * (morton m (-1) (Z.div2 y) + 1)))
        by (simpl Z.b2z; lia).
      rewrite !land_double_bit, IH.
      replace (Z.b2z true + 2 * Z.div2 y + 1) with (Z.b2z false + 2 * (Z.div2 y + 1))
        by (simpl Z.b2z; lia).
      rewrite odd_digit, div2_digit. reflexivity.
    + replace (Z.b2z true + 2 * (Z.b2z false + 2 * morton m (-1) (Z.div2 y)) + 1)
        with (Z.b2z false + 2 * (Z.b2z true + 2 * morton m (-1) (Z.div2 y)))
        by (simpl Z.b2z; lia).
      rewrite !land_double_bit, morton_land, Z.land_m1_r, Z.land_0_r.
      replace (Z.b2z false + 2 * Z.div2 y + 1) with (Z.b2z true + 2 * Z.div2 y)
        by (simpl Z.b2z; lia).
      rewrite odd_digit, div2_digit. reflexivity.
Qed.

Lemma morton_dec_y m : forall y,
  Z.land (morton m 0 y - 1) (morton m 0 (-1)) = morton m 0 (y - 1).
Proof.
  induction m as [|m IH]; intros y.
  - reflexivity.
  - rewrite (digits_eq y) at 2. rewrite !morton_S.
    change (Z.odd (-1)) with true. change (Z.div2 (-1)) with (-1).
    change (Z.odd 0) with false. change (Z.div2 0) with 0.
    destruct (Z.odd y).
    + replace (Z.b2z false + 2 * (Z.b2z true + 2 * morton m 0 (Z.div2 y)) - 1)
        with (Z.b2z true + 2 * (Z.b2z false + 2 * morton m 0 (Z.div2 y)))
        by (simpl Z.b2z; lia).
      rewrite !land_double_bit, morton_land, Z.land_m1_r, Z.land_0_r.
      replace (Z.b2z true + 2 * Z.div2 y - 1) with (Z.b2z false + 2 * Z.div2 y)
        by (simpl Z.b2z; lia).
      rewrite odd_digit, div2_digit. reflexivity.
    + replace (Z.b2z false + 2 * (Z.b2z false + 2 * morton m 0 (Z.div2 y)) - 1)
        with (Z.b2z true + 2 * (Z.b2z true + 2 * (morton m 0 (Z.div2 y) - 1)))
        by (simpl Z.b2z; lia).
      rewrite !land_double_bit, IH.
      replace (Z.b2z false + 2 * Z.div2 y - 1) with (Z.b2z true + 2 * (Z.div2 y - 1))
        by (simpl Z.b2z; lia).
      rewrite odd_digit, div2_digit. reflexivity.
Qed.

(* ---------- the delta-swap network ---------- *)

Lemma delta_swap_testbit a m s i :
  swap_ok m s i = true ->
  Z.testbit (delta_swap a m s) i = Z.testbit a (swap_src m s i).
Proof.
  unfold swap_ok, swap_src, delta_swap. intros Hok.
  assert (Hs : 0 <= s) by lia. assert (Hi : 0 <= i < 32) by lia.
  unfold u32 at 1. rewrite Z.mod_pow2_bits_low by lia.
  rewrite !Z.lxor_spec, Z.shiftr_spec, !Z.land_spec, !Z.lxor_spec by lia.
  destruct (Z.testbit m i) eqn:Emi.
  - assert (Emj : Z.testbit m (i + s) = false) by (destruct (Z.testbit m (i + s)); [lia|reflexivity]).
    rewrite Emj, !andb_false_r, xorb_false_r, andb_true_r.
    unfold u32. rewrite Z.mod_pow2_bits_low, Z.shiftl_spec by lia.
    destruct (Z.testbit a i), (Z.testbit a (i - s)); reflexivity.
  - rewrite andb_false_r, xorb_false_l.
    destruct (Z.testbit m (i + s)) eqn:Emj.
    + unfold u32. rewrite Z.mod_pow2_bits_low, Z.shiftl_spec by lia.
      replace (i + s - s) with i by lia.
      destruct (Z.testbit a i), (Z.testbit a (i + s)); reflexivity.
    + rewrite andb_false_r, xorb_false_r. reflexivity.
Qed.

Lemma network_table (j : Z) : 0 <= j < 16 ->
  network_ok (2 * j) = true /\ network_src (2 * j) = j /\
  network_ok (2 * j + 1) = true /\ network_src (2 * j + 1) = 16 + j.
Proof.
  intros Hj.
  assert (H : forallb (fun j => network_ok (2 * j) && (network_src (2 * j) =? j) &&
                        network_ok (2 * j + 1) && (network_src (2 * j + 1) =? 16 + j))
                (map Z.of_nat (seq 0 16)) = true) by (vm_compute; reflexivity).
  rewrite forallb_forall in H.
  specialize (H j). 
  assert (Hin : In j (map Z.of_nat (seq 0 16))).
  { apply in_map_iff. exists (Z.to_nat j). split; [lia|]. apply in_seq. lia. }
  specialize (H Hin). lia.
Qed.

Lemma interleaveXY_testbit x y i : network_ok i = true ->
  Z.testbit (interleaveXY x y) i =
  Z.testbit (u32 (Z.lor (Z.shiftl (u16 y) 16) (u16 x))) (network_src i).
Proof.
  unfold network_ok, network_src, interleaveXY. intros H.
  apply andb_true_iff in H as [H H1]. apply andb_true_iff in H as [H H2].
  apply andb_true_iff in H as [H4 H3].
  rewrite (delta_swap_testbit _ _ _ _ H4), (delta_swap_testbit _ _ _ _ H3),
    (delta_swap_testbit _ _ _ _ H2), (delta_swap_testbit _ _ _ _ H1).
  reflexivity.
Qed.

Lemma interleaveXY_range x y : 0 <= interleaveXY x y < 2 ^ 32.
Proof. unfold interleaveXY, delta_swap at 1, u32 at 1. apply Z.mod_pos_bound. lia. Qed.

Theorem interleaveXY_morton x y : interleaveXY x y = morton 16 x y.
Proof.
  apply Z.bits_inj'. intros i Hi.
  destruct (index_parity i Hi) as (j & Hj & Hij).
  destruct (Z.lt_ge_cases j 16) as [Hlt | Hge].
  - destruct (network_table j (conj Hj Hlt)) as (Ok0 & Src0 & Ok1 & Src1).
    destruct Hij as [-> | ->].
    + rewrite interleaveXY_testbit, Src0, morton_testbit_even by assumption.
      unfold u32, u16. rewrite Z.mod_pow2_bits_low, Z.lor_spec, Z.shiftl_spec_low by lia.
      rewrite Z.mod_pow2_bits_low by lia.
      destruct (j <? Z.of_nat 16) eqn:E; [reflexivity | lia].
    + rewrite interleaveXY_testbit, Src1, morton_testbit_odd by assumption.
      unfold u32, u16. rewrite Z.mod_pow2_bits_low, Z.lor_spec, Z.shiftl_spec by lia.
      replace (16 + j - 16) with j by lia.
      rewrite (Z.mod_pow2_bits_high x) by lia. rewrite Z.mod_pow2_bits_low by lia.
      destruct (j <? Z.of_nat 16) eqn:E; [apply orb_false_r | lia].
  - pose proof (interleaveXY_range x y) as Hr.
    rewrite <- (Z.mod_small _ _ Hr), Z.mod_pow2_bits_high by lia.
    destruct Hij as [-> | ->]; rewrite ?morton_testbit_even, ?morton_testbit_odd by lia;
      destruct (j <? Z.of_nat 16) eqn:E; (reflexivity || lia).
Qed.

(** ** The codec in terms of coordinates *)

Lemma MASK_X_morton : GameField.MASK_X = morton 16 (-1) 0.
Proof. reflexivity. Qed.

Lemma MASK_Y_morton : GameField.MASK_Y = morton 16 0 (-1).
Proof. reflexivity. Qed.

Lemma morton16_range x y : 0 <= morton 16 x y < 2 ^ 32.
Proof. pose proof (morton_range 16 x y) as H. change (4 ^ Z.of_nat 16) with (2 ^ 32) in H. exact H. Qed.

Lemma u32_morton x y : u32 (morton 16 x y) = morton 16 x y.
Proof. apply Z.mod_small, morton16_range. Qed.

Lemma land_u64 z m : 0 <= m < 2 ^ 64 -> Z.land (u64 z) m = Z.land z m.
Proof.
  intros Hm. unfold u64. rewrite <- Z.land_ones by lia.
  rewrite <- Z.land_assoc. f_equal.
  rewrite Z.land_comm, Z.land_ones by lia. apply Z.mod_small. exact Hm.
Qed.

Lemma morton_double m : forall y, morton m 0 y = 2 * morton m y 0.
Proof.
  induction m as [|m IH]; intros y; [reflexivity|].
  rewrite !morton_S, IH. change (Z.odd 0) with false. change (Z.div2 0) with 0.
  simpl Z.b2z. lia.
Qed.

Lemma morton_join m x y : Z.lor (morton m 0 y) (morton m x 0) = morton m x y.
Proof. rewrite morton_lor, Z.lor_0_l, Z.lor_0_r. reflexivity. Qed.

Lemma morton_join' m x y : Z.lor (morton m x 0) (morton m 0 y) = morton m x y.
Proof. rewrite Z.lor_comm. apply morton_join. Qed.

(** The new cursor and its two halves after each of the four moves. *)

Lemma step_keep_x x y :
  u32 (Z.land (interleaveXY x y) GameField.MASK_X) = morton 16 x 0.
Proof.
  rewrite interleaveXY_morton, MASK_X_morton, morton_land, Z.land_m1_r, Z.land_0_r.
  apply u32_morton.
Qed.

Lemma step_keep_y x y :
  u32 (Z.land (interleaveXY x y) GameField.MASK_Y) = morton 16 0 y.
Proof.
  rewrite interleaveXY_morton, MASK_Y_morton, morton_land, Z.land_m1_r, Z.land_0_r.
  apply u32_morton.
Qed.

Lemma step_right_x x y :
  u32 (Z.land (u64 (Z.lor (interleaveXY x y) GameField.MASK_Y + 1)) GameField.MASK_X)
  = morton 16 (x + 1) 0.
Proof.
  rewrite land_u64 by (unfold GameField.MASK_X; lia).
  rewrite interleaveXY_morton, MASK_Y_morton, morton_lor, Z.lor_0_r, Z.lor_m1_r.
  rewrite MASK_X_morton, morton_inc_x. apply u32_morton.
Qed.

Lemma step_left_x x y :
  u32 (Z.land (u64 (Z.land (interleaveXY x y) GameField.MASK_X - 1)) GameField.MASK_X)
  = morton 16 (x - 1) 0.
Proof.
  rewrite land_u64 by (unfold GameField.MASK_X; lia).
  rewrite interleaveXY_morton, MASK_X_morton, morton_land, Z.land_m1_r, Z.land_0_r.
  rewrite morton_dec_x. apply u32_morton.
Qed.

Lemma step_down_y x y :
  u32 (Z.land (u64 (Z.lor (interleaveXY x y) GameField.MASK_X + 1)) GameField.MASK_Y)
  = morton 16 0 (y + 1).
Proof.
  rewrite land_u64 by (unfold GameField.MASK_Y; lia).
  rewrite interleaveXY_morton, MASK_X_morton, morton_lor, Z.lor_0_r, Z.lor_m1_r.
  rewrite MASK_Y_morton, morton_inc_y. apply u32_morton.
Qed.

Lemma step_up_y x y :
  u32 (Z.land (u64 (Z.land (interleaveXY x y) GameField.MASK_Y - 1)) GameField.MASK_Y)
  = morton 16 0 (y - 1).
Proof.
  rewrite land_u64 by (unfold GameField.MASK_Y; lia).
  rewrite interleaveXY_morton, MASK_Y_morton, morton_land, Z.land_m1_r, Z.land_0_r.
  rewrite morton_dec_y. apply u32_morton.
Qed.

(** The bounds test of a move against the thresholds [size_x = 4^n] and
    [size_y = 2 * 4^n]. *)

Lemma pow4_nat n : 0 <= n -> 4 ^ n = 4 ^ Z.of_nat (Z.to_nat n).
Proof. intros. rewrite Z2Nat.id by lia. reflexivity. Qed.

Lemma morton_x_lt x n : 0 <= n <= 12 ->
  morton 16 x 0 < 4 ^ n <-> u16 x < 2 ^ n.
Proof.
  intros Hn.
  rewrite <- (morton_mod 16 x 0). change (0 mod 2 ^ Z.of_nat 16) with 0.
  change (x mod 2 ^ Z.of_nat 16) with (u16 x).
  replace n with (Z.of_nat (Z.to_nat n)) by lia.
  rewrite morton_lt; [| lia | apply Z.mod_pos_bound; lia | lia].
  assert (0 < 2 ^ Z.of_nat (Z.to_nat n)) by (apply Z.pow_pos_nonneg; lia). lia.
Qed.

Lemma morton_y_lt y n : 0 <= n <= 12 ->
  morton 16 0 y < 2 * 4 ^ n <-> u16 y < 2 ^ n.
Proof.
  intros Hn. rewrite morton_double. rewrite <- (morton_x_lt y n Hn). lia.
Qed.

Lemma morton_in_range x y n : 0 <= n <= 12 ->
  u16 x < 2 ^ n -> u16 y < 2 ^ n -> 0 <= interleaveXY x y < 4 ^ n.
Proof.
  intros Hn Hx Hy. rewrite interleaveXY_morton.
  split; [apply morton_range|].
  rewrite <- (morton_mod 16 x y).
  change (x mod 2 ^ Z.of_nat 16) with (u16 x). change (y mod 2 ^ Z.of_nat 16) with (u16 y).
  replace n with (Z.of_nat (Z.to_nat n)) by lia.
  apply morton_lt; [lia | apply Z.mod_pos_bound; lia | apply Z.mod_pos_bound; lia |].
  rewrite Z2Nat.id by lia. lia.
Qed.

Lemma key_decode k : 0 <= k < 2 ^ 32 ->
  interleaveXY (morton_x 16 k) (morton_y 16 k) = k.
Proof. intros Hk. rewrite interleaveXY_morton. apply morton_decode. exact Hk. Qed.

Lemma key_coords_range k n : 0 <= n <= 12 -> 0 <= k < 4 ^ n ->
  0 <= morton_x 16 k < 2 ^ n /\ 0 <= morton_y 16 k < 2 ^ n.
Proof.
  intros Hn Hk.
  assert (H32 : 4 ^ n <= 2 ^ 32).
  { change (2 ^ 32) with (4 ^ 16). apply Z.pow_le_mono_r; lia. }
  pose proof (morton_x_range 16 k) as Hx. pose proof (morton_y_range 16 k) as Hy.
  pose proof (morton_decode 16 k ltac:(change (4 ^ Z.of_nat 16) with (2 ^ 32); lia)) as Hd.
  assert (Hlt : morton 16 (morton_x 16 k) (morton_y 16 k) < 4 ^ Z.of_nat (Z.to_nat n)).
  { rewrite Hd, Z2Nat.id by lia. lia. }
  apply morton_lt in Hlt; [| lia | exact Hx | exact Hy].
  rewrite Z2Nat.id in Hlt by lia. lia.
Qed.

Lemma key_inj x y x' y' :
  0 <= x < 2 ^ 16 -> 0 <= y < 2 ^ 16 -> 0 <= x' < 2 ^ 16 -> 0 <= y' < 2 ^ 16 ->
  interleaveXY x y = interleaveXY x' y' -> x = x' /\ y = y'.
Proof.
  intros Hx Hy Hx' Hy' E. rewrite !interleaveXY_morton in E.
  split.
  - rewrite <- (morton_encode_x 16 x y), <- (morton_encode_x 16 x' y'), E by exact Hx || exact Hx'.
    reflexivity.
  - rewrite <- (morton_encode_y 16 x y), <- (morton_encode_y 16 x' y'), E by exact Hy || exact Hy'.
    reflexivity.
Qed.

Lemma interleaveXY_u16 x y : interleaveXY (u16 x) (u16 y) = interleaveXY x y.
Proof. rewrite !interleaveXY_morton. apply morton_mod. Qed.

(** ** Running the moves *)

Lemma bind_Some {St A B} (m : M St A) (k : A -> M St B) s a s' :
  m s = Some (a, s') -> bind m k s = k a s'.
Proof. unfold bind. intros ->. reflexivity. Qed.

Lemma wf_with_idx f k : wf f -> 0 <= k < 2 ^ 32 -> wf (with_idx k f).
Proof. intros [] Hk. constructor; assumption. Qed.

Lemma wf_with_cells f cs : wf f -> length cs = length (GameField.cells f) -> wf (with_cells cs f).
Proof. intros [] Hl. constructor; try assumption. simpl. rewrite Hl. assumption. Qed.

Lemma on_grid_range f x y : wf f -> on_grid f x y = true ->
  0 <= interleaveXY x y < Z.of_nat (length (GameField.cells f)).
Proof.
  intros Hwf Hon. unfold on_grid in Hon.
  rewrite (wf_cells _ Hwf). rewrite (wf_size _ Hwf) in Hon.
  apply morton_in_range; [apply Hwf | lia | lia].
Qed.

Lemma lookup_cell f k : 0 <= k < Z.of_nat (length (GameField.cells f)) ->
  GameField.cells f !! Z.to_nat k = Some (cell f k).
Proof.
  intros Hk. unfold cell.
  destruct (lookup_lt_is_Some_2 (GameField.cells f) (Z.to_nat k)) as [c Hc]; [lia|].
  rewrite Hc. reflexivity.
Qed.

Lemma read_cell_run s k : 0 <= k < Z.of_nat (length (GameField.cells (GameField.field s))) ->
  GameField.read_cell k s = Some (cell (GameField.field s) k, logged [EvRead k] s).
Proof.
  intros Hk. unfold GameField.read_cell.
  destruct (0 <=? k) eqn:E; [|lia].
  rewrite lookup_cell by exact Hk. reflexivity.
Qed.

Lemma write_cell_run s k v : 0 <= k < Z.of_nat (length (GameField.cells (GameField.field s))) ->
  GameField.write_cell k v s =
  Some (tt, GameField.Machine (with_cells (<[Z.to_nat k := v]> (GameField.cells (GameField.field s)))
                                          (GameField.field s))
                              (GameField.trace s ++ [EvWrite k v])).
Proof.
  intros Hk. unfold GameField.write_cell.
  destruct ((0 <=? k) && (k <? Z.of_nat (length (GameField.cells (GameField.field s))))) eqn:E; [|lia].
  reflexivity.
Qed.

(** The tail of a move, once the cursor has been set to [(x, y)]. *)
Lemma probe_run s x y mask :
  wf (GameField.field s) ->
  GameField.idx (GameField.field s) = interleaveXY x y ->
  GameField.probe (morton 16 x 0) (morton 16 0 y) mask s =
  Some (probe_val (GameField.field s) x y mask, logged (probe_ev (GameField.field s) x y) s).
Proof.
  intros Hwf Hidx. unfold GameField.probe, probe_val, probe_ev, logged.
  unfold bind, GameField.gets, ret.
  rewrite (wf_size_x _ Hwf), (wf_size_y _ Hwf).
  pose proof (morton_x_lt x _ (wf_n _ Hwf)) as Hx.
  pose proof (morton_y_lt y _ (wf_n _ Hwf)) as Hy.
  destruct (on_grid (GameField.field s) x y) eqn:Hon.
  - pose proof (on_grid_range _ _ _ Hwf Hon) as Hr.
    unfold on_grid in Hon. rewrite (wf_size _ Hwf) in Hon.
    destruct ((morton 16 x 0 >=? 4 ^ GameField.n (GameField.field s))
              || (morton 16 0 y >=? 2 * 4 ^ GameField.n (GameField.field s))) eqn:E; [lia|].
    rewrite Hidx, read_cell_run by exact Hr. reflexivity.
  - unfold on_grid in Hon. rewrite (wf_size _ Hwf) in Hon.
    destruct ((morton 16 x 0 >=? 4 ^ GameField.n (GameField.field s))
              || (morton 16 0 y >=? 2 * 4 ^ GameField.n (GameField.field s))) eqn:E; [|lia].
    rewrite app_nil_r. destruct s; reflexivity.
Qed.

Lemma probe_moved s x y mask k :
  wf (GameField.field s) -> k = interleaveXY x y ->
  GameField.probe (morton 16 x 0) (morton 16 0 y) mask
    (GameField.Machine (with_idx k (GameField.field s)) (GameField.trace s)) =
  Some (probe_val (GameField.field s) x y mask, moved x y s).
Proof.
  intros Hwf ->.
  rewrite probe_run; [reflexivity | | reflexivity].
  apply wf_with_idx; [exact Hwf | apply interleaveXY_range].
Qed.

Lemma right_run s x y mask :
  wf (GameField.field s) -> GameField.idx (GameField.field s) = interleaveXY x y ->
  GameField.right mask s = Some (probe_val (GameField.field s) (x + 1) y mask, moved (x + 1) y s).
Proof.
  intros Hwf Hidx. unfold GameField.right, bind at 1, GameField.gets at 1. cbn [GameField.field].
  rewrite Hidx, step_keep_y, step_right_x.
  unfold bind at 1, GameField.set_idx at 1.
  apply (probe_moved s (x + 1) y mask _ Hwf).
  rewrite morton_join. symmetry. apply interleaveXY_morton.
Qed.

Lemma left_run s x y mask :
  wf (GameField.field s) -> GameField.idx (GameField.field s) = interleaveXY x y ->
  GameField.left mask s = Some (probe_val (GameField.field s) (x - 1) y mask, moved (x - 1) y s).
Proof.
  intros Hwf Hidx. unfold GameField.left, bind at 1, GameField.gets at 1. cbn [GameField.field].
  rewrite Hidx, step_keep_y, step_left_x.
  unfold bind at 1, GameField.set_idx at 1.
  apply (probe_moved s (x - 1) y mask _ Hwf).
  rewrite morton_join. symmetry. apply interleaveXY_morton.
Qed.

Lemma up_run s x y mask :
  wf (GameField.field s) -> GameField.idx (GameField.field s) = interleaveXY x y ->
  GameField.up mask s = Some (probe_val (GameField.field s) x (y - 1) mask, moved x (y - 1) s).
Proof.
  intros Hwf Hidx. unfold GameField.up, bind at 1, GameField.gets at 1. cbn [GameField.field].
  rewrite Hidx, step_keep_x, step_up_y.
  unfold bind at 1, GameField.set_idx at 1.
  apply (probe_moved s x (y - 1) mask _ Hwf).
  rewrite morton_join'. symmetry. apply interleaveXY_morton.
Qed.

Lemma down_run s x y mask :
  wf (GameField.field s) -> GameField.idx (GameField.field s) = interleaveXY x y ->
  GameField.down mask s = Some (probe_val (GameField.field s) x (y + 1) mask, moved x (y + 1) s).
Proof.
  intros Hwf Hidx. unfold GameField.down, bind at 1, GameField.gets at 1. cbn [GameField.field].
  rewrite Hidx, step_keep_x, step_down_y.
  unfold bind at 1, GameField.set_idx at 1.
  apply (probe_moved s x (y + 1) mask _ Hwf).
  rewrite morton_join'. symmetry. apply interleaveXY_morton.
Qed.

Lemma wf_moved s x y : wf (GameField.field s) -> wf (GameField.field (moved x y s)).
Proof. intros H. apply wf_with_idx; [exact H | apply interleaveXY_range]. Qed.

Lemma probe_val_moved s a b x y mask :
  probe_val (GameField.field (moved a b s)) x y mask = probe_val (GameField.field s) x y mask.
Proof. reflexivity. Qed.

Lemma probe_ev_moved s a b x y :
  probe_ev (GameField.field (moved a b s)) x y = probe_ev (GameField.field s) x y.
Proof. reflexivity. Qed.

Lemma land_1_range c : 0 <= Z.land c 1 <= 1.
Proof.
  replace (Z.land c 1) with (c mod 2).
  - pose proof (Z.mod_pos_bound c 2). lia.
  - symmetry. apply (Z.land_ones c 1). lia.
Qed.

Lemma low_bit_range f x y : 0 <= low_bit f x y <= 1.
Proof. unfold low_bit. destruct (on_grid f x y); [apply land_1_range | lia]. Qed.

Lemma probe_val_Alive f x y : probe_val f x y Alive = low_bit f x y.
Proof.
  unfold probe_val, low_bit, Alive. destruct (on_grid f x y); [|reflexivity].
  apply Z.mod_small. pose proof (land_1_range (cell f (interleaveXY x y))). lia.
Qed.

Lemma with_idx_same f : with_idx (GameField.idx f) f = f.
Proof. destruct f; reflexivity. Qed.

Lemma idx_moved s x y : GameField.idx (GameField.field (moved x y s)) = interleaveXY x y.
Proof. reflexivity. Qed.

Lemma probe_val_with_idx f k x y mask :
  probe_val (with_idx k f) x y mask = probe_val f x y mask.
Proof. reflexivity. Qed.

Lemma probe_ev_with_idx f k x y : probe_ev (with_idx k f) x y = probe_ev f x y.
Proof. reflexivity. Qed.

Lemma with_idx_with_idx f k k' : with_idx k' (with_idx k f) = with_idx k' f.
Proof. reflexivity. Qed.

Theorem countAliveNeighbors_run s x y :
  wf (GameField.field s) -> GameField.idx (GameField.field s) = interleaveXY x y ->
  GameField.countAliveNeighbors s =
  Some (walk_sum (GameField.field s) x y, logged (walk_ev (GameField.field s) x y) s).
Proof.
  intros Hwf Hidx. unfold GameField.countAliveNeighbors.
  rewrite (bind_Some _ _ s (GameField.idx (GameField.field s)) s eq_refl).
  rewrite (bind_Some _ _ _ _ _ (up_run s x y Alive Hwf Hidx)).
  pose proof (wf_moved s x (y - 1) Hwf) as Hwf1.
  rewrite (bind_Some _ _ _ _ _ (left_run _ x (y - 1) Alive Hwf1 (idx_moved _ _ _))).
  pose proof (wf_moved _ (x - 1) (y - 1) Hwf1) as Hwf2.
  rewrite (bind_Some _ _ _ _ _ (down_run _ (x - 1) (y - 1) Alive Hwf2 (idx_moved _ _ _))).
  pose proof (wf_moved _ (x - 1) (y - 1 + 1) Hwf2) as Hwf3.
  rewrite (bind_Some _ _ _ _ _ (down_run _ (x - 1) (y - 1 + 1) Alive Hwf3 (idx_moved _ _ _))).
  pose proof (wf_moved _ (x - 1) (y - 1 + 1 + 1) Hwf3) as Hwf4.
  rewrite (bind_Some _ _ _ _ _ (right_run _ (x - 1) (y - 1 + 1 + 1) Alive Hwf4 (idx_moved _ _ _))).
  pose proof (wf_moved _ (x - 1 + 1) (y - 1 + 1 + 1) Hwf4) as Hwf5.
  rewrite (bind_Some _ _ _ _ _ (right_run _ (x - 1 + 1) (y - 1 + 1 + 1) Alive Hwf5 (idx_moved _ _ _))).
  pose proof (wf_moved _ (x - 1 + 1 + 1) (y - 1 + 1 + 1) Hwf5) as Hwf6.
  rewrite (bind_Some _ _ _ _ _ (up_run _ (x - 1 + 1 + 1) (y - 1 + 1 + 1) Alive Hwf6 (idx_moved _ _ _))).
  pose proof (wf_moved _ (x - 1 + 1 + 1) (y - 1 + 1 + 1 - 1) Hwf6) as Hwf7.
  rewrite (bind_Some _ _ _ _ _ (up_run _ (x - 1 + 1 + 1) (y - 1 + 1 + 1 - 1) Alive Hwf7 (idx_moved _ _ _))).
  clear Hwf1 Hwf2 Hwf3 Hwf4 Hwf5 Hwf6 Hwf7.
  unfold bind, GameField.set_idx, ret, moved.
  cbn [GameField.field GameField.trace].
  rewrite ?probe_val_with_idx, ?probe_ev_with_idx, ?with_idx_with_idx.
  rewrite !probe_val_Alive.
  replace (y - 1 + 1) with y by lia. replace (x - 1 + 1) with x by lia.
  replace (y + 1 - 1) with y by lia.
  f_equal. f_equal.
  - unfold walk_sum, walk. cbn [fold_right fst snd].
    pose proof (low_bit_range (GameField.field s) x (y - 1)).
    pose proof (low_bit_range (GameField.field s) (x - 1) (y - 1)).
    pose proof (low_bit_range (GameField.field s) (x - 1) y).
    pose proof (low_bit_range (GameField.field s) (x - 1) (y + 1)).
    pose proof (low_bit_range (GameField.field s) x (y + 1)).
    pose proof (low_bit_range (GameField.field s) (x + 1) (y + 1)).
    pose proof (low_bit_range (GameField.field s) (x + 1) y).
    pose proof (low_bit_range (GameField.field s) (x + 1) (y - 1)).
    unfold u8. change (2 ^ 8) with 256. Z.div_mod_to_equations. lia.
  - unfold logged, walk_ev, walk. cbn [flat_map fst snd].
    rewrite app_nil_r, <- !app_assoc.
    unfold with_idx.
    cbn [GameField.n GameField.size_x GameField.size_y GameField.cells GameField.size GameField.idx].
    destruct s as [[] ?]. reflexivity.
Qed.

(** ** Running [updateCell] *)

Lemma with_cells_same f : with_cells (GameField.cells f) f = f.
Proof. destruct f; reflexivity. Qed.

Lemma insert_cell_same f k : 0 <= k ->
  <[Z.to_nat k := cell f k]> (GameField.cells f) = GameField.cells f.
Proof.
  intros Hk. unfold cell.
  destruct (GameField.cells f !! Z.to_nat k) as [c|] eqn:E.
  - apply list_insert_id. exact E.
  - apply list_insert_ge. apply lookup_ge_None. exact E.
Qed.

Theorem updateCell_run s x y :
  wf (GameField.field s) -> on_grid (GameField.field s) x y = true ->
  GameField.idx (GameField.field s) = interleaveXY x y ->
  GameField.updateCell s = Some (tt, updated x y s).
Proof.
  intros Hwf Hon Hidx.
  pose proof (on_grid_range _ _ _ Hwf Hon) as Hr.
  unfold GameField.updateCell.
  rewrite (bind_Some _ _ s (GameField.idx (GameField.field s)) s eq_refl).
  rewrite (bind_Some _ _ s tt (logged [EvUpdateCell (GameField.idx (GameField.field s))] s) eq_refl).
  rewrite (bind_Some _ _ _ _ _
             (countAliveNeighbors_run (logged [EvUpdateCell (GameField.idx (GameField.field s))] s)
                x y Hwf Hidx)).
  cbn [logged GameField.field GameField.trace].
  match goal with |- bind _ _ ?s1 = _ =>
    rewrite (bind_Some _ _ s1 (GameField.idx (GameField.field s)) s1 eq_refl) end.
  rewrite Hidx.
  match goal with |- bind _ _ ?s1 = _ =>
    rewrite (bind_Some _ _ _ _ _ (read_cell_run s1 (interleaveXY x y) Hr)) end.
  cbn [logged GameField.field GameField.trace].
  unfold updated, rule, rule_ev.
  set (c := cell (GameField.field s) (interleaveXY x y)).
  set (a := walk_sum (GameField.field s) x y).
  destruct ((c =? Alive) && ((a <? 2) || (a >? 3))) eqn:E1.
  - rewrite write_cell_run by exact Hr.
    unfold logged. cbn [GameField.field GameField.trace]. rewrite <- !app_assoc. reflexivity.
  - match goal with |- bind _ _ ?s1 = _ =>
      rewrite (bind_Some _ _ _ _ _ (read_cell_run s1 (interleaveXY x y) Hr)) end.
    cbn [logged GameField.field GameField.trace]. fold c.
    destruct (c =? Dead) eqn:E2.
    + rewrite write_cell_run by exact Hr.
      unfold logged. cbn [GameField.field GameField.trace]. rewrite <- !app_assoc. reflexivity.
    + unfold ret, logged. cbn [GameField.field GameField.trace]. rewrite <- !app_assoc.
      unfold c. rewrite insert_cell_same by lia. rewrite with_cells_same. reflexivity.
Qed.

(** ** Running the passes of [simulationTick] *)

Lemma same_shape_refl f : same_shape f f.
Proof. repeat split. Qed.

Lemma same_shape_trans f g h : same_shape f g -> same_shape g h -> same_shape f h.
Proof. unfold same_shape. intros (?&?&?&?&?) (?&?&?&?&?). repeat split; congruence. Qed.

Lemma wf_same_shape f f' : wf f -> same_shape f f' -> 0 <= GameField.idx f' < 2 ^ 32 -> wf f'.
Proof.
  intros [] (Hn & Hs & Hx & Hy & Hl) Hi.
  constructor; rewrite ?Hn, ?Hs, ?Hx, ?Hy, ?Hl; assumption.
Qed.

Lemma shape_moved a b s : same_shape (GameField.field s) (GameField.field (moved a b s)).
Proof. repeat split. Qed.

Lemma shape_updated a b s : same_shape (GameField.field s) (GameField.field (updated a b s)).
Proof. repeat split. cbn. apply length_insert. Qed.

Lemma shape_wrote k v s : same_shape (GameField.field s) (GameField.field (wrote k v s)).
Proof. repeat split. cbn. apply length_insert. Qed.

Lemma idx_updated a b s :
  GameField.idx (GameField.field (updated a b s)) = GameField.idx (GameField.field s).
Proof. reflexivity. Qed.

Lemma wf_updated a b s : wf (GameField.field s) -> wf (GameField.field (updated a b s)).
Proof.
  intros H. apply (wf_same_shape _ _ H (shape_updated a b s)).
  rewrite idx_updated. apply H.
Qed.

Lemma wf_wrote k v s : wf (GameField.field s) -> wf (GameField.field (wrote k v s)).
Proof. intros H. apply (wf_same_shape _ _ H (shape_wrote k v s)). apply H. Qed.

Lemma u8_small z : 0 <= z < 256 -> u8 z = z.
Proof. intros. apply Z.mod_small. change (2 ^ 8) with 256. lia. Qed.

Lemma probe_off_grid f a b : on_grid f a b = false -> probe_val f a b Game.mask = DeadVisited.
Proof. unfold probe_val. intros ->. reflexivity. Qed.

Lemma probe_Dead_on_grid f a b : probe_val f a b Game.mask = Dead -> on_grid f a b = true.
Proof.
  destruct (on_grid f a b) eqn:E; [reflexivity|].
  rewrite probe_off_grid by exact E. discriminate.
Qed.

Lemma shape_visit_post a b s :
  same_shape (GameField.field s) (GameField.field (visit_post a b s)).
Proof.
  unfold visit_post. destruct (_ =? _).
  - apply (same_shape_trans _ _ _ (shape_moved a b s)), shape_updated.
  - apply shape_moved.
Qed.

Lemma idx_visit_post a b s :
  GameField.idx (GameField.field (visit_post a b s)) = interleaveXY a b.
Proof. unfold visit_post. destruct (_ =? _); reflexivity. Qed.

Lemma wf_visit_post a b s : wf (GameField.field s) -> wf (GameField.field (visit_post a b s)).
Proof.
  intros H. apply (wf_same_shape _ _ H (shape_visit_post a b s)).
  rewrite idx_visit_post. apply interleaveXY_range.
Qed.

Lemma visit_run (move : Z -> M GameField.machine Z) a b s :
  wf (GameField.field s) ->
  move Game.mask s = Some (probe_val (GameField.field s) a b Game.mask, moved a b s) ->
  Game.visit move s = Some (tt, visit_post a b s).
Proof.
  intros Hwf Hmove. unfold Game.visit, visit_post.
  rewrite (bind_Some _ _ _ _ _ Hmove).
  destruct (probe_val (GameField.field s) a b Game.mask =? Dead) eqn:E; [|reflexivity].
  apply updateCell_run.
  - apply wf_moved, Hwf.
  - apply probe_Dead_on_grid. apply Z.eqb_eq in E. exact E.
  - apply idx_moved.
Qed.

Lemma visit_up_run s x y :
  wf (GameField.field s) -> GameField.idx (GameField.field s) = interleaveXY x y ->
  Game.visit GameField.up s = Some (tt, visit_post x (y - 1) s).
Proof. intros Hwf Hi. apply visit_run, up_run; assumption. Qed.

Lemma visit_down_run s x y :
  wf (GameField.field s) -> GameField.idx (GameField.field s) = interleaveXY x y ->
  Game.visit GameField.down s = Some (tt, visit_post x (y + 1) s).
Proof. intros Hwf Hi. apply visit_run, down_run; assumption. Qed.

Lemma visit_left_run s x y :
  wf (GameField.field s) -> GameField.idx (GameField.field s) = interleaveXY x y ->
  Game.visit GameField.left s = Some (tt, visit_post (x - 1) y s).
Proof. intros Hwf Hi. apply visit_run, left_run; assumption. Qed.

Lemma visit_right_run s x y :
  wf (GameField.field s) -> GameField.idx (GameField.field s) = interleaveXY x y ->
  Game.visit GameField.right s = Some (tt, visit_post (x + 1) y s).
Proof. intros Hwf Hi. apply visit_run, right_run; assumption. Qed.

Lemma index_on_grid f k : wf f -> 0 <= k < Z.of_nat (length (GameField.cells f)) ->
  on_grid f (morton_x 16 k) (morton_y 16 k) = true /\
  interleaveXY (morton_x 16 k) (morton_y 16 k) = k /\
  0 <= morton_x 16 k < GameField.size f /\ 0 <= morton_y 16 k < GameField.size f.
Proof.
  intros Hwf Hk. rewrite (wf_cells _ Hwf) in Hk.
  pose proof (key_coords_range k _ (wf_n _ Hwf) Hk) as [Hx Hy].
  assert (H32 : 4 ^ GameField.n f <= 2 ^ 32).
  { change (2 ^ 32) with (4 ^ 16). apply Z.pow_le_mono_r; destruct Hwf; lia. }
  assert (H16 : 2 ^ GameField.n f <= 2 ^ 16).
  { apply Z.pow_le_mono_r; destruct Hwf; lia. }
  split; [|split; [apply key_decode; lia | rewrite (wf_size _ Hwf); lia]].
  unfold on_grid, u16. rewrite (wf_size _ Hwf), !Z.mod_small by lia. lia.
Qed.

Theorem evaluate_cell_run s k :
  wf (GameField.field s) -> 0 <= k < Z.of_nat (length (GameField.cells (GameField.field s))) ->
  Game.evaluate_cell k s = Some (tt, evaluated k s).
Proof.
  intros Hwf Hk.
  destruct (index_on_grid _ k Hwf Hk) as (Hon & Hkey & _).
  unfold Game.evaluate_cell, evaluated.
  rewrite (bind_Some _ _ _ _ _ (read_cell_run s k Hk)).
  destruct (cell (GameField.field s) k =? Alive); [|reflexivity].
  set (x := morton_x 16 k) in *. set (y := morton_y 16 k) in *.
  rewrite (bind_Some _ _ (logged [EvRead k] s) tt (start_at k (logged [EvRead k] s)) eq_refl).
  set (s1 := start_at k (logged [EvRead k] s)).
  assert (Hwf1 : wf (GameField.field s1)).
  { apply wf_with_idx; [exact Hwf|]. rewrite <- Hkey. apply interleaveXY_range. }
  assert (Hi1 : GameField.idx (GameField.field s1) = interleaveXY x y) by (symmetry; exact Hkey).
  rewrite (bind_Some _ _ _ _ _ (updateCell_run s1 x y Hwf1 Hon Hi1)).
  unfold walk. cbn [fold_left fst snd].
  set (s2 := updated x y s1).
  assert (Hwf2 : wf (GameField.field s2)) by apply wf_updated, Hwf1.
  assert (Hi2 : GameField.idx (GameField.field s2) = interleaveXY x y) by exact Hi1.
  rewrite (bind_Some _ _ _ _ _ (visit_up_run s2 x y Hwf2 Hi2)).
  set (s3 := visit_post x (y - 1) s2).
  pose proof (wf_visit_post x (y - 1) s2 Hwf2) as Hwf3.
  rewrite (bind_Some _ _ _ _ _ (visit_left_run s3 x (y - 1) Hwf3 (idx_visit_post _ _ _))).
  set (s4 := visit_post (x - 1) (y - 1) s3).
  pose proof (wf_visit_post (x - 1) (y - 1) s3 Hwf3) as Hwf4.
  rewrite (bind_Some _ _ _ _ _ (visit_down_run s4 (x - 1) (y - 1) Hwf4 (idx_visit_post _ _ _))).
  replace (y - 1 + 1) with y by lia.
  set (s5 := visit_post (x - 1) y s4).
  pose proof (wf_visit_post (x - 1) y s4 Hwf4) as Hwf5.
  rewrite (bind_Some _ _ _ _ _ (visit_down_run s5 (x - 1) y Hwf5 (idx_visit_post _ _ _))).
  set (s6 := visit_post (x - 1) (y + 1) s5).
  pose proof (wf_visit_post (x - 1) (y + 1) s5 Hwf5) as Hwf6.
  rewrite (bind_Some _ _ _ _ _ (visit_right_run s6 (x - 1) (y + 1) Hwf6 (idx_visit_post _ _ _))).
  replace (x - 1 + 1) with x by lia.
  set (s7 := visit_post x (y + 1) s6).
  pose proof (wf_visit_post x (y + 1) s6 Hwf6) as Hwf7.
  rewrite (bind_Some _ _ _ _ _ (visit_right_run s7 x (y + 1) Hwf7 (idx_visit_post _ _ _))).
  set (s8 := visit_post (x + 1) (y + 1) s7).
  pose proof (wf_visit_post (x + 1) (y + 1) s7 Hwf7) as Hwf8.
  rewrite (bind_Some _ _ _ _ _ (visit_up_run s8 (x + 1) (y + 1) Hwf8 (idx_visit_post _ _ _))).
  replace (y + 1 - 1) with y by lia.
  set (s9 := visit_post (x + 1) y s8).
  pose proof (wf_visit_post (x + 1) y s8 Hwf8) as Hwf9.
  apply (visit_up_run s9 (x + 1) y Hwf9 (idx_visit_post _ _ _)).
Qed.

Lemma commit_cell_run s k :
  0 <= k < Z.of_nat (length (GameField.cells (GameField.field s))) ->
  Game.commit_cell k s = Some (tt, committed k s).
Proof.
  intros Hk. unfold Game.commit_cell, committed.
  rewrite (bind_Some _ _ _ _ _ (read_cell_run s k Hk)).
  destruct (cell (GameField.field s) k =? Birthing).
  - apply (write_cell_run (logged [EvRead k] s) k Alive Hk).
  - destruct ((cell (GameField.field s) k =? Dying) || (cell (GameField.field s) k =? DeadVisited)).
    + apply (write_cell_run (logged [EvRead k] s) k Dead Hk).
    + reflexivity.
Qed.

Lemma shape_evaluated k s :
  same_shape (GameField.field s) (GameField.field (evaluated k s)).
Proof.
  unfold evaluated. destruct (_ =? _); [|apply same_shape_refl].
  unfold walk. cbn [fold_left fst snd].
  repeat (eapply same_shape_trans; [|apply shape_visit_post]).
  eapply same_shape_trans; [|apply shape_updated]. repeat split.
Qed.

Lemma idx_evaluated_range k s : wf (GameField.field s) ->
  0 <= GameField.idx (GameField.field (evaluated k s)) < 2 ^ 32.
Proof.
  intros Hwf. unfold evaluated. destruct (_ =? _); [|apply Hwf].
  unfold walk. cbn [fold_left fst snd]. rewrite idx_visit_post. apply interleaveXY_range.
Qed.

Lemma wf_evaluated k s : wf (GameField.field s) -> wf (GameField.field (evaluated k s)).
Proof.
  intros H. apply (wf_same_shape _ _ H (shape_evaluated k s)), idx_evaluated_range, H.
Qed.

Lemma shape_committed k s :
  same_shape (GameField.field s) (GameField.field (committed k s)).
Proof.
  unfold committed. destruct (_ =? _); [apply (shape_wrote k Alive (logged [EvRead k] s))|].
  destruct (_ || _); [apply (shape_wrote k Dead (logged [EvRead k] s))|apply same_shape_refl].
Qed.

Lemma idx_committed k s :
  GameField.idx (GameField.field (committed k s)) = GameField.idx (GameField.field s).
Proof. unfold committed. destruct (_ =? _); [reflexivity|]. destruct (_ || _); reflexivity. Qed.

Lemma wf_committed k s : wf (GameField.field s) -> wf (GameField.field (committed k s)).
Proof.
  intros H. apply (wf_same_shape _ _ H (shape_committed k s)).
  rewrite idx_committed. apply H.
Qed.

Lemma pass_cons post k order s : pass post (k :: order) s = pass post order (post k s).
Proof. reflexivity. Qed.

Lemma pass_app post o1 o2 s : pass post (o1 ++ o2) s = pass post o2 (pass post o1 s).
Proof. apply fold_left_app. Qed.

(** A counted loop whose body has a known effect. *)
Lemma for_each_pass (body : Z -> M GameField.machine unit)
    (post : Z -> GameField.machine -> GameField.machine)
    (P : GameField.machine -> Prop) (hi : Z) :
  (forall k s, P s -> 0 <= k < hi -> body k s = Some (tt, post k s) /\ P (post k s)) ->
  forall (count : nat) i s, P s -> 0 <= i -> i + Z.of_nat count <= hi ->
    for_each body count i s
      = Some (i + Z.of_nat count, pass post (seqZ i (Z.of_nat count)) s)
    /\ P (pass post (seqZ i (Z.of_nat count)) s).
Proof.
  intros Hbody. induction count as [|count IH]; intros i s HP Hi Hhi.
  - cbn [for_each]. unfold ret. rewrite Z.add_0_r. split; [reflexivity | exact HP].
  - destruct (Hbody i s HP ltac:(lia)) as [Hrun HP'].
    cbn [for_each]. rewrite (bind_Some _ _ _ _ _ Hrun).
    destruct (IH (i + 1) (post i s) HP' ltac:(lia) ltac:(lia)) as [Hrest HPr].
    rewrite seqZ_cons by lia.
    replace (Z.pred (Z.of_nat (S count))) with (Z.of_nat count) by lia.
    replace (Z.succ i) with (i + 1) by lia.
    rewrite pass_cons. split; [|exact HPr].
    rewrite Hrest. f_equal. f_equal. lia.
Qed.

Lemma for_each_app {St} (body : Z -> M St unit) (a b : nat) : forall i s,
  for_each body (a + b) i s = bind (for_each body a i) (fun i' => for_each body b i') s.
Proof.
  induction a as [|a IH]; intros i s.
  - reflexivity.
  - cbn [for_each Nat.add]. unfold bind.
    destruct (body i s) as [[[] s']|]; [|reflexivity]. rewrite IH. reflexivity.
Qed.

Lemma rows_flat body (ys xs : nat) : forall i s,
  Game.rows body ys xs i s = for_each body (ys * xs) i s.
Proof.
  induction ys as [|ys IH]; intros i s.
  - reflexivity.
  - cbn [Game.rows Nat.mul]. rewrite for_each_app. unfold bind.
    destruct (for_each body xs i s) as [[i' s']|]; [apply IH | reflexivity].
Qed.

Lemma grid_cells f : wf f ->
  Z.of_nat (Z.to_nat (GameField.size f) * Z.to_nat (GameField.size f))
  = Z.of_nat (length (GameField.cells f)).
Proof.
  intros Hwf. rewrite (wf_cells _ Hwf), (wf_size _ Hwf).
  pose proof (wf_n _ Hwf) as Hn.
  assert (0 < 2 ^ GameField.n f) by (apply Z.pow_pos_nonneg; lia).
  rewrite Nat2Z.inj_mul, Z2Nat.id by lia.
  replace 4 with (2 * 2) by reflexivity. rewrite Z.pow_mul_l. reflexivity.
Qed.

Lemma rows_evaluate_run s : wf (GameField.field s) ->
  let sz := Z.to_nat (GameField.size (GameField.field s)) in
  let len := Z.of_nat (length (GameField.cells (GameField.field s))) in
  Game.rows Game.evaluate_cell sz sz 0 s = Some (len, pass evaluated (seqZ 0 len) s)
  /\ shaped (GameField.field s) (pass evaluated (seqZ 0 len) s).
Proof.
  intros Hwf sz len. rewrite rows_flat.
  pose proof (grid_cells _ Hwf) as Hg. fold sz len in Hg.
  destruct (for_each_pass Game.evaluate_cell evaluated (shaped (GameField.field s)) len) with
    (count := (sz * sz)%nat) (i := 0) (s := s) as [Hrun HP].
  - intros k s' [Hwf' Hsh] Hk. split.
    + apply evaluate_cell_run; [exact Hwf'|].
      destruct Hsh as (_&_&_&_&Hl). rewrite Hl. exact Hk.
    + split; [apply wf_evaluated, Hwf'|].
      apply (same_shape_trans _ _ _ Hsh), shape_evaluated.
  - split; [exact Hwf | apply same_shape_refl].
  - lia.
  - lia.
  - rewrite Hg in Hrun, HP. rewrite Hrun. split; [reflexivity | exact HP].
Qed.

Lemma rows_commit_run s : wf (GameField.field s) ->
  let sz := Z.to_nat (GameField.size (GameField.field s)) in
  let len := Z.of_nat (length (GameField.cells (GameField.field s))) in
  Game.rows Game.commit_cell sz sz 0 s = Some (len, pass committed (seqZ 0 len) s)
  /\ shaped (GameField.field s) (pass committed (seqZ 0 len) s).
Proof.
  intros Hwf sz len. rewrite rows_flat.
  pose proof (grid_cells _ Hwf) as Hg. fold sz len in Hg.
  destruct (for_each_pass Game.commit_cell committed (shaped (GameField.field s)) len) with
    (count := (sz * sz)%nat) (i := 0) (s := s) as [Hrun HP].
  - intros k s' [Hwf' Hsh] Hk. split.
    + apply commit_cell_run.
      destruct Hsh as (_&_&_&_&Hl). rewrite Hl. exact Hk.
    + split; [apply wf_committed, Hwf'|].
      apply (same_shape_trans _ _ _ Hsh), shape_committed.
  - split; [exact Hwf | apply same_shape_refl].
  - lia.
  - lia.
  - rewrite Hg in Hrun, HP. rewrite Hrun. split; [reflexivity | exact HP].
Qed.

Theorem evaluate_pass_run s : wf (GameField.field s) ->
  Game.evaluate_pass s = Some (tt, pass evaluated (scan_order (GameField.field s)) s).
Proof.
  intros Hwf. unfold Game.evaluate_pass.
  rewrite (bind_Some _ _ s (GameField.size (GameField.field s)) s eq_refl).
  destruct (rows_evaluate_run s Hwf) as [Hrun _].
  rewrite (bind_Some _ _ _ _ _ Hrun). reflexivity.
Qed.

Theorem commit_pass_run s : wf (GameField.field s) ->
  Game.commit_pass s = Some (tt, pass committed (scan_order (GameField.field s)) s).
Proof.
  intros Hwf. unfold Game.commit_pass.
  rewrite (bind_Some _ _ s (GameField.size (GameField.field s)) s eq_refl).
  destruct (rows_commit_run s Hwf) as [Hrun _].
  rewrite (bind_Some _ _ _ _ _ Hrun). reflexivity.
Qed.

Theorem simulationTick_run s : wf (GameField.field s) ->
  Game.simulationTick s = Some (tt, ticked s)
  /\ shaped (GameField.field s) (ticked s).
Proof.
  intros Hwf. unfold Game.simulationTick, ticked.
  rewrite (bind_Some _ _ _ _ _ (evaluate_pass_run s Hwf)).
  destruct (rows_evaluate_run s Hwf) as [_ [Hwf1 Hsh1]].
  fold (scan_order (GameField.field s)) in Hwf1, Hsh1.
  set (s1 := pass evaluated (scan_order (GameField.field s)) s) in *.
  assert (Ho : scan_order (GameField.field s1) = scan_order (GameField.field s)).
  { unfold scan_order. destruct Hsh1 as (_&_&_&_&Hl). rewrite Hl. reflexivity. }
  rewrite (commit_pass_run s1 Hwf1), Ho. split; [reflexivity|].
  destruct (rows_commit_run s1 Hwf1) as [_ [Hwf2 Hsh2]].
  fold (scan_order (GameField.field s1)) in Hwf2, Hsh2. rewrite Ho in Hwf2, Hsh2.
  split; [exact Hwf2 | apply (same_shape_trans _ _ _ Hsh1 Hsh2)].
Qed.

(** ** The evaluate pass keeps its invariant *)

Lemma size_bound f : wf f -> 1 <= GameField.size f <= 4096.
Proof.
  intros Hwf. rewrite (wf_size _ Hwf). pose proof (wf_n _ Hwf) as Hn.
  split.
  - assert (0 < 2 ^ GameField.n f) by (apply Z.pow_pos_nonneg; lia). lia.
  - change 4096 with (2 ^ 12). apply Z.pow_le_mono_r; lia.
Qed.

Lemma u16_near x N : 1 <= N <= 4096 -> -1 <= x <= N ->
  (u16 x <? N) = (0 <=? x) && (x <? N).
Proof.
  intros HN Hx. destruct (Z.eq_dec x (-1)) as [->|Hne].
  - change (u16 (-1)) with 65535. lia.
  - unfold u16. rewrite Z.mod_small by (change (2 ^ 16) with 65536; lia). lia.
Qed.

Lemma on_grid_in_grid f x y : wf f ->
  -1 <= x <= GameField.size f -> -1 <= y <= GameField.size f ->
  on_grid f x y = in_grid (GameField.size f) x y.
Proof.
  intros Hwf Hx Hy. pose proof (size_bound f Hwf) as HN.
  unfold on_grid, in_grid. rewrite (u16_near x), (u16_near y) by assumption.
  destruct (0 <=? x), (x <? GameField.size f), (0 <=? y), (y <? GameField.size f); reflexivity.
Qed.

Lemma in_grid_spec N x y : in_grid N x y = true <-> 0 <= x < N /\ 0 <= y < N.
Proof. unfold in_grid. lia. Qed.

Lemma in_grid_key f x y : wf f -> in_grid (GameField.size f) x y = true ->
  0 <= interleaveXY x y < Z.of_nat (length (GameField.cells f)).
Proof.
  intros Hwf Hin. apply on_grid_range; [exact Hwf|].
  apply in_grid_spec in Hin. rewrite on_grid_in_grid by (exact Hwf || lia).
  apply in_grid_spec. exact Hin.
Qed.

Lemma in_grid_inj f x y x' y' : wf f ->
  in_grid (GameField.size f) x y = true -> in_grid (GameField.size f) x' y' = true ->
  interleaveXY x y = interleaveXY x' y' -> x = x' /\ y = y'.
Proof.
  intros Hwf H H' E. apply in_grid_spec in H, H'. pose proof (size_bound f Hwf).
  apply key_inj; try exact E; change (2 ^ 16) with 65536; lia.
Qed.

Lemma cell_insert f k v k' :
  0 <= k < Z.of_nat (length (GameField.cells f)) -> 0 <= k' ->
  cell (with_cells (<[Z.to_nat k := v]> (GameField.cells f)) f) k'
  = if k' =? k then v else cell f k'.
Proof.
  intros Hk Hk'. unfold cell. cbn [with_cells GameField.cells].
  destruct (k' =? k) eqn:E.
  - assert (k' = k) by lia. subst k'.
    rewrite list_lookup_insert_eq by lia. reflexivity.
  - rewrite list_lookup_insert_ne by lia. reflexivity.
Qed.

Lemma rule_idem c a : rule (rule c a) a = rule c a.
Proof.
  unfold rule, Alive, Dead, Dying, Birthing, DeadVisited.
  destruct ((c =? 1) && ((a <? 2) || (a >? 3))) eqn:E1; [reflexivity|].
  destruct (c =? 0) eqn:E2.
  - destruct (a =? 3); reflexivity.
  - rewrite E1, E2. reflexivity.
Qed.

Lemma cell_updated x y s k' :
  wf (GameField.field s) -> on_grid (GameField.field s) x y = true -> 0 <= k' ->
  cell (GameField.field (updated x y s)) k'
  = if k' =? interleaveXY x y
    then rule (cell (GameField.field s) (interleaveXY x y)) (walk_sum (GameField.field s) x y)
    else cell (GameField.field s) k'.
Proof.
  intros Hwf Hon Hk'. unfold updated. cbn [GameField.field].
  apply cell_insert; [apply on_grid_range; assumption | exact Hk'].
Qed.

Section Evaluate.

Variable f0 : GameField.t.
Hypothesis Hwf0 : wf f0.
Hypothesis Hset : settled f0.

Local Abbreviation N := (GameField.size f0).
Local Abbreviation key := interleaveXY.
Local Abbreviation fld := GameField.field.

Lemma cell0_cases k : cell f0 k = Dead \/ cell f0 k = Alive.
Proof.
  unfold cell. destruct (GameField.cells f0 !! Z.to_nat k) as [c|] eqn:E.
  - apply (proj1 (Forall_lookup _ _) Hset _ _ E).
  - left. reflexivity.
Qed.

Lemma final_alive x y : cell f0 (key x y) = Alive ->
  (final f0 x y = Alive /\
     (neighbours_alive f0 x y = 2 \/ neighbours_alive f0 x y = 3)) \/
  (final f0 x y = Dying /\
     neighbours_alive f0 x y <> 2 /\ neighbours_alive f0 x y <> 3).
Proof.
  intros E. unfold final, rule. rewrite E.
  pose proof (eq_refl : Alive = 1). pose proof (eq_refl : Dead = 0).
  destruct ((Alive =? Alive) && ((neighbours_alive f0 x y <? 2) || (neighbours_alive f0 x y >? 3))) eqn:E1.
  - right. split; [reflexivity | lia].
  - left. destruct (Alive =? Dead) eqn:E2; [lia|]. split; [reflexivity|].
    unfold neighbours_alive in *.
    destruct (alive_at f0 (x - 1) (y - 1)), (alive_at f0 x (y - 1)),
      (alive_at f0 (x + 1) (y - 1)), (alive_at f0 (x - 1) y), (alive_at f0 (x + 1) y),
      (alive_at f0 (x - 1) (y + 1)), (alive_at f0 x (y + 1)), (alive_at f0 (x + 1) (y + 1));
      simpl Z.b2z in *; lia.
Qed.

Lemma final_dead x y : cell f0 (key x y) = Dead ->
  (final f0 x y = Birthing /\ neighbours_alive f0 x y = 3) \/
  (final f0 x y = DeadVisited /\ neighbours_alive f0 x y <> 3).
Proof.
  intros E. unfold final, rule. rewrite E.
  change ((Dead =? Alive) && _) with false. change (Dead =? Dead) with true. cbv iota.
  destruct (neighbours_alive f0 x y =? 3) eqn:E3; [left | right]; split; (reflexivity || lia).
Qed.

Lemma shaped_size s : shaped f0 s -> GameField.size (fld s) = N.
Proof. intros [_ (_ & H & _)]. exact H. Qed.

Lemma shaped_length s : shaped f0 s ->
  length (GameField.cells (fld s)) = length (GameField.cells f0).
Proof. intros [_ (_ & _ & _ & _ & H)]. exact H. Qed.

Lemma Inv_start t : Inv f0 (GameField.Machine f0 t).
Proof.
  split; [split; [exact Hwf0 | apply same_shape_refl]|].
  intros x y _. left. reflexivity.
Qed.

Lemma Marked_start t : Marked f0 (GameField.Machine f0 t).
Proof.
  intros x y _ E. cbn [GameField.field] in E.
  destruct (cell0_cases (key x y)) as [H|H]; rewrite H in E; discriminate.
Qed.

(** During the evaluate pass the low bit of a cell says whether the
    cell was alive when the tick began. *)
Lemma low_bit_Inv s x y : Inv f0 s -> -1 <= x <= N -> -1 <= y <= N ->
  low_bit (fld s) x y = Z.b2z (alive_at f0 x y).
Proof.
  intros [Hsh HI] Hx Hy. unfold low_bit, alive_at.
  rewrite on_grid_in_grid by (rewrite ?(shaped_size s Hsh); (apply Hsh || lia)).
  rewrite (shaped_size s Hsh).
  destruct (in_grid N x y) eqn:Hin; [|reflexivity].
  destruct (cell0_cases (key x y)) as [E0|E0]; rewrite E0.
  - destruct (HI x y Hin) as [E|E]; rewrite E.
    + rewrite E0. reflexivity.
    + destruct (final_dead x y E0) as [[-> _]|[-> _]]; reflexivity.
  - destruct (HI x y Hin) as [E|E]; rewrite E.
    + rewrite E0. reflexivity.
    + destruct (final_alive x y E0) as [[-> _]|[-> _]]; reflexivity.
Qed.

Lemma walk_sum_Inv s x y : Inv f0 s -> in_grid N x y = true ->
  walk_sum (fld s) x y = neighbours_alive f0 x y.
Proof.
  intros HI Hin. apply in_grid_spec in Hin.
  unfold walk_sum, walk, neighbours_alive. cbn [fold_right fst snd].
  rewrite !(low_bit_Inv s) by (exact HI || lia). lia.
Qed.

Lemma updated_Inv s x y : Inv f0 s -> in_grid N x y = true ->
  Inv f0 (updated x y s) /\ Fin f0 (updated x y s) x y /\
  (forall k', 0 <= k' -> k' <> key x y ->
     cell (fld (updated x y s)) k' = cell (fld s) k').
Proof.
  intros HI Hin. pose proof HI as [Hsh HC]. pose proof Hsh as [Hwf Hshape].
  assert (Hon : on_grid (fld s) x y = true).
  { apply in_grid_spec in Hin as Hr.
    rewrite on_grid_in_grid by (rewrite ?(shaped_size s Hsh); (exact Hwf || lia)).
    rewrite (shaped_size s Hsh). exact Hin. }
  pose proof (on_grid_range _ _ _ Hwf Hon) as Hr.
  assert (Hfin : Fin f0 (updated x y s) x y).
  { unfold Fin. rewrite cell_updated by (assumption || lia).
    rewrite Z.eqb_refl, walk_sum_Inv by assumption.
    destruct (HC x y Hin) as [E|E]; rewrite E; [reflexivity | apply rule_idem]. }
  assert (Hother : forall k', 0 <= k' -> k' <> key x y ->
            cell (fld (updated x y s)) k' = cell (fld s) k').
  { intros k' Hk' Hne. rewrite cell_updated by assumption.
    destruct (k' =? key x y) eqn:E; [lia | reflexivity]. }
  split; [|split; assumption].
  split.
  - split; [apply wf_updated, Hwf|].
    apply (same_shape_trans _ _ _ Hshape), shape_updated.
  - intros x' y' Hin'.
    destruct (Z.eq_dec (key x' y') (key x y)) as [E|E].
    + destruct (in_grid_inj f0 x' y' x y Hwf0 Hin' Hin E) as [-> ->].
      right. exact Hfin.
    + rewrite Hother; [apply HC, Hin' | | exact E].
      pose proof (interleaveXY_range x' y'). lia.
Qed.

Lemma mask_alive_derived c : c = Alive \/ c = Dying ->
  (u8 (Z.land c Game.mask) =? Dead) = false.
Proof. intros [-> | ->]; reflexivity. Qed.

Lemma visit_Inv s a b : Inv f0 s -> -1 <= a <= N -> -1 <= b <= N ->
  Inv f0 (visit_post a b s) /\
  (forall x y, in_grid N x y = true -> Fin f0 s x y -> Fin f0 (visit_post a b s) x y) /\
  (forall x y, in_grid N x y = true -> alive_at f0 x y = true ->
     cell (fld (visit_post a b s)) (key x y) = cell (fld s) (key x y)) /\
  (in_grid N a b = true -> alive_at f0 a b = false -> Fin f0 (visit_post a b s) a b).
Proof.
  intros HI Ha Hb. pose proof HI as [Hsh HC]. pose proof Hsh as [Hwf Hshape].
  assert (HI1 : Inv f0 (moved a b s)).
  { split; [split; [apply wf_moved, Hwf | exact Hshape] | exact HC]. }
  assert (Hgrid : on_grid (fld s) a b = in_grid N a b).
  { rewrite on_grid_in_grid by (rewrite ?(shaped_size s Hsh); (exact Hwf || lia)).
    rewrite (shaped_size s Hsh). reflexivity. }
  unfold visit_post.
  destruct (probe_val (fld s) a b Game.mask =? Dead) eqn:Ep.
  - assert (Hin : in_grid N a b = true).
    { rewrite <- Hgrid. apply probe_Dead_on_grid. lia. }
    destruct (updated_Inv (moved a b s) a b HI1 Hin) as (HI2 & Hfin & Hother).
    split; [exact HI2|]. split; [|split].
    + intros x y Hxy HF.
      destruct (Z.eq_dec (key x y) (key a b)) as [E|E].
      * destruct (in_grid_inj f0 x y a b Hwf0 Hxy Hin E) as [-> ->]. exact Hfin.
      * unfold Fin. rewrite Hother; [exact HF | | exact E].
        pose proof (interleaveXY_range x y). lia.
    + intros x y Hxy Hal.
      destruct (Z.eq_dec (key x y) (key a b)) as [E|E].
      * exfalso. destruct (in_grid_inj f0 x y a b Hwf0 Hxy Hin E) as [-> ->].
        unfold probe_val in Ep. rewrite Hgrid, Hin in Ep.
        unfold alive_at in Hal. rewrite Hin in Hal.
        assert (E0 : cell f0 (key a b) = Alive) by lia.
        rewrite mask_alive_derived in Ep; [discriminate|].
        destruct (HC a b Hin) as [Ec|Ec]; rewrite Ec.
        -- left. exact E0.
        -- destruct (final_alive a b E0) as [[-> _]|[-> _]]; [left | right]; reflexivity.
      * rewrite Hother; [reflexivity | | exact E].
        pose proof (interleaveXY_range x y). lia.
    + intros _ _. exact Hfin.
  - split; [exact HI1|]. split; [|split].
    + intros x y _ HF. exact HF.
    + intros x y _ _. reflexivity.
    + intros Hin Hal. unfold Fin. cbn [moved GameField.field with_idx].
      change (cell (GameField.mk _ _ _ (GameField.cells (fld s)) _ _) (key a b))
        with (cell (fld s) (key a b)).
      destruct (HC a b Hin) as [Ec|Ec]; [|exact Ec].
      exfalso. unfold probe_val in Ep. rewrite Hgrid, Hin in Ep.
      unfold alive_at in Hal. rewrite Hin in Hal.
      destruct (cell0_cases (key a b)) as [E0|E0]; [|rewrite E0 in Hal; discriminate].
      rewrite Ec, E0 in Ep. discriminate.
Qed.

Lemma Done_grows s s' x y : grows f0 s s' -> in_grid N x y = true ->
  Done f0 s x y -> Done f0 s' x y.
Proof.
  intros Hg Hin [HF HW]. split; [apply Hg; assumption|].
  intros p Hp Hpin Hpal. apply Hg; [exact Hpin | apply HW; assumption].
Qed.

Lemma visits_Inv (ps : list (Z * Z)) : forall s,
  Inv f0 s ->
  (forall p, In p ps -> -1 <= fst p <= N /\ -1 <= snd p <= N) ->
  let s' := fold_left (fun s p => visit_post (fst p) (snd p) s) ps s in
  Inv f0 s' /\ grows f0 s s' /\ keeps_alive f0 s s' /\
  (forall p, In p ps -> in_grid N (fst p) (snd p) = true ->
     alive_at f0 (fst p) (snd p) = false -> Fin f0 s' (fst p) (snd p)).
Proof.
  induction ps as [|p ps IH]; intros s HI Hps; cbn [fold_left].
  - split; [exact HI|]. split; [intros x y _ H; exact H|].
    split; [intros x y _ _; reflexivity | intros p []].
  - destruct (Hps p (or_introl eq_refl)) as [Ha Hb].
    destruct (visit_Inv s (fst p) (snd p) HI Ha Hb) as (HI1 & Hg1 & Hk1 & Hf1).
    destruct (IH (visit_post (fst p) (snd p) s) HI1
                (fun q Hq => Hps q (or_intror Hq))) as (HI2 & Hg2 & Hk2 & Hf2).
    split; [exact HI2|]. split; [|split].
    + intros x y Hin HF. apply Hg2, Hg1; assumption.
    + intros x y Hin Hal. rewrite Hk2, Hk1 by assumption. reflexivity.
    + intros q [<- | Hq] Hin Hal.
      * apply Hg2; [exact Hin | apply Hf1; assumption].
      * apply Hf2; assumption.
Qed.

Lemma walk_near x y : in_grid N x y = true ->
  forall p, In p (walk x y) -> -1 <= fst p <= N /\ -1 <= snd p <= N.
Proof.
  intros Hin p Hp. apply in_grid_spec in Hin. unfold walk in Hp. cbn [In] in Hp.
  repeat (destruct Hp as [<- | Hp]; [cbn [fst snd]; lia|]). destruct Hp.
Qed.

Lemma Dying_alive s x y : Inv f0 s -> in_grid N x y = true ->
  cell (fld s) (key x y) = Dying -> alive_at f0 x y = true.
Proof.
  intros [_ HC] Hin E. unfold alive_at. rewrite Hin.
  destruct (cell0_cases (key x y)) as [E0|E0]; [|rewrite E0; reflexivity].
  exfalso. destruct (HC x y Hin) as [Ec|Ec]; rewrite Ec in E.
  - rewrite E0 in E. discriminate.
  - destruct (final_dead x y E0) as [[Ef _]|[Ef _]]; rewrite Ef in E; discriminate.
Qed.

Lemma evaluated_Inv s k : Inv f0 s -> Marked f0 s ->
  0 <= k < Z.of_nat (length (GameField.cells f0)) ->
  Inv f0 (evaluated k s) /\ Marked f0 (evaluated k s) /\ grows f0 s (evaluated k s) /\
  (alive_at f0 (morton_x 16 k) (morton_y 16 k) = true ->
     Done f0 (evaluated k s) (morton_x 16 k) (morton_y 16 k)).
Proof.
  intros HI HM Hk. pose proof HI as [Hsh HC]. pose proof Hsh as [Hwf Hshape].
  destruct (index_on_grid f0 k Hwf0 Hk) as (_ & Hkey & Hx & Hy).
  set (x := morton_x 16 k) in *. set (y := morton_y 16 k) in *.
  assert (Hin : in_grid N x y = true) by (apply in_grid_spec; lia).
  unfold evaluated. fold x y.
  destruct (cell (fld s) k =? Alive) eqn:Ec.
  - set (s1 := start_at k (logged [EvRead k] s)).
    assert (HI1 : Inv f0 s1).
    { split; [split; [|exact Hshape] | exact HC].
      apply wf_with_idx; [exact Hwf | rewrite <- Hkey; apply interleaveXY_range]. }
    destruct (updated_Inv s1 x y HI1 Hin) as (HI2 & HF2 & Ho2).
    destruct (visits_Inv (walk x y) (updated x y s1) HI2 (walk_near x y Hin))
      as (HI3 & Hg3 & Hk3 & Hf3).
    set (s3 := fold_left _ (walk x y) (updated x y s1)) in *.
    assert (Hg : grows f0 s s3).
    { intros x' y' Hin' HF. apply Hg3; [exact Hin'|].
      destruct (Z.eq_dec (key x' y') (key x y)) as [E|E].
      + destruct (in_grid_inj f0 x' y' x y Hwf0 Hin' Hin E) as [-> ->]. exact HF2.
      + unfold Fin. rewrite Ho2; [exact HF | | exact E].
        pose proof (interleaveXY_range x' y'). lia. }
    assert (HD : Done f0 s3 x y).
    { split; [apply Hg3; assumption | exact Hf3]. }
    split; [exact HI3|]. split; [|split; [exact Hg | intros _; exact HD]].
    intros x' y' Hin' Ed.
    destruct (Z.eq_dec (key x' y') (key x y)) as [E|E].
    + destruct (in_grid_inj f0 x' y' x y Hwf0 Hin' Hin E) as [-> ->]. exact HD.
    + apply (Done_grows s s3 x' y' Hg Hin'). apply HM; [exact Hin'|].
      rewrite <- Ed. rewrite Hk3 by (try exact Hin'; apply (Dying_alive s3); assumption).
      symmetry. apply Ho2; [|exact E]. pose proof (interleaveXY_range x' y'). lia.
  - split; [exact HI|]. split; [exact HM|]. split; [intros x' y' _ HF; exact HF|].
    intros Hal. apply HM; [exact Hin|].
    unfold alive_at in Hal. rewrite Hin in Hal.
    assert (E0 : cell f0 (key x y) = Alive) by lia.
    destruct (HC x y Hin) as [E|E].
    + rewrite E0, Hkey in E. rewrite E in Ec. discriminate.
    + destruct (final_alive x y E0) as [[Ef _]|[Ef _]]; rewrite Ef in E.
      * rewrite Hkey in E. rewrite E in Ec. discriminate.
      * exact E.
Qed.

Lemma pass_evaluated_Inv (order : list Z) : forall s,
  Inv f0 s -> Marked f0 s ->
  (forall k, In k order -> 0 <= k < Z.of_nat (length (GameField.cells f0))) ->
  Inv f0 (pass evaluated order s) /\ Marked f0 (pass evaluated order s) /\
  grows f0 s (pass evaluated order s) /\
  (forall k, In k order -> alive_at f0 (morton_x 16 k) (morton_y 16 k) = true ->
     Done f0 (pass evaluated order s) (morton_x 16 k) (morton_y 16 k)).
Proof.
  induction order as [|k order IH]; intros s HI HM Hr.
  - split; [exact HI|]. split; [exact HM|]. split; [intros x y _ H; exact H | intros k []].
  - rewrite pass_cons.
    destruct (evaluated_Inv s k HI HM (Hr k (or_introl eq_refl))) as (HI1 & HM1 & Hg1 & HD1).
    destruct (IH (evaluated k s) HI1 HM1 (fun q Hq => Hr q (or_intror Hq)))
      as (HI2 & HM2 & Hg2 & HD2).
    split; [exact HI2|]. split; [exact HM2|]. split.
    + intros x y Hin HF. apply Hg2, Hg1; assumption.
    + intros q [<- | Hq] Hal.
      * destruct (index_on_grid f0 k Hwf0 (Hr k (or_introl eq_refl))) as (_ & _ & Hx & Hy).
        apply (Done_grows _ _ _ _ Hg2); [apply in_grid_spec; lia | apply HD1, Hal].
      * apply HD2; assumption.
Qed.

End Evaluate.

(** ** The commit pass and the whole tick *)

Lemma commit_code_id c : c <> Birthing -> c <> Dying -> c <> DeadVisited -> commit_code c = c.
Proof.
  unfold commit_code, Birthing, Dying, DeadVisited. intros.
  destruct (c =? 2) eqn:E1; [lia|]. destruct ((c =? 3) || (c =? 4)) eqn:E2; [lia|]. reflexivity.
Qed.

Lemma cell_committed s k k' :
  0 <= k < Z.of_nat (length (GameField.cells (GameField.field s))) -> 0 <= k' ->
  cell (GameField.field (committed k s)) k'
  = if k' =? k then commit_code (cell (GameField.field s) k) else cell (GameField.field s) k'.
Proof.
  intros Hk Hk'. unfold committed, commit_code.
  destruct (cell (GameField.field s) k =? Birthing) eqn:E1.
  - apply (cell_insert (GameField.field s) k Alive k' Hk Hk').
  - destruct ((cell (GameField.field s) k =? Dying) || (cell (GameField.field s) k =? DeadVisited)).
    + apply (cell_insert (GameField.field s) k Dead k' Hk Hk').
    + cbn [logged GameField.field]. destruct (k' =? k) eqn:E; [|reflexivity].
      f_equal. lia.
Qed.

Lemma length_committed k s :
  length (GameField.cells (GameField.field (committed k s)))
  = length (GameField.cells (GameField.field s)).
Proof. destruct (shape_committed k s) as (_&_&_&_&H). exact H. Qed.

Lemma pass_committed_cells (count : nat) : forall i s k',
  0 <= i -> i + Z.of_nat count <= Z.of_nat (length (GameField.cells (GameField.field s))) ->
  0 <= k' ->
  cell (GameField.field (pass committed (seqZ i (Z.of_nat count)) s)) k'
  = if (i <=? k') && (k' <? i + Z.of_nat count)
    then commit_code (cell (GameField.field s) k') else cell (GameField.field s) k'.
Proof.
  induction count as [|count IH]; intros i s k' Hi Hlen Hk'.
  - change (Z.of_nat 0) with 0. change (seqZ i 0) with (@nil Z). cbn [pass fold_left].
    destruct ((i <=? k') && (k' <? i + 0)) eqn:E; [lia | reflexivity].
  - rewrite seqZ_cons by lia.
    replace (Z.pred (Z.of_nat (S count))) with (Z.of_nat count) by lia.
    replace (Z.succ i) with (i + 1) by lia.
    rewrite pass_cons, IH by (rewrite ?length_committed; lia).
    rewrite cell_committed by lia.
    destruct (k' =? i) eqn:E.
    + assert (k' = i) by lia. subst k'.
      destruct ((i + 1 <=? i) && (i <? i + 1 + Z.of_nat count)) eqn:E1; [lia|].
      destruct ((i <=? i) && (i <? i + Z.of_nat (S count))) eqn:E2; [reflexivity | lia].
    + destruct ((i + 1 <=? k') && (k' <? i + 1 + Z.of_nat count)) eqn:E1;
        destruct ((i <=? k') && (k' <? i + Z.of_nat (S count))) eqn:E2; (reflexivity || lia).
Qed.

Lemma commit_pass_cells s k : 
  0 <= k < Z.of_nat (length (GameField.cells (GameField.field s))) ->
  cell (GameField.field (pass committed (scan_order (GameField.field s)) s)) k
  = commit_code (cell (GameField.field s) k).
Proof.
  intros Hk. unfold scan_order. rewrite pass_committed_cells by lia.
  destruct ((0 <=? k) && (k <? 0 + Z.of_nat (length (GameField.cells (GameField.field s))))) eqn:E;
    [reflexivity | lia].
Qed.

Lemma evaluate_order_run (order : list Z) : forall s,
  wf (GameField.field s) ->
  (forall k, In k order -> 0 <= k < Z.of_nat (length (GameField.cells (GameField.field s)))) ->
  evaluate_order order s = Some (tt, pass evaluated order s).
Proof.
  induction order as [|k order IH]; intros s Hwf Hr.
  - reflexivity.
  - cbn [evaluate_order fold_right].
    rewrite (bind_Some _ _ _ _ _ (evaluate_cell_run s k Hwf (Hr k (or_introl eq_refl)))).
    rewrite pass_cons. apply IH; [apply wf_evaluated, Hwf|].
    intros q Hq. destruct (shape_evaluated k s) as (_&_&_&_&Hl). rewrite Hl.
    apply Hr. right. exact Hq.
Qed.

Lemma alive_neighbour f x y : neighbours_alive f x y <> 0 ->
  exists p, In p (walk x y) /\ alive_at f (fst p) (snd p) = true.
Proof.
  intros Hne. unfold neighbours_alive in Hne. unfold walk.
  destruct (alive_at f x (y - 1)) eqn:E1; [exists (x, y - 1); cbn; tauto|].
  destruct (alive_at f (x - 1) (y - 1)) eqn:E2; [exists (x - 1, y - 1); cbn; tauto|].
  destruct (alive_at f (x - 1) y) eqn:E3; [exists (x - 1, y); cbn; tauto|].
  destruct (alive_at f (x - 1) (y + 1)) eqn:E4; [exists (x - 1, y + 1); cbn; tauto|].
  destruct (alive_at f x (y + 1)) eqn:E5; [exists (x, y + 1); cbn; tauto|].
  destruct (alive_at f (x + 1) (y + 1)) eqn:E6; [exists (x + 1, y + 1); cbn; tauto|].
  destruct (alive_at f (x + 1) y) eqn:E7; [exists (x + 1, y); cbn; tauto|].
  destruct (alive_at f (x + 1) (y - 1)) eqn:E8; [exists (x + 1, y - 1); cbn; tauto|].
  exfalso. apply Hne. reflexivity.
Qed.

Lemma walk_sym a b x y : In (a, b) (walk x y) -> In (x, y) (walk a b).
Proof.
  unfold walk. cbn [In]. intros H.
  repeat (destruct H as [H | H]; [injection H as <- <-|]); try contradiction.
  - do 4 right. left. f_equal; lia.
  - do 5 right. left. f_equal; lia.
  - do 6 right. left. f_equal; lia.
  - do 7 right. left. f_equal; lia.
  - left. f_equal; lia.
  - right. left. f_equal; lia.
  - do 2 right. left. f_equal; lia.
  - do 3 right. left. f_equal; lia.
Qed.

Lemma decode_key f x y : wf f -> in_grid (GameField.size f) x y = true ->
  morton_x 16 (interleaveXY x y) = x /\ morton_y 16 (interleaveXY x y) = y.
Proof.
  intros Hwf Hin. apply in_grid_spec in Hin. pose proof (size_bound f Hwf).
  rewrite interleaveXY_morton. split.
  - apply morton_encode_x. change (2 ^ Z.of_nat 16) with 65536. lia.
  - apply morton_encode_y. change (2 ^ Z.of_nat 16) with 65536. lia.
Qed.

(** The cells after a tick whose evaluate pass covers every cell. *)
Lemma tick_cells f0 t (order : list Z) x y :
  wf f0 -> settled f0 ->
  (forall k, In k order <-> 0 <= k < Z.of_nat (length (GameField.cells f0))) ->
  in_grid (GameField.size f0) x y = true ->
  let s1 := pass evaluated order (GameField.Machine f0 t) in
  commit_code (cell (GameField.field s1) (interleaveXY x y))
  = if life_next f0 x y then Alive else Dead.
Proof.
  intros Hwf0 Hset Horder Hin s1.
  destruct (pass_evaluated_Inv f0 Hwf0 Hset order (GameField.Machine f0 t)
              (Inv_start f0 Hwf0 t) (Marked_start f0 Hset t)
              (fun k Hk => proj1 (Horder k) Hk)) as (HI & _ & _ & HD).
  fold s1 in HI, HD. destruct HI as [_ HC].
  assert (Hdone : forall a b, in_grid (GameField.size f0) a b = true ->
            alive_at f0 a b = true -> Done f0 s1 a b).
  { intros a b Hab Hal. destruct (decode_key f0 a b Hwf0 Hab) as [Ea Eb].
    specialize (HD (interleaveXY a b)). rewrite Ea, Eb in HD.
    apply HD; [|exact Hal]. apply Horder, in_grid_key; assumption. }
  unfold life_next.
  destruct (alive_at f0 x y) eqn:Hal.
  - destruct (Hdone x y Hin Hal) as [HF _]. unfold Fin in HF. rewrite HF.
    unfold alive_at in Hal. rewrite Hin in Hal.
    assert (E0 : cell f0 (interleaveXY x y) = Alive) by lia.
    destruct (final_alive f0 x y E0) as [[-> Hn]|[-> Hn]].
    + destruct ((neighbours_alive f0 x y =? 2) || (neighbours_alive f0 x y =? 3)) eqn:E;
        [reflexivity | lia].
    + destruct ((neighbours_alive f0 x y =? 2) || (neighbours_alive f0 x y =? 3)) eqn:E;
        [lia | reflexivity].
  - assert (E0 : cell f0 (interleaveXY x y) = Dead).
    { unfold alive_at in Hal. rewrite Hin in Hal.
      destruct (cell0_cases f0 Hset (interleaveXY x y)) as [E|E]; [exact E|].
      rewrite E in Hal. discriminate. }
    destruct (neighbours_alive f0 x y =? 3) eqn:E3.
    + destruct (alive_neighbour f0 x y ltac:(lia)) as ([a b] & Hp & Hpal).
      cbn [fst snd] in Hpal.
      assert (Hab : in_grid (GameField.size f0) a b = true).
      { unfold alive_at in Hpal. destruct (in_grid (GameField.size f0) a b); [reflexivity | discriminate]. }
      destruct (Hdone a b Hab Hpal) as [_ HW].
      specialize (HW (x, y) (walk_sym a b x y Hp) Hin Hal). cbn [fst snd] in HW.
      unfold Fin in HW. rewrite HW.
      destruct (final_dead f0 x y E0) as [[-> _]|[_ Hn]]; [reflexivity | lia].
    + destruct (HC x y Hin) as [E|E]; rewrite E.
      * rewrite E0. reflexivity.
      * destruct (final_dead f0 x y E0) as [[_ Hn]|[-> _]]; [lia | reflexivity].
Qed.

(** ** The neighbour walk *)

Lemma step_run d mask s x y :
  wf (GameField.field s) -> GameField.idx (GameField.field s) = interleaveXY x y ->
  step d mask s =
  Some (probe_val (GameField.field s) (fst (target d x y)) (snd (target d x y)) mask,
        moved (fst (target d x y)) (snd (target d x y)) s).
Proof.
  intros Hwf Hi. destruct d; cbn [step target fst snd].
  - apply right_run; assumption.
  - apply left_run; assumption.
  - apply up_run; assumption.
  - apply down_run; assumption.
Qed.

Lemma u16_near_inj N a a' : 1 <= N <= 4096 -> -1 <= a <= N -> -1 <= a' <= N ->
  u16 a = u16 a' -> a = a'.
Proof.
  intros HN Ha Ha'. unfold u16.
  destruct (Z.eq_dec a (-1)) as [->|Hne]; destruct (Z.eq_dec a' (-1)) as [->|Hne'];
    try reflexivity.
  - rewrite (Z.mod_small a') by (change (2 ^ 16) with 65536; lia).
    change ((-1) mod 2 ^ 16) with 65535. lia.
  - rewrite (Z.mod_small a) by (change (2 ^ 16) with 65536; lia).
    change ((-1) mod 2 ^ 16) with 65535. lia.
  - rewrite !Z.mod_small by (change (2 ^ 16) with 65536; lia). tauto.
Qed.

Lemma key_near_inj N a b a' b' : 1 <= N <= 4096 ->
  -1 <= a <= N -> -1 <= b <= N -> -1 <= a' <= N -> -1 <= b' <= N ->
  interleaveXY a b = interleaveXY a' b' -> a = a' /\ b = b'.
Proof.
  intros HN Ha Hb Ha' Hb' E.
  rewrite <- (interleaveXY_u16 a b), <- (interleaveXY_u16 a' b') in E.
  apply key_inj in E; try (apply Z.mod_pos_bound; lia).
  destruct E as [E1 E2].
  split; eapply u16_near_inj; eauto.
Qed.

Lemma walk_moore x y a b :
  In (a, b) (walk x y) <->
  (-1 <= a - x <= 1 /\ -1 <= b - y <= 1 /\ (a, b) <> (x, y)).
Proof.
  unfold walk. cbn [In]. split.
  - intros H. repeat (destruct H as [H | H]; [injection H as <- <-;
      (split; [lia | split; [lia | intros E; injection E; lia]])|]). destruct H.
  - intros (Ha & Hb & Hne).
    assert (Hc : (a = x - 1 \/ a = x \/ a = x + 1) /\ (b = y - 1 \/ b = y \/ b = y + 1)) by lia.
    destruct Hc as [[-> | [-> | ->]] [-> | [-> | ->]]]; try tauto.
Qed.

Lemma walk_NoDup x y : NoDup (walk x y).
Proof.
  unfold walk.
  repeat (apply NoDup_cons_2;
    [ rewrite ?elem_of_cons, elem_of_nil; intros H;
      repeat (destruct H as [H | H]; [injection H; lia|]); exact H |]).
  apply NoDup_nil_2.
Qed.

Lemma walk_keys_NoDup f x y : wf f -> in_grid (GameField.size f) x y = true ->
  NoDup (map (fun p => interleaveXY (fst p) (snd p)) (walk x y)).
Proof.
  intros Hwf Hin. apply (NoDup_fmap_2_strong _ (walk x y)); [|apply walk_NoDup].
  intros [a b] [a' b'] Hp Hp' E. cbn [fst snd] in E.
  apply list_elem_of_In, walk_moore in Hp. apply list_elem_of_In, walk_moore in Hp'.
  apply in_grid_spec in Hin. pose proof (size_bound f Hwf).
  destruct (key_near_inj (GameField.size f) a b a' b') as [-> ->]; (lia || assumption || reflexivity).
Qed.

Lemma gets_run {A} (proj : GameField.t -> A) s :
  GameField.gets proj s = Some (proj (GameField.field s), s).
Proof. reflexivity. Qed.

Lemma trail_run (ds : list direction) : forall s x y,
  wf (GameField.field s) -> GameField.idx (GameField.field s) = interleaveXY x y ->
  exists s', trail ds s
             = Some (map (fun p => interleaveXY (fst p) (snd p)) (path ds x y), s').
Proof.
  induction ds as [|d ds IH]; intros s x y Hwf Hidx.
  - eexists. reflexivity.
  - cbn [trail path map].
    rewrite (bind_Some _ _ _ _ _ (step_run d Alive s x y Hwf Hidx)).
    set (p := target d x y).
    rewrite (bind_Some _ _ _ _ _ (gets_run GameField.idx (moved (fst p) (snd p) s))).
    rewrite idx_moved.
    destruct (IH (moved (fst p) (snd p) s) (fst p) (snd p)
                (wf_moved _ _ _ Hwf) (idx_moved _ _ _)) as [s' Hs'].
    rewrite (bind_Some _ _ _ _ _ Hs'). eexists. reflexivity.
Qed.

Lemma path_neighbours x y : path neighbour_moves x y = walk x y.
Proof.
  unfold neighbour_moves, walk. cbn [path target fst snd].
  repeat (f_equal; try lia).
Qed.

Lemma trail_neighbours s x y :
  wf (GameField.field s) -> GameField.idx (GameField.field s) = interleaveXY x y ->
  exists s', trail neighbour_moves s
             = Some (map (fun p => interleaveXY (fst p) (snd p)) (walk x y), s').
Proof. intros Hwf Hidx. rewrite <- path_neighbours. apply trail_run; assumption. Qed.

(** C4. From a cursor on the grid, [countAliveNeighbors] returns with the
    field (cursor and cells) as it found it; its moves N, W, S, S, E, E,
    N, N put the cursor on the eight Moore neighbours, each exactly once;
    and the result is the sum of the low bits of the cells visited, a
    position off the grid counting 0. *)
Theorem countAliveNeighbors_walk (s : GameField.machine) (x y : Z) :
  wf (GameField.field s) ->
  in_grid (GameField.size (GameField.field s)) x y = true ->
  GameField.idx (GameField.field s) = interleaveXY x y ->
  (exists s', GameField.countAliveNeighbors s
              = Some (fold_right (fun p acc => low_bit (GameField.field s) (fst p) (snd p) + acc)
                                 0 (walk x y), s')
              /\ GameField.field s' = GameField.field s) /\
  (exists s', trail neighbour_moves s
              = Some (map (fun p => interleaveXY (fst p) (snd p)) (walk x y), s')) /\
  NoDup (map (fun p => interleaveXY (fst p) (snd p)) (walk x y)) /\
  (forall a b, In (a, b) (walk x y) <->
     -1 <= a - x <= 1 /\ -1 <= b - y <= 1 /\ (a, b) <> (x, y)) /\
  (forall a b, on_grid (GameField.field s) a b = false -> low_bit (GameField.field s) a b = 0) /\
  (forall a b, on_grid (GameField.field s) a b = true ->
     low_bit (GameField.field s) a b = Z.land (cell (GameField.field s) (interleaveXY a b)) 1).
Proof.
  intros Hwf Hin Hidx. split; [|split; [|split; [|split; [|split]]]].
  - eexists. split; [apply countAliveNeighbors_run; assumption | reflexivity].
  - apply trail_neighbours; assumption.
  - apply (walk_keys_NoDup (GameField.field s)); assumption.
  - intros a b. apply walk_moore.
  - intros a b E. unfold low_bit. rewrite E. reflexivity.
  - intros a b E. unfold low_bit. rewrite E. reflexivity.
Qed.

Lemma wf_blinker4 : wf blinker4.
Proof. constructor; cbn; lia. Qed.

Lemma countAliveNeighbors_walk_witness :
  wf blinker4 /\ in_grid 4 1 1 = true /\
  exists s', GameField.countAliveNeighbors (GameField.Machine (with_idx 3 blinker4) [])
             = Some (2, s').
Proof.
  split; [exact wf_blinker4|]. split; [reflexivity|].
  destruct (countAliveNeighbors_walk (GameField.Machine (with_idx 3 blinker4) []) 1 1)
    as [[s' [H _]] _].
  - constructor; cbn; lia.
  - reflexivity.
  - reflexivity.
  - exists s'. exact H.
Defined.

(** ** Single operations *)

Lemma cursor_coords f : wf f ->
  GameField.idx f = interleaveXY (morton_x 16 (GameField.idx f)) (morton_y 16 (GameField.idx f)).
Proof. intros Hwf. symmetry. apply key_decode, Hwf. Qed.

Lemma step_total d mask s : wf (GameField.field s) ->
  exists v s', step d mask s = Some (v, s') /\ wf (GameField.field s') /\
    GameField.cells (GameField.field s') = GameField.cells (GameField.field s) /\
    same_shape (GameField.field s) (GameField.field s').
Proof.
  intros Hwf. pose proof (step_run d mask s _ _ Hwf (cursor_coords _ Hwf)) as H.
  eexists. eexists. split; [exact H|]. split; [apply wf_moved, Hwf|].
  split; [reflexivity | apply shape_moved].
Qed.

Lemma rule_noop c a : c = Birthing \/ c = Dying \/ c = DeadVisited -> rule c a = c.
Proof. intros [-> | [-> | ->]]; reflexivity. Qed.

(** C7. With the cursor on a cell that is [Birthing], [Dying] or
    [DeadVisited], [updateCell] leaves the whole field as it was: every
    cell and the cursor. *)
Theorem updateCell_noop (s : GameField.machine) :
  wf (GameField.field s) ->
  0 <= GameField.idx (GameField.field s)
    < Z.of_nat (length (GameField.cells (GameField.field s))) ->
  cell (GameField.field s) (GameField.idx (GameField.field s)) = Birthing \/
  cell (GameField.field s) (GameField.idx (GameField.field s)) = Dying \/
  cell (GameField.field s) (GameField.idx (GameField.field s)) = DeadVisited ->
  exists s', GameField.updateCell s = Some (tt, s') /\
             GameField.field s' = GameField.field s.
Proof.
  intros Hwf Hk Hc.
  destruct (index_on_grid _ _ Hwf Hk) as (Hon & Hkey & _).
  set (x := morton_x 16 (GameField.idx (GameField.field s))) in *.
  set (y := morton_y 16 (GameField.idx (GameField.field s))) in *.
  exists (updated x y s). split.
  - apply updateCell_run; [exact Hwf | exact Hon | symmetry; exact Hkey].
  - unfold updated. cbn [GameField.field]. rewrite Hkey.
    rewrite rule_noop by exact Hc.
    rewrite insert_cell_same by lia. apply with_cells_same.
Qed.

Lemma updateCell_noop_witness :
  exists s', GameField.updateCell
               (GameField.Machine (GameField.mk 1 4 8 [Alive; Dying; Dead; Birthing] 2 1) [])
             = Some (tt, s') /\
             GameField.field s' = GameField.mk 1 4 8 [Alive; Dying; Dead; Birthing] 2 1.
Proof.
  apply (updateCell_noop (GameField.Machine (GameField.mk 1 4 8 [Alive; Dying; Dead; Birthing] 2 1) [])).
  - constructor; cbn; lia.
  - cbn. lia.
  - right. left. reflexivity.
Defined.

(** C8. From an interior position, a step right followed by a step left,
    and a step down followed by a step up, bring the cursor back: the
    field after the two steps is the field before. *)
Theorem step_back (s : GameField.machine) (x y m1 m2 : Z) :
  wf (GameField.field s) ->
  0 < x < GameField.size (GameField.field s) - 1 ->
  0 < y < GameField.size (GameField.field s) - 1 ->
  GameField.idx (GameField.field s) = interleaveXY x y ->
  (exists v1 s1 v2 s2,
     GameField.right m1 s = Some (v1, s1) /\ GameField.left m2 s1 = Some (v2, s2) /\
     GameField.idx (GameField.field s1) = interleaveXY (x + 1) y /\
     GameField.field s2 = GameField.field s) /\
  (exists v1 s1 v2 s2,
     GameField.down m1 s = Some (v1, s1) /\ GameField.up m2 s1 = Some (v2, s2) /\
     GameField.idx (GameField.field s1) = interleaveXY x (y + 1) /\
     GameField.field s2 = GameField.field s).
Proof.
  intros Hwf Hx Hy Hidx. split.
  - do 4 eexists. split; [apply right_run; eassumption|].
    split; [apply left_run; [apply wf_moved, Hwf | apply idx_moved]|].
    split; [apply idx_moved|].
    cbn [moved GameField.field]. rewrite with_idx_with_idx.
    replace (x + 1 - 1) with x by lia. rewrite <- Hidx. apply with_idx_same.
  - do 4 eexists. split; [apply down_run; eassumption|].
    split; [apply up_run; [apply wf_moved, Hwf | apply idx_moved]|].
    split; [apply idx_moved|].
    cbn [moved GameField.field]. rewrite with_idx_with_idx.
    replace (y + 1 - 1) with y by lia. rewrite <- Hidx. apply with_idx_same.
Qed.

Lemma step_back_witness :
  exists v1 s1 v2 s2,
    GameField.right 1 (GameField.Machine (with_idx 3 blinker4) []) = Some (v1, s1) /\
    GameField.left 1 s1 = Some (v2, s2) /\
    GameField.idx (GameField.field s1) = interleaveXY 2 1 /\
    GameField.field s2 = with_idx 3 blinker4.
Proof.
  apply (step_back (GameField.Machine (with_idx 3 blinker4) []) 1 1 1 1).
  - constructor; cbn; lia.
  - cbn. lia.
  - cbn. lia.
  - reflexivity.
Defined.

(** C10. [setCursor] with a coordinate at or beyond the side of the grid
    returns [DeadVisited] and changes nothing: the cursor keeps its key,
    no cell is touched and none is read. *)
Theorem setCursor_off_grid (s : GameField.machine) (x y : Z) :
  x >= GameField.size (GameField.field s) \/ y >= GameField.size (GameField.field s) ->
  GameField.setCursor x y s = Some (DeadVisited, s).
Proof.
  intros H. unfold GameField.setCursor, bind, GameField.gets, ret.
  destruct ((x >=? GameField.size (GameField.field s))
            || (y >=? GameField.size (GameField.field s))) eqn:E; [reflexivity | lia].
Qed.

Lemma setCursor_off_grid_witness :
  GameField.setCursor 4 0 (GameField.Machine (with_idx 3 blinker4) [])
  = Some (DeadVisited, GameField.Machine (with_idx 3 blinker4) []).
Proof. apply setCursor_off_grid. left. cbn. lia. Defined.

(** ** The low bit during the evaluate pass *)

Lemma rule_low_bit c a : Z.land (rule c a) 1 = Z.land c 1.
Proof.
  unfold rule, Alive, Dead.
  destruct ((c =? 1) && ((a <? 2) || (a >? 3))) eqn:E1.
  - assert (c = 1) by lia. subst c. reflexivity.
  - destruct (c =? 0) eqn:E2; [|reflexivity].
    assert (c = 0) by lia. subst c. destruct (a =? 3); reflexivity.
Qed.

Lemma same_low_updated s x y :
  wf (GameField.field s) -> on_grid (GameField.field s) x y = true ->
  same_low s (updated x y s).
Proof.
  intros Hwf Hon k Hk. rewrite cell_updated by assumption.
  destruct (k =? interleaveXY x y) eqn:E; [|reflexivity].
  assert (k = interleaveXY x y) by lia. subst k. apply rule_low_bit.
Qed.

Lemma same_low_visit s a b : wf (GameField.field s) -> same_low s (visit_post a b s).
Proof.
  intros Hwf. unfold visit_post.
  destruct (probe_val (GameField.field s) a b Game.mask =? Dead) eqn:E.
  - apply (same_low_updated (moved a b s) a b (wf_moved _ _ _ Hwf)).
    apply probe_Dead_on_grid, Z.eqb_eq, E.
  - intros k _. reflexivity.
Qed.

Lemma same_low_trans s1 s2 s3 : same_low s1 s2 -> same_low s2 s3 -> same_low s1 s3.
Proof. intros H1 H2 k Hk. rewrite H2, H1 by exact Hk. reflexivity. Qed.

Lemma same_low_evaluated s k :
  wf (GameField.field s) -> 0 <= k < Z.of_nat (length (GameField.cells (GameField.field s))) ->
  same_low s (evaluated k s).
Proof.
  intros Hwf Hk. destruct (index_on_grid _ k Hwf Hk) as (Hon & Hkey & _).
  unfold evaluated. destruct (_ =? _); [|intros k' _; reflexivity].
  set (x := morton_x 16 k) in *. set (y := morton_y 16 k) in *.
  set (s1 := start_at k (logged [EvRead k] s)).
  assert (Hwf1 : wf (GameField.field s1)).
  { apply wf_with_idx; [exact Hwf | rewrite <- Hkey; apply interleaveXY_range]. }
  pose proof (same_low_updated s1 x y Hwf1 Hon) as H2.
  pose proof (wf_updated x y s1 Hwf1) as Hwf2.
  unfold walk. cbn [fold_left fst snd].
  repeat match goal with
  | |- same_low s (visit_post ?a ?b ?s') =>
      apply (same_low_trans s s' _); [|apply same_low_visit]
  | |- wf (GameField.field (visit_post _ _ _)) => apply wf_visit_post
  end; try exact Hwf2.
  all: intros k' Hk'; apply (H2 k' Hk').
Qed.

Lemma same_low_pass (order : list Z) : forall s,
  wf (GameField.field s) ->
  (forall k, In k order -> 0 <= k < Z.of_nat (length (GameField.cells (GameField.field s)))) ->
  same_low s (pass evaluated order s).
Proof.
  induction order as [|k order IH]; intros s Hwf Hr.
  - intros k _. reflexivity.
  - rewrite pass_cons.
    apply (same_low_trans s (evaluated k s)).
    + apply same_low_evaluated; [exact Hwf | apply Hr; left; reflexivity].
    + apply IH; [apply wf_evaluated, Hwf|].
      intros q Hq. destruct (shape_evaluated k s) as (_&_&_&_&Hl). rewrite Hl.
      apply Hr. right. exact Hq.
Qed.

(** C3. From a grid of [Dead] and [Alive] cells, after the evaluate pass
    has processed any sequence of cells, the low bit of every cell is 1
    exactly when the cell was [Alive] when the tick began; the moves leave
    the cell array as it is and [updateCell] leaves the low bit of every
    cell as it is; the commit pass is where the bit changes: run on any
    well-formed field, [commit_pass] turns every [Birthing] cell [Alive],
    raising the bit, and every [Dying] cell [Dead], clearing it, and
    keeps the bit of every other cell. *)
Theorem low_bit_invariant (s : GameField.machine) (order : list Z) :
  wf (GameField.field s) -> settled (GameField.field s) ->
  (forall k, In k order -> 0 <= k < Z.of_nat (length (GameField.cells (GameField.field s)))) ->
  (exists s1, evaluate_order order s = Some (tt, s1) /\
     forall k, 0 <= k < Z.of_nat (length (GameField.cells (GameField.field s))) ->
       Z.land (cell (GameField.field s1) k) 1
       = if cell (GameField.field s) k =? Alive then 1 else 0) /\
  (forall u x y, wf (GameField.field u) -> on_grid (GameField.field u) x y = true ->
     GameField.idx (GameField.field u) = interleaveXY x y ->
     exists u', GameField.updateCell u = Some (tt, u') /\
       forall k, 0 <= k ->
         Z.land (cell (GameField.field u') k) 1 = Z.land (cell (GameField.field u) k) 1) /\
  (forall u d mask, wf (GameField.field u) ->
     exists v u', step d mask u = Some (v, u') /\
       GameField.cells (GameField.field u') = GameField.cells (GameField.field u)) /\
  (Z.land Alive 1 = 1 /\ Z.land Dying 1 = 1 /\
   Z.land Dead 1 = 0 /\ Z.land Birthing 1 = 0 /\ Z.land DeadVisited 1 = 0) /\
  (Z.land (commit_code Birthing) 1 = 1 /\ Z.land (commit_code Dying) 1 = 0) /\
  (forall u, wf (GameField.field u) ->
     exists u', Game.commit_pass u = Some (tt, u') /\
       forall k, 0 <= k < Z.of_nat (length (GameField.cells (GameField.field u))) ->
         (cell (GameField.field u) k = Birthing ->
            cell (GameField.field u') k = Alive /\
            Z.land (cell (GameField.field u) k) 1 = 0 /\
            Z.land (cell (GameField.field u') k) 1 = 1) /\
         (cell (GameField.field u) k = Dying ->
            cell (GameField.field u') k = Dead /\
            Z.land (cell (GameField.field u) k) 1 = 1 /\
            Z.land (cell (GameField.field u') k) 1 = 0) /\
         (cell (GameField.field u) k <> Birthing -> cell (GameField.field u) k <> Dying ->
            Z.land (cell (GameField.field u') k) 1 = Z.land (cell (GameField.field u) k) 1)).
Proof.
  intros Hwf Hset Hr. split; [|split; [|split; [|split; [|split]]]].
  - exists (pass evaluated order s). split; [apply evaluate_order_run; assumption|].
    intros k Hk. rewrite (same_low_pass order s Hwf Hr k) by lia.
    destruct (cell0_cases _ Hset k) as [-> | ->]; reflexivity.
  - intros u x y Hu Hon Hi. exists (updated x y u).
    split; [apply updateCell_run; assumption | apply same_low_updated; assumption].
  - intros u d mask Hu. destruct (step_total d mask u Hu) as (v & u' & H & _ & Hc & _).
    exists v, u'. split; assumption.
  - repeat split.
  - split; reflexivity.
  - intros u Hu. exists (pass committed (scan_order (GameField.field u)) u).
    split; [apply commit_pass_run, Hu|]. intros k Hk.
    rewrite commit_pass_cells by exact Hk.
    split; [|split].
    + intros ->. repeat split.
    + intros ->. repeat split.
    + intros Hb Hd. unfold commit_code.
      destruct (cell (GameField.field u) k =? Birthing) eqn:E1; [lia|].
      destruct ((cell (GameField.field u) k =? Dying)
                || (cell (GameField.field u) k =? DeadVisited)) eqn:E2; [|reflexivity].
      assert (E : cell (GameField.field u) k = DeadVisited) by lia.
      rewrite E. reflexivity.
Qed.

Lemma settled_blinker4 : settled blinker4.
Proof.
  unfold settled, blinker4. cbn [GameField.cells].
  repeat (apply Forall_cons_2; [(left; reflexivity) || (right; reflexivity)|]).
  apply Forall_nil_2.
Qed.

Lemma low_bit_invariant_witness :
  exists s1, evaluate_order [1; 3; 9] (GameField.Machine blinker4 []) = Some (tt, s1) /\
    forall k, 0 <= k < 16 ->
      Z.land (cell (GameField.field s1) k) 1 = if cell blinker4 k =? Alive then 1 else 0.
Proof.
  destruct (low_bit_invariant (GameField.Machine blinker4 []) [1; 3; 9]) as [H _].
  - exact wf_blinker4.
  - exact settled_blinker4.
  - cbn. intros k [<- | [<- | [<- | []]]]; lia.
  - exact H.
Defined.

(** ** The constructor *)

Lemma land_1_mod z : Z.land z 1 = z mod 2.
Proof. apply (Z.land_ones z 1). lia. Qed.

Lemma shiftr_1_div z : Z.shiftr z 1 = z / 2.
Proof. rewrite Z.shiftr_div_pow2 by lia. reflexivity. Qed.

Lemma ctor_loop_zero (fuel : nat) : forall n,
  GameField.ctor_loop fuel n 0 = (n + Z.of_nat fuel, 0).
Proof.
  induction fuel as [|fuel IH]; intros n.
  - cbn [GameField.ctor_loop]. f_equal. lia.
  - cbn [GameField.ctor_loop]. change (Z.land 0 1 =? 1) with false. cbv iota.
    change (Z.shiftr 0 1) with 0. rewrite IH. f_equal. lia.
Qed.

Lemma ctor_loop_pos (fuel : nat) : forall n sz,
  0 < sz < 2 ^ Z.of_nat fuel ->
  exists t q, 0 <= t < Z.of_nat fuel /\ 0 <= q /\ sz = 2 ^ t * (2 * q + 1) /\
    GameField.ctor_loop fuel n sz = (n + t, q).
Proof.
  induction fuel as [|fuel IH]; intros n sz Hsz.
  - change (2 ^ Z.of_nat 0) with 1 in Hsz. lia.
  - rewrite Nat2Z.inj_succ, Z.pow_succ_r in Hsz by lia.
    cbn [GameField.ctor_loop]. rewrite land_1_mod, shiftr_1_div.
    pose proof (Z.div_mod sz 2 ltac:(lia)) as Hd.
    pose proof (Z.mod_pos_bound sz 2 ltac:(lia)) as Hm.
    destruct (sz mod 2 =? 1) eqn:E.
    + exists 0, (sz / 2). split; [lia|]. split; [lia|]. split; [|f_equal; lia].
      change (2 ^ 0) with 1. lia.
    + destruct (IH (n + 1) (sz / 2) ltac:(lia)) as (t & q & Ht & Hq & Hsz' & Hrun).
      exists (t + 1), q. split; [lia|]. split; [lia|]. split.
      * rewrite Z.pow_add_r by lia. change (2 ^ 1) with 2. lia.
      * rewrite Hrun. f_equal. lia.
Qed.

Lemma odd_part_unique (t : nat) : forall (m : nat) q, 0 <= q ->
  2 ^ Z.of_nat t * (2 * q + 1) = 2 ^ Z.of_nat m -> q = 0 /\ t = m.
Proof.
  induction t as [|t IH]; intros m q Hq E.
  - change (2 ^ Z.of_nat 0) with 1 in E. destruct m as [|m].
    + change (2 ^ Z.of_nat 0) with 1 in E. split; [lia | reflexivity].
    + rewrite Nat2Z.inj_succ, Z.pow_succ_r in E by lia. lia.
  - rewrite Nat2Z.inj_succ, Z.pow_succ_r in E by lia. destruct m as [|m].
    + change (2 ^ Z.of_nat 0) with 1 in E.
      assert (0 < 2 ^ Z.of_nat t) by (apply Z.pow_pos_nonneg; lia). nia.
    + rewrite Nat2Z.inj_succ, Z.pow_succ_r in E by lia.
      destruct (IH m q Hq ltac:(lia)) as [-> ->]. split; reflexivity.
Qed.

Lemma interleaveXY_pow2 t : 0 <= t <= 12 -> interleaveXY (2 ^ t) 0 = 4 ^ t.
Proof.
  intros Ht.
  assert (H : t = 0 \/ t = 1 \/ t = 2 \/ t = 3 \/ t = 4 \/ t = 5 \/ t = 6 \/ t = 7 \/
              t = 8 \/ t = 9 \/ t = 10 \/ t = 11 \/ t = 12) by lia.
  repeat (destruct H as [-> | H]; [reflexivity|]). subst t. reflexivity.
Qed.

Lemma new_run (size0 : Z) : 0 <= size0 < 2 ^ 64 ->
  (size0 = 0 /\ GameField.new size0 = inl (invalid_argument "size needs to be power of 2")) \/
  (exists t q, 0 <= t < 64 /\ 0 <= q /\ size0 = 2 ^ t * (2 * q + 1) /\
     GameField.new size0 =
     if negb (q =? 0) then inl (invalid_argument "size needs to be power of 2")
     else if t >? 12 then inl (invalid_argument "size >4096 not supported")
     else inr (GameField.mk t (interleaveXY size0 0) (Z.shiftl (interleaveXY size0 0) 1)
                 (replicate (Z.to_nat (Z.shiftl 1 (Z.shiftl t 1))) Dead) size0 0)).
Proof.
  intros Hs. destruct (Z.eq_dec size0 0) as [->|Hne].
  - left. split; [reflexivity|]. unfold GameField.new. rewrite ctor_loop_zero. reflexivity.
  - right. destruct (ctor_loop_pos (Z.to_nat 64) 0 size0 ltac:(change (2 ^ Z.of_nat (Z.to_nat 64)) with (2 ^ 64); lia))
      as (t & q & Ht & Hq & Hsz & Hrun).
    exists t, q. split; [lia|]. split; [exact Hq|]. split; [exact Hsz|].
    unfold GameField.new. rewrite Hrun. rewrite Z.add_0_l.
    destruct (t =? 64) eqn:E; [lia|]. rewrite orb_false_l. reflexivity.
Qed.

Lemma pow2_unique t q m : 0 <= t -> 0 <= q -> 0 <= m ->
  2 ^ t * (2 * q + 1) = 2 ^ m -> q = 0 /\ t = m.
Proof.
  intros Ht Hq Hm E.
  destruct (odd_part_unique (Z.to_nat t) (Z.to_nat m) q Hq) as [-> H].
  - rewrite !Z2Nat.id by lia. exact E.
  - split; [reflexivity | lia].
Qed.

Lemma new_wf t : 0 <= t <= 12 ->
  wf (GameField.mk t (interleaveXY (2 ^ t) 0) (Z.shiftl (interleaveXY (2 ^ t) 0) 1)
        (replicate (Z.to_nat (Z.shiftl 1 (Z.shiftl t 1))) Dead) (2 ^ t) 0).
Proof.
  intros Ht. rewrite interleaveXY_pow2 by exact Ht.
  assert (H4 : 0 < 4 ^ t) by (apply Z.pow_pos_nonneg; lia).
  constructor; cbn [GameField.n GameField.size GameField.size_x GameField.size_y
                    GameField.cells GameField.idx]; try lia; try reflexivity.
  rewrite length_replicate, Z2Nat.id.
  - rewrite (Z.shiftl_mul_pow2 t 1) by lia. change (2 ^ 1) with 2.
    rewrite Z.shiftl_mul_pow2 by lia.
    rewrite Z.mul_1_l, Z.mul_comm, Z.pow_mul_r by lia. reflexivity.
  - rewrite (Z.shiftl_mul_pow2 t 1) by lia. change (2 ^ 1) with 2.
    rewrite Z.shiftl_mul_pow2 by lia. apply Z.mul_nonneg_nonneg; [lia|].
    apply Z.pow_nonneg. lia.
Qed.

(** C5. Construction of a grid of side [size0] throws exactly when
    [size0] is not a power of two or exceeds 4096; when it succeeds the
    field is well formed with [size0 * size0] cells, all [Dead]; and
    [openFile] on a file whose declared size is refused leaves the running
    machine (grid, size, contents, cursor) exactly as it was. *)
Theorem new_spec (size0 : Z) :
  0 <= size0 < 2 ^ 64 ->
  ((exists e, GameField.new size0 = inl e) <->
     (~ (exists m, 0 <= m /\ size0 = 2 ^ m) \/ size0 > 4096)) /\
  (forall f, GameField.new size0 = inr f ->
     wf f /\ GameField.size f = size0 /\ GameField.idx f = 0 /\
     GameField.cells f = replicate (Z.to_nat (size0 * size0)) Dead) /\
  (forall s idxs, wf (GameField.field s) -> (exists e, GameField.new size0 = inl e) ->
     Game.openFile (size0 :: idxs) s = Some (tt, s)).
Proof.
  intros Hs.
  assert (Hiff : (exists e, GameField.new size0 = inl e) <->
            (~ (exists m, 0 <= m /\ size0 = 2 ^ m) \/ size0 > 4096)).
  { destruct (new_run size0 Hs) as [[-> Hnew] | (t & q & Ht & Hq & Hsz & Hnew)].
    - split; [|intros _; eexists; exact Hnew].
      intros _. left. intros (m & Hm & E).
      assert (0 < 2 ^ m) by (apply Z.pow_pos_nonneg; lia). lia.
    - rewrite Hnew. destruct (q =? 0) eqn:Eq; cbn [negb].
      + assert (q = 0) by lia. subst q. rewrite Z.mul_0_r, Z.add_0_l, Z.mul_1_r in Hsz.
        destruct (t >? 12) eqn:Et.
        * split; [|intros _; eexists; reflexivity]. intros _. right. subst size0.
          change 4096 with (2 ^ 12). apply Z.lt_gt, Z.pow_lt_mono_r; lia.
        * split.
          -- intros [e He]. discriminate.
          -- intros [Hn | Hgt].
             ++ exfalso. apply Hn. exists t. split; [lia | exact Hsz].
             ++ exfalso. subst size0. assert (2 ^ t <= 2 ^ 12) by (apply Z.pow_le_mono_r; lia).
                change (2 ^ 12) with 4096 in *. lia.
      + split; [|intros _; eexists; reflexivity]. intros _. left. intros (m & Hm & E).
        rewrite E in Hsz. symmetry in Hsz.
        destruct (pow2_unique t q m ltac:(lia) Hq Hm Hsz). lia. }
  split; [exact Hiff|]. split.
  - intros f Hf. destruct (new_run size0 Hs) as [[-> Hnew] | (t & q & Ht & Hq & Hsz & Hnew)].
    + rewrite Hnew in Hf. discriminate.
    + rewrite Hnew in Hf. destruct (q =? 0) eqn:Eq; cbn [negb] in Hf; [|discriminate].
      destruct (t >? 12) eqn:Et; [discriminate|]. injection Hf as <-.
      assert (q = 0) by lia. subst q. rewrite Z.mul_0_r, Z.add_0_l, Z.mul_1_r in Hsz. subst size0.
      split; [apply new_wf; lia|]. split; [reflexivity|]. split; [reflexivity|].
      cbn [GameField.cells]. f_equal. f_equal.
      rewrite (Z.shiftl_mul_pow2 t 1) by lia. change (2 ^ 1) with 2.
      rewrite Z.shiftl_mul_pow2 by lia.
      rewrite Z.mul_1_l, <- Z.pow_add_r by lia. f_equal. lia.
  - intros s idxs Hwf [e He]. unfold Game.openFile.
    rewrite (bind_Some _ _ s (GameField.size (GameField.field s)) s eq_refl).
    destruct (size0 =? GameField.size (GameField.field s)) eqn:E.
    + exfalso. assert (size0 = GameField.size (GameField.field s)) by lia.
      pose proof (proj1 Hiff (ex_intro _ e He)) as Hbad. pose proof (size_bound _ Hwf).
      destruct Hbad as [Hn | Hgt]; [|lia].
      apply Hn. exists (GameField.n (GameField.field s)).
      split; [apply Hwf | rewrite <- (wf_size _ Hwf); assumption].
    + cbn [negb]. rewrite He. reflexivity.
Qed.

Lemma new_spec_witness :
  ((exists e, GameField.new 3 = inl e) <->
     (~ (exists m, 0 <= m /\ 3 = 2 ^ m) \/ 3 > 4096)) /\
  (forall f, GameField.new 3 = inr f ->
     wf f /\ GameField.size f = 3 /\ GameField.idx f = 0 /\
     GameField.cells f = replicate (Z.to_nat (3 * 3)) Dead) /\
  (forall s idxs, wf (GameField.field s) -> (exists e, GameField.new 3 = inl e) ->
     Game.openFile (3 :: idxs) s = Some (tt, s)).
Proof. apply (new_spec 3). lia. Defined.

(** ** Saving and loading *)

Lemma cells_ext f f' :
  length (GameField.cells f) = length (GameField.cells f') ->
  (forall k, 0 <= k < Z.of_nat (length (GameField.cells f)) -> cell f k = cell f' k) ->
  GameField.cells f = GameField.cells f'.
Proof.
  intros Hl Hc. apply list_eq. intros j.
  destruct (Nat.lt_ge_cases j (length (GameField.cells f))) as [Hj | Hj].
  - specialize (Hc (Z.of_nat j) ltac:(lia)).
    rewrite <- (Nat2Z.id j).
    rewrite !lookup_cell by lia. f_equal. exact Hc.
  - rewrite !(proj2 (lookup_ge_None _ _)) by lia. reflexivity.
Qed.

Lemma logged_logged es es' s : logged es' (logged es s) = logged (es ++ es') s.
Proof. unfold logged. cbn [GameField.field GameField.trace]. rewrite app_assoc. reflexivity. Qed.

Lemma collect_alive_run (count : nat) : forall i vec s,
  0 <= i ->
  i + Z.of_nat count <= Z.of_nat (length (GameField.cells (GameField.field s))) ->
  Game.collect_alive count i vec s
  = Some (vec ++ List.filter (fun k => cell (GameField.field s) k =? Alive)
                             (seqZ i (Z.of_nat count)),
          logged (map EvRead (seqZ i (Z.of_nat count))) s).
Proof.
  induction count as [|count IH]; intros i vec s Hi Hlen.
  - cbn [Game.collect_alive]. change (seqZ i (Z.of_nat 0)) with (@nil Z).
    cbn [List.filter map]. unfold ret, logged. rewrite !app_nil_r. destruct s; reflexivity.
  - cbn [Game.collect_alive].
    rewrite (bind_Some _ _ _ _ _ (read_cell_run s i ltac:(lia))).
    rewrite IH by (unfold logged; cbn [GameField.field]; lia).
    rewrite (seqZ_cons i (Z.of_nat (S count))) by lia.
    replace (Z.pred (Z.of_nat (S count))) with (Z.of_nat count) by lia.
    replace (Z.succ i) with (i + 1) by lia.
    cbn [List.filter map]. rewrite logged_logged. cbn [logged GameField.field].
    destruct (cell (GameField.field s) i =? Alive).
    + rewrite <- app_assoc. reflexivity.
    + reflexivity.
Qed.

Lemma u32_size f : wf f -> u32 (GameField.size f) = GameField.size f.
Proof. intros Hwf. pose proof (size_bound f Hwf). apply Z.mod_small. lia. Qed.

Lemma square_cells f : wf f ->
  GameField.size f * GameField.size f = Z.of_nat (length (GameField.cells f)).
Proof.
  intros Hwf. rewrite (wf_cells _ Hwf), (wf_size _ Hwf).
  replace 4 with (2 * 2) by reflexivity. rewrite Z.pow_mul_l. reflexivity.
Qed.

Lemma cells_bound f : wf f -> Z.of_nat (length (GameField.cells f)) <= 2 ^ 24.
Proof.
  intros Hwf. rewrite (wf_cells _ Hwf). change (2 ^ 24) with (4 ^ 12).
  apply Z.pow_le_mono_r; [lia | apply Hwf].
Qed.

Theorem saveFile_run s : wf (GameField.field s) ->
  exists s', Game.saveFile s
             = Some (GameField.size (GameField.field s) :: alive_indices (GameField.field s), s')
             /\ GameField.field s' = GameField.field s.
Proof.
  intros Hwf. unfold Game.saveFile.
  rewrite (bind_Some _ _ _ _ _ (gets_run GameField.size s)).
  pose proof (cells_bound _ Hwf) as Hb.
  rewrite (square_cells _ Hwf), (u32_size _ Hwf).
  unfold u32 at 1. rewrite Z.mod_small by lia. rewrite Nat2Z.id.
  rewrite collect_alive_run by lia.
  eexists. split; reflexivity.
Qed.

(** A pass that rewrites each cell of a range by a function of its code. *)
Lemma pass_pointwise (post : Z -> GameField.machine -> GameField.machine) (g : Z -> Z) :
  (forall k s, length (GameField.cells (GameField.field (post k s)))
               = length (GameField.cells (GameField.field s))) ->
  (forall k s k', 0 <= k < Z.of_nat (length (GameField.cells (GameField.field s))) ->
     0 <= k' ->
     cell (GameField.field (post k s)) k'
     = if k' =? k then g (cell (GameField.field s) k) else cell (GameField.field s) k') ->
  forall (count : nat) i s k',
    0 <= i -> i + Z.of_nat count <= Z.of_nat (length (GameField.cells (GameField.field s))) ->
    0 <= k' ->
    cell (GameField.field (pass post (seqZ i (Z.of_nat count)) s)) k'
    = if (i <=? k') && (k' <? i + Z.of_nat count)
      then g (cell (GameField.field s) k') else cell (GameField.field s) k'.
Proof.
  intros Hlen Hcell.
  induction count as [|count IH]; intros i s k' Hi Hr Hk'.
  - change (Z.of_nat 0) with 0. change (seqZ i 0) with (@nil Z). cbn [pass fold_left].
    destruct ((i <=? k') && (k' <? i + 0)) eqn:E; [lia | reflexivity].
  - rewrite seqZ_cons by lia.
    replace (Z.pred (Z.of_nat (S count))) with (Z.of_nat count) by lia.
    replace (Z.succ i) with (i + 1) by lia.
    rewrite pass_cons, IH by (rewrite ?Hlen; lia).
    rewrite Hcell by lia.
    destruct (k' =? i) eqn:E.
    + assert (k' = i) by lia. subst k'.
      destruct ((i + 1 <=? i) && (i <? i + 1 + Z.of_nat count)) eqn:E1; [lia|].
      destruct ((i <=? i) && (i <? i + Z.of_nat (S count))) eqn:E2; [reflexivity | lia].
    + destruct ((i + 1 <=? k') && (k' <? i + 1 + Z.of_nat count)) eqn:E1;
        destruct ((i <=? k') && (k' <? i + Z.of_nat (S count))) eqn:E2; (reflexivity || lia).
Qed.

Lemma length_wrote k v s :
  length (GameField.cells (GameField.field (wrote k v s)))
  = length (GameField.cells (GameField.field s)).
Proof. destruct (shape_wrote k v s) as (_&_&_&_&H). exact H. Qed.

Theorem clear_run s : wf (GameField.field s) ->
  exists s', GameField.clear s = Some (tt, s') /\ shaped (GameField.field s) s' /\
    GameField.idx (GameField.field s') = GameField.idx (GameField.field s) /\
    forall k, 0 <= k < Z.of_nat (length (GameField.cells (GameField.field s))) ->
      cell (GameField.field s') k = Dead.
Proof.
  intros Hwf. unfold GameField.clear.
  rewrite (bind_Some _ _ _ _ _ (gets_run GameField.size s)).
  pose proof (cells_bound _ Hwf) as Hb.
  rewrite (square_cells _ Hwf). unfold u64. rewrite Z.mod_small by lia. rewrite Nat2Z.id.
  set (len := length (GameField.cells (GameField.field s))).
  destruct (for_each_pass (fun i => GameField.write_cell i Dead) (fun k u => wrote k Dead u)
              (fun u => shaped (GameField.field s) u /\
                        GameField.idx (GameField.field u) = GameField.idx (GameField.field s))
              (Z.of_nat len)) with (count := len) (i := 0) (s := s) as [Hrun [HP Hidx]].
  - intros k u [[Hwfu Hsh] Hi] Hk. split.
    + apply write_cell_run. destruct Hsh as (_&_&_&_&Hl). rewrite Hl. exact Hk.
    + split; [|exact Hi]. split; [apply wf_wrote, Hwfu|].
      apply (same_shape_trans _ _ _ Hsh), shape_wrote.
  - split; [split; [exact Hwf | apply same_shape_refl] | reflexivity].
  - lia.
  - lia.
  - rewrite (bind_Some _ _ _ _ _ Hrun). eexists. split; [reflexivity|].
    split; [exact HP|]. split; [exact Hidx|].
    intros k Hk.
    rewrite (pass_pointwise (fun k u => wrote k Dead u) (fun _ => Dead)); try lia.
    + destruct ((0 <=? k) && (k <? 0 + Z.of_nat len)) eqn:E; [reflexivity | lia].
    + intros k0 u. apply length_wrote.
    + intros k0 u k' Hk0 Hk'. apply cell_insert; assumption.
Qed.

Lemma setAlive_loop_run (idxs : list Z) : forall s,
  wf (GameField.field s) -> Forall (fun i => 0 <= i) idxs ->
  let len := Z.of_nat (length (GameField.cells (GameField.field s))) in
  GameField.setAlive_loop len idxs s = Some (tt, pass (marked_alive len) idxs s)
  /\ shaped (GameField.field s) (pass (marked_alive len) idxs s)
  /\ GameField.idx (GameField.field (pass (marked_alive len) idxs s))
     = GameField.idx (GameField.field s)
  /\ forall k, 0 <= k < len ->
       cell (GameField.field (pass (marked_alive len) idxs s)) k
       = if bool_decide (k ∈ idxs) then Alive else cell (GameField.field s) k.
Proof.
  induction idxs as [|i idxs IH]; intros s Hwf Hpos len.
  - split; [reflexivity|]. split; [split; [exact Hwf | apply same_shape_refl]|].
    split; [reflexivity|]. intros k Hk.
    rewrite bool_decide_eq_false_2 by apply not_elem_of_nil. reflexivity.
  - apply Forall_cons in Hpos as [Hi Hpos].
    cbn [GameField.setAlive_loop]. rewrite pass_cons.
    set (s1 := marked_alive len i s).
    assert (Hstep : (if i <? len then GameField.write_cell i Alive else ret tt) s = Some (tt, s1)).
    { unfold s1, marked_alive. destruct (i <? len) eqn:E; [|reflexivity].
      apply write_cell_run. fold len. lia. }
    assert (Hwf1 : wf (GameField.field s1)).
    { unfold s1, marked_alive. destruct (i <? len); [apply wf_wrote, Hwf | exact Hwf]. }
    assert (Hsh1 : same_shape (GameField.field s) (GameField.field s1)).
    { unfold s1, marked_alive. destruct (i <? len); [apply shape_wrote | apply same_shape_refl]. }
    assert (Hlen1 : Z.of_nat (length (GameField.cells (GameField.field s1))) = len).
    { destruct Hsh1 as (_&_&_&_&Hl). rewrite Hl. reflexivity. }
    rewrite (bind_Some _ _ _ _ _ Hstep).
    destruct (IH s1 Hwf1 Hpos) as (Hrun & [Hwf2 Hsh2] & Hidx & Hcell).
    rewrite Hlen1 in Hrun, Hwf2, Hsh2, Hidx, Hcell.
    split; [exact Hrun|]. split; [split; [exact Hwf2 | apply (same_shape_trans _ _ _ Hsh1 Hsh2)]|].
    split.
    + rewrite Hidx. unfold s1, marked_alive. destruct (i <? len); reflexivity.
    + intros k Hk. rewrite Hcell by exact Hk.
      destruct (bool_decide (k ∈ idxs)) eqn:Ein.
      * apply bool_decide_eq_true in Ein.
        rewrite bool_decide_eq_true_2 by (right; exact Ein). reflexivity.
      * apply bool_decide_eq_false in Ein.
        unfold s1, marked_alive. destruct (i <? len) eqn:Elt.
        -- unfold wrote. cbn [GameField.field]. rewrite cell_insert by (fold len; lia).
           destruct (k =? i) eqn:Eki.
           ++ assert (k = i) by lia. subst k.
              rewrite bool_decide_eq_true_2 by (left; reflexivity). reflexivity.
           ++ rewrite bool_decide_eq_false_2; [reflexivity|].
              rewrite elem_of_cons. intros [? | ?]; [lia | contradiction].
        -- rewrite bool_decide_eq_false_2; [reflexivity|].
           rewrite elem_of_cons. intros [? | ?]; [lia | contradiction].
Qed.

Theorem setAlive_run s idxs :
  wf (GameField.field s) -> Forall (fun i => 0 <= i) idxs ->
  exists s', GameField.setAlive idxs s = Some (tt, s') /\ shaped (GameField.field s) s' /\
    GameField.idx (GameField.field s') = GameField.idx (GameField.field s) /\
    forall k, 0 <= k < Z.of_nat (length (GameField.cells (GameField.field s))) ->
      cell (GameField.field s') k
      = if bool_decide (k ∈ idxs) then Alive else cell (GameField.field s) k.
Proof.
  intros Hwf Hpos. unfold GameField.setAlive.
  rewrite (bind_Some _ _ _ _ _ (gets_run GameField.size s)).
  pose proof (cells_bound _ Hwf) as Hb.
  rewrite (square_cells _ Hwf). unfold u64. rewrite Z.mod_small by lia.
  destruct (setAlive_loop_run idxs s Hwf Hpos) as (Hrun & Hsh & Hidx & Hcell).
  eexists. split; [exact Hrun|]. split; [exact Hsh|]. split; [exact Hidx | exact Hcell].
Qed.

Lemma alive_indices_spec f k : 
  k ∈ alive_indices f <->
  0 <= k < Z.of_nat (length (GameField.cells f)) /\ cell f k = Alive.
Proof.
  unfold alive_indices. rewrite list_elem_of_In, filter_In, <- list_elem_of_In, elem_of_seqZ.
  lia.
Qed.

Lemma alive_indices_pos f : Forall (fun i => 0 <= i) (alive_indices f).
Proof.
  apply Forall_forall. intros k Hk. apply alive_indices_spec in Hk. lia.
Qed.

(** C9. Saving a grid of [Dead] and [Alive] cells gives the size followed
    by the indices of the alive cells, and leaves the grid as it is;
    loading these words into any grid of the same size gives a grid with
    exactly the cells of the saved one: the same alive positions, every
    other cell [Dead]. *)
Theorem save_load_roundtrip (s g : GameField.machine) :
  wf (GameField.field s) -> settled (GameField.field s) ->
  wf (GameField.field g) ->
  GameField.size (GameField.field g) = GameField.size (GameField.field s) ->
  exists s' g',
    Game.saveFile s
      = Some (GameField.size (GameField.field s) :: alive_indices (GameField.field s), s') /\
    GameField.field s' = GameField.field s /\
    Game.openFile (GameField.size (GameField.field s) :: alive_indices (GameField.field s)) g
      = Some (tt, g') /\
    GameField.cells (GameField.field g') = GameField.cells (GameField.field s) /\
    GameField.size (GameField.field g') = GameField.size (GameField.field s) /\
    (forall x y, alive_at (GameField.field g') x y = alive_at (GameField.field s) x y).
Proof.
  intros Hwf Hset Hwfg Hsize.
  destruct (saveFile_run s Hwf) as (s' & Hsave & Hs').
  exists s'.
  assert (Hlen : length (GameField.cells (GameField.field g))
                 = length (GameField.cells (GameField.field s))).
  { pose proof (square_cells _ Hwf). pose proof (square_cells _ Hwfg). rewrite Hsize in *. lia. }
  destruct (clear_run g Hwfg) as (g1 & Hclear & [Hwf1 Hsh1] & _ & Hdead).
  assert (Hlen1 : length (GameField.cells (GameField.field g1))
                  = length (GameField.cells (GameField.field s))).
  { destruct Hsh1 as (_&_&_&_&Hl). rewrite Hl. exact Hlen. }
  destruct (setAlive_run g1 (alive_indices (GameField.field s)) Hwf1 (alive_indices_pos _))
    as (g2 & Hset2 & [Hwf2 Hsh2] & _ & Hcell).
  assert (Hlen2 : length (GameField.cells (GameField.field g2))
                  = length (GameField.cells (GameField.field s))).
  { destruct Hsh2 as (_&_&_&_&Hl). rewrite Hl. exact Hlen1. }
  assert (Hcells : GameField.cells (GameField.field g2) = GameField.cells (GameField.field s)).
  { apply cells_ext; [exact Hlen2|]. intros k Hk.
    rewrite Hcell by lia. rewrite Hdead by lia.
    destruct (bool_decide (k ∈ alive_indices (GameField.field s))) eqn:E.
    - apply bool_decide_eq_true in E. apply alive_indices_spec in E. symmetry. apply E.
    - apply bool_decide_eq_false in E.
      destruct (cell0_cases _ Hset k) as [E0 | E0]; [symmetry; exact E0|].
      exfalso. apply E. apply alive_indices_spec. split; [lia | exact E0]. }
  assert (Hsz2 : GameField.size (GameField.field g2) = GameField.size (GameField.field s)).
  { destruct Hsh2 as (_ & Hz2 & _). destruct Hsh1 as (_ & Hz1 & _). congruence. }
  exists g2. split; [exact Hsave|]. split; [exact Hs'|]. split.
  - unfold Game.openFile.
    rewrite (bind_Some _ _ _ _ _ (gets_run GameField.size g)).
    rewrite Hsize, Z.eqb_refl. cbn [negb].
    rewrite (bind_Some _ _ _ _ _ Hclear). exact Hset2.
  - split; [exact Hcells|]. split; [exact Hsz2|].
    intros x y. unfold alive_at, cell. rewrite Hcells, Hsz2. reflexivity.
Qed.

Lemma save_load_roundtrip_witness :
  exists s' g',
    Game.saveFile (GameField.Machine blinker4 []) = Some (4 :: alive_indices blinker4, s') /\
    GameField.field s' = blinker4 /\
    Game.openFile (4 :: alive_indices blinker4)
      (GameField.Machine (GameField.mk 2 16 32 (replicate 16 Alive) 4 5) []) = Some (tt, g') /\
    GameField.cells (GameField.field g') = GameField.cells blinker4 /\
    GameField.size (GameField.field g') = 4 /\
    (forall x y, alive_at (GameField.field g') x y = alive_at blinker4 x y).
Proof.
  apply (save_load_roundtrip (GameField.Machine blinker4 [])
           (GameField.Machine (GameField.mk 2 16 32 (replicate 16 Alive) 4 5) [])).
  - exact wf_blinker4.
  - exact settled_blinker4.
  - constructor; cbn; lia.
  - reflexivity.
Defined.

(** ** One tick is one generation *)

Lemma scan_order_spec f k :
  In k (scan_order f) <-> 0 <= k < Z.of_nat (length (GameField.cells f)).
Proof. unfold scan_order. rewrite <- list_elem_of_In, elem_of_seqZ. lia. Qed.

Lemma tick_with_run (s : GameField.machine) (order : list Z) :
  wf (GameField.field s) -> settled (GameField.field s) ->
  (forall k, In k order <-> 0 <= k < Z.of_nat (length (GameField.cells (GameField.field s)))) ->
  let s' := pass committed (scan_order (GameField.field s)) (pass evaluated order s) in
  tick_with order s = Some (tt, s') /\ shaped (GameField.field s) s' /\
  forall x y, in_grid (GameField.size (GameField.field s)) x y = true ->
    cell (GameField.field s') (interleaveXY x y)
    = if life_next (GameField.field s) x y then Alive else Dead.
Proof.
  intros Hwf Hset Horder. destruct s as [f0 t]. cbn [GameField.field] in *.
  destruct (pass_evaluated_Inv f0 Hwf Hset order (GameField.Machine f0 t)
              (Inv_start f0 Hwf t) (Marked_start f0 Hset t)
              (fun k Hk => proj1 (Horder k) Hk)) as ([[Hwf1 Hsh1] _] & _).
  set (s1 := pass evaluated order (GameField.Machine f0 t)) in *.
  assert (Hl1 : length (GameField.cells (GameField.field s1)) = length (GameField.cells f0)).
  { destruct Hsh1 as (_&_&_&_&Hl). exact Hl. }
  assert (Ho : scan_order (GameField.field s1) = scan_order f0).
  { unfold scan_order. rewrite Hl1. reflexivity. }
  cbv zeta. rewrite <- Ho.
  split; [|split].
  - unfold tick_with.
    rewrite (bind_Some _ _ _ _ _ (evaluate_order_run order (GameField.Machine f0 t) Hwf
                                    (fun k Hk => proj1 (Horder k) Hk))).
    apply commit_pass_run, Hwf1.
  - destruct (rows_commit_run s1 Hwf1) as [_ [Hwf2 Hsh2]].
    split; [exact Hwf2 | apply (same_shape_trans _ _ _ Hsh1 Hsh2)].
  - intros x y Hin. rewrite commit_pass_cells by (rewrite Hl1; apply in_grid_key; assumption).
    apply tick_cells; assumption.
Qed.

Lemma settled_cells f :
  (forall k, 0 <= k < Z.of_nat (length (GameField.cells f)) ->
     cell f k = Dead \/ cell f k = Alive) -> settled f.
Proof.
  intros H. apply Forall_lookup. intros j c Hj.
  pose proof (lookup_lt_Some _ _ _ Hj) as Hlt.
  specialize (H (Z.of_nat j) ltac:(lia)). unfold cell in H.
  rewrite Nat2Z.id, Hj in H. exact H.
Qed.

(** C1. On a grid of [Dead] and [Alive] cells [simulationTick] returns the
    next generation of the Game of Life on the bounded board: afterwards a
    cell is [Alive] exactly when it was [Alive] with 2 or 3 alive
    neighbours or [Dead] with exactly 3, neighbours off the board counting
    as dead, and every other cell is [Dead]; a tick whose evaluate pass
    enumerates the cells in any other order ends with the same cells. *)
Theorem simulationTick_life (s : GameField.machine) (order : list Z) :
  wf (GameField.field s) -> settled (GameField.field s) ->
  Permutation order (scan_order (GameField.field s)) ->
  exists s_tick s_order,
    Game.simulationTick s = Some (tt, s_tick) /\
    tick_with order s = Some (tt, s_order) /\
    GameField.cells (GameField.field s_order) = GameField.cells (GameField.field s_tick) /\
    same_shape (GameField.field s) (GameField.field s_tick) /\
    settled (GameField.field s_tick) /\
    forall x y, in_grid (GameField.size (GameField.field s)) x y = true ->
      alive_at (GameField.field s_tick) x y
      = (if alive_at (GameField.field s) x y
         then (neighbours_alive (GameField.field s) x y =? 2)
              || (neighbours_alive (GameField.field s) x y =? 3)
         else neighbours_alive (GameField.field s) x y =? 3).
Proof.
  intros Hwf Hset Hperm.
  assert (Hscan : forall k, In k (scan_order (GameField.field s)) <->
            0 <= k < Z.of_nat (length (GameField.cells (GameField.field s))))
    by (intros k; apply scan_order_spec).
  assert (Horder : forall k, In k order <->
            0 <= k < Z.of_nat (length (GameField.cells (GameField.field s)))).
  { intros k. rewrite <- Hscan. split; apply Permutation_in; [exact Hperm | symmetry; exact Hperm]. }
  destruct (tick_with_run s _ Hwf Hset Hscan) as (_ & [Hwf1 Hsh1] & Hc1).
  destruct (tick_with_run s order Hwf Hset Horder) as (Hrun2 & [Hwf2 Hsh2] & Hc2).
  destruct (simulationTick_run s Hwf) as [Hrun1 _]. unfold ticked in Hrun1.
  set (s1 := pass committed _ (pass evaluated (scan_order _) s)) in *.
  set (s2 := pass committed _ (pass evaluated order s)) in *.
  assert (Hcell : forall s', same_shape (GameField.field s) (GameField.field s') ->
            (forall x y, in_grid (GameField.size (GameField.field s)) x y = true ->
               cell (GameField.field s') (interleaveXY x y)
               = if life_next (GameField.field s) x y then Alive else Dead) ->
            forall k, 0 <= k < Z.of_nat (length (GameField.cells (GameField.field s))) ->
              cell (GameField.field s') k
              = if life_next (GameField.field s) (morton_x 16 k) (morton_y 16 k)
                then Alive else Dead).
  { intros s' Hsh Hc k Hk. destruct (index_on_grid _ k Hwf Hk) as (_ & Hkey & Hx & Hy).
    rewrite <- Hkey at 1. apply Hc. apply in_grid_spec. lia. }
  exists s1, s2. split; [exact Hrun1|]. split; [exact Hrun2|]. split; [|split; [exact Hsh1|split]].
  - apply cells_ext.
    + destruct Hsh1 as (_&_&_&_&Hl1). destruct Hsh2 as (_&_&_&_&Hl2). congruence.
    + intros k Hk. destruct Hsh2 as (Hn2&Hz2&Hx2&Hy2&Hl2). rewrite Hl2 in Hk.
      rewrite (Hcell s1 Hsh1 Hc1 k Hk), (Hcell s2 (conj Hn2 (conj Hz2 (conj Hx2 (conj Hy2 Hl2)))) Hc2 k Hk).
      reflexivity.
  - apply settled_cells. intros k Hk. destruct Hsh1 as (Hn1&Hz1&Hx1&Hy1&Hl1). rewrite Hl1 in Hk.
    rewrite (Hcell s1 (conj Hn1 (conj Hz1 (conj Hx1 (conj Hy1 Hl1)))) Hc1 k Hk).
    destruct (life_next _ _ _); [right | left]; reflexivity.
  - intros x y Hin. unfold alive_at at 1.
    destruct Hsh1 as (_ & Hz1 & _). rewrite Hz1, Hin, (Hc1 x y Hin).
    unfold life_next. destruct (if alive_at _ x y then _ else _); reflexivity.
Qed.

Lemma simulationTick_life_witness :
  exists s_tick s_order,
    Game.simulationTick (GameField.Machine blinker4 []) = Some (tt, s_tick) /\
    tick_with (rev (scan_order blinker4)) (GameField.Machine blinker4 []) = Some (tt, s_order) /\
    GameField.cells (GameField.field s_order) = GameField.cells (GameField.field s_tick) /\
    same_shape blinker4 (GameField.field s_tick) /\
    settled (GameField.field s_tick) /\
    forall x y, in_grid 4 x y = true ->
      alive_at (GameField.field s_tick) x y
      = (if alive_at blinker4 x y
         then (neighbours_alive blinker4 x y =? 2) || (neighbours_alive blinker4 x y =? 3)
         else neighbours_alive blinker4 x y =? 3).
Proof.
  apply (simulationTick_life (GameField.Machine blinker4 []) (rev (scan_order blinker4))).
  - exact wf_blinker4.
  - exact settled_blinker4.
  - symmetry. apply Permutation_rev.
Defined.

(** ** No access outside the array *)

Lemma steps_total (ds : list (direction * Z)) : forall s,
  wf (GameField.field s) ->
  exists vs s', steps ds s = Some (vs, s') /\ wf (GameField.field s') /\
    GameField.cells (GameField.field s') = GameField.cells (GameField.field s).
Proof.
  induction ds as [|[d mask] ds IH]; intros s Hwf.
  - exists [], s. split; [reflexivity | split; [exact Hwf | reflexivity]].
  - destruct (step_total d mask s Hwf) as (v & s1 & Hstep & Hwf1 & Hc1 & _).
    destruct (IH s1 Hwf1) as (vs & s2 & Hrest & Hwf2 & Hc2).
    exists (v :: vs), s2. cbn [steps].
    rewrite (bind_Some _ _ _ _ _ Hstep), (bind_Some _ _ _ _ _ Hrest).
    split; [reflexivity|]. split; [exact Hwf2 | congruence].
Qed.

Lemma read_cell_in_bounds u k c u' :
  GameField.read_cell k u = Some (c, u') ->
  0 <= k < Z.of_nat (length (GameField.cells (GameField.field u))).
Proof.
  unfold GameField.read_cell. destruct (0 <=? k) eqn:E; [|discriminate].
  destruct (GameField.cells (GameField.field u) !! Z.to_nat k) as [c'|] eqn:El; [|discriminate].
  intros _. apply lookup_lt_Some in El. lia.
Qed.

Lemma write_cell_in_bounds u k v u' :
  GameField.write_cell k v u = Some (tt, u') ->
  0 <= k < Z.of_nat (length (GameField.cells (GameField.field u))).
Proof.
  unfold GameField.write_cell.
  destruct ((0 <=? k) && (k <? Z.of_nat (length (GameField.cells (GameField.field u))))) eqn:E;
    [|discriminate].
  intros _. lia.
Qed.

Ltac decide_in_grid :=
  repeat match goal with
  | |- context [in_grid ?N ?a ?b] =>
      let E := fresh "E" in
      destruct (in_grid N a b) eqn:E; unfold in_grid in E; try lia; clear E
  end.

Lemma corner_walk f x y : wf f -> 2 <= GameField.size f ->
  x = 0 \/ x = GameField.size f - 1 -> y = 0 \/ y = GameField.size f - 1 ->
  (exists r1 r2 r3, walk_ev f x y = [EvRead r1; EvRead r2; EvRead r3] /\
     (0 <= r1 < Z.of_nat (length (GameField.cells f))) /\
     (0 <= r2 < Z.of_nat (length (GameField.cells f))) /\
     (0 <= r3 < Z.of_nat (length (GameField.cells f)))) /\
  length (List.filter (fun p => negb (on_grid f (fst p) (snd p))) (walk x y)) = 5%nat.
Proof.
  intros Hwf H2 Hx Hy. pose proof (size_bound f Hwf) as HN.
  assert (Hkey : forall a b, in_grid (GameField.size f) a b = true ->
            0 <= interleaveXY a b < Z.of_nat (length (GameField.cells f))).
  { intros a b. apply in_grid_key, Hwf. }
  unfold walk_ev, walk, probe_ev. cbn [flat_map List.filter fst snd].
  rewrite !(on_grid_in_grid f) by (exact Hwf || lia).
  destruct Hx as [-> | ->]; destruct Hy as [-> | ->].
  - pose proof (Hkey 0 (0 + 1)) as K1. pose proof (Hkey (0 + 1) (0 + 1)) as K2.
    pose proof (Hkey (0 + 1) 0) as K3. revert K1 K2 K3.
    decide_in_grid. intros K1 K2 K3. cbn. split; [|reflexivity].
    do 3 eexists. split; [reflexivity|]. auto.
  - set (N := GameField.size f) in *.
    pose proof (Hkey 0 (N - 1 - 1)) as K1. pose proof (Hkey (0 + 1) (N - 1)) as K2.
    pose proof (Hkey (0 + 1) (N - 1 - 1)) as K3. revert K1 K2 K3.
    decide_in_grid. intros K1 K2 K3. cbn. split; [|reflexivity].
    do 3 eexists. split; [reflexivity|]. auto.
  - set (N := GameField.size f) in *.
    pose proof (Hkey (N - 1 - 1) 0) as K1. pose proof (Hkey (N - 1 - 1) (0 + 1)) as K2.
    pose proof (Hkey (N - 1) (0 + 1)) as K3. revert K1 K2 K3.
    decide_in_grid. intros K1 K2 K3. cbn. split; [|reflexivity].
    do 3 eexists. split; [reflexivity|]. auto.
  - set (N := GameField.size f) in *.
    pose proof (Hkey (N - 1) (N - 1 - 1)) as K1. pose proof (Hkey (N - 1 - 1) (N - 1 - 1)) as K2.
    pose proof (Hkey (N - 1 - 1) (N - 1)) as K3. revert K1 K2 K3.
    decide_in_grid. intros K1 K2 K3. cbn. split; [|reflexivity].
    do 3 eexists. split; [reflexivity|]. auto.
Qed.

(** C6, as amended. From every well-formed field, whatever the cursor and
    the cell contents, every sequence of cursor steps, every
    [countAliveNeighbors] and every [simulationTick] runs to its end, which
    an access outside the array would prevent (reads and writes succeed
    only inside [0, N*N)); a step whose destination is off the grid returns
    the sentinel [DeadVisited & mask] and reads nothing; and on a grid of
    side at least 2 the neighbour walk from a corner reads exactly 3 cells,
    all inside the array, the 5 other positions being off the grid. *)
Theorem bounds_safety (s : GameField.machine) :
  wf (GameField.field s) ->
  (forall ds, exists vs s', steps ds s = Some (vs, s') /\ wf (GameField.field s') /\
     GameField.cells (GameField.field s') = GameField.cells (GameField.field s)) /\
  (forall d mask x y, GameField.idx (GameField.field s) = interleaveXY x y ->
     on_grid (GameField.field s) (fst (target d x y)) (snd (target d x y)) = false ->
     exists s', step d mask s = Some (u8 (Z.land DeadVisited mask), s') /\
       GameField.trace s' = GameField.trace s /\
       GameField.cells (GameField.field s') = GameField.cells (GameField.field s)) /\
  (exists c s', GameField.countAliveNeighbors s = Some (c, s') /\
     GameField.field s' = GameField.field s) /\
  (exists s', Game.simulationTick s = Some (tt, s') /\
     same_shape (GameField.field s) (GameField.field s')) /\
  (forall u k c u', GameField.read_cell k u = Some (c, u') ->
     0 <= k < Z.of_nat (length (GameField.cells (GameField.field u)))) /\
  (forall u k v u', GameField.write_cell k v u = Some (tt, u') ->
     0 <= k < Z.of_nat (length (GameField.cells (GameField.field u)))) /\
  (2 <= GameField.size (GameField.field s) ->
   forall x y,
     x = 0 \/ x = GameField.size (GameField.field s) - 1 ->
     y = 0 \/ y = GameField.size (GameField.field s) - 1 ->
     GameField.idx (GameField.field s) = interleaveXY x y ->
     exists c s' r1 r2 r3,
       GameField.countAliveNeighbors s = Some (c, s') /\
       GameField.trace s' = GameField.trace s ++ [EvRead r1; EvRead r2; EvRead r3] /\
       (0 <= r1 < Z.of_nat (length (GameField.cells (GameField.field s)))) /\
       (0 <= r2 < Z.of_nat (length (GameField.cells (GameField.field s)))) /\
       (0 <= r3 < Z.of_nat (length (GameField.cells (GameField.field s)))) /\
       length (List.filter (fun p => negb (on_grid (GameField.field s) (fst p) (snd p)))
                           (walk x y)) = 5%nat).
Proof.
  intros Hwf. split; [|split; [|split; [|split; [|split; [|split]]]]].
  - intros ds. apply steps_total, Hwf.
  - intros d mask x y Hidx Hoff.
    pose proof (step_run d mask s x y Hwf Hidx) as Hrun.
    unfold probe_val in Hrun. rewrite Hoff in Hrun.
    eexists. split; [exact Hrun|]. split; [|reflexivity].
    unfold moved, probe_ev. rewrite Hoff. cbn [GameField.trace]. apply app_nil_r.
  - pose proof (countAliveNeighbors_run s _ _ Hwf (cursor_coords _ Hwf)) as Hrun.
    eexists. eexists. split; [exact Hrun | reflexivity].
  - destruct (simulationTick_run s Hwf) as [Hrun [_ Hsh]].
    eexists. split; [exact Hrun | exact Hsh].
  - apply read_cell_in_bounds.
  - apply write_cell_in_bounds.
  - intros H2 x y Hx Hy Hidx.
    destruct (corner_walk _ x y Hwf H2 Hx Hy) as [(r1 & r2 & r3 & Hev & Hr1 & Hr2 & Hr3) Hoff].
    exists (walk_sum (GameField.field s) x y), (logged (walk_ev (GameField.field s) x y) s), r1, r2, r3.
    split; [apply countAliveNeighbors_run; assumption|].
    split; [unfold logged; cbn [GameField.trace]; rewrite Hev; reflexivity|].
    repeat split; (lia || exact Hoff).
Qed.

Lemma bounds_safety_witness :
  exists c s' r1 r2 r3,
    GameField.countAliveNeighbors (GameField.Machine blinker4 []) = Some (c, s') /\
    GameField.trace s' = [] ++ [EvRead r1; EvRead r2; EvRead r3] /\
    (0 <= r1 < 16) /\ (0 <= r2 < 16) /\ (0 <= r3 < 16) /\
    length (List.filter (fun p => negb (on_grid blinker4 (fst p) (snd p))) (walk 0 0)) = 5%nat.
Proof.
  destruct (bounds_safety (GameField.Machine blinker4 []) wf_blinker4)
    as (_ & _ & _ & _ & _ & _ & H).
  apply (H ltac:(cbn; lia) 0 0); [left; reflexivity | left; reflexivity | reflexivity].
Defined.

Lemma wf_single1 : wf single1.
Proof. constructor; cbn; lia. Qed.

(** C6, counterexample. The 1x1 grid is a grid the constructor builds; its
    only cell is at a corner, and the neighbour walk from it reads no cell
    at all: all 8 positions are off the grid, not 5. *)
Lemma corner_of_single_cell_grid :
  GameField.new 1 = inr (with_cells [Dead] single1) /\
  wf single1 /\
  GameField.idx single1 = interleaveXY 0 0 /\
  GameField.countAliveNeighbors (GameField.Machine single1 [])
    = Some (0, GameField.Machine single1 []) /\
  length (List.filter (fun p => negb (on_grid single1 (fst p) (snd p))) (walk 0 0)) = 8%nat.
Proof.
  split; [reflexivity|]. split; [exact wf_single1|]. split; [reflexivity|].
  split; [vm_compute; reflexivity | reflexivity].
Qed.

(** ** How often [updateCell] runs on a cell *)

Lemma calls_app k t t' : calls k (t ++ t') = (calls k t + calls k t')%nat.
Proof. unfold calls. rewrite List.filter_app, length_app. reflexivity. Qed.

Lemma writes_app k t t' : writes k (t ++ t') = (writes k t + writes k t')%nat.
Proof. unfold writes. rewrite List.filter_app, length_app. reflexivity. Qed.

Lemma calls_probe_ev k f a b : calls k (probe_ev f a b) = 0%nat.
Proof. unfold probe_ev. destruct (on_grid f a b); reflexivity. Qed.

Lemma writes_probe_ev k f a b : writes k (probe_ev f a b) = 0%nat.
Proof. unfold probe_ev. destruct (on_grid f a b); reflexivity. Qed.

Lemma calls_walk_ev k f x y : calls k (walk_ev f x y) = 0%nat.
Proof.
  unfold walk_ev, walk. cbn [flat_map fst snd].
  rewrite !calls_app, !calls_probe_ev. reflexivity.
Qed.

Lemma writes_walk_ev k f x y : writes k (walk_ev f x y) = 0%nat.
Proof.
  unfold walk_ev, walk. cbn [flat_map fst snd].
  rewrite !writes_app, !writes_probe_ev. reflexivity.
Qed.

Lemma calls_rule_ev k k' c a : calls k (rule_ev k' c a) = 0%nat.
Proof. unfold rule_ev. destruct (_ && _); [reflexivity|]. destruct (c =? Dead); reflexivity. Qed.

Lemma writes_rule_ev k k' c a :
  writes k (rule_ev k' c a)
  = if (k' =? k) && (((c =? Alive) && ((a <? 2) || (a >? 3))) || (c =? Dead))
    then 1%nat else 0%nat.
Proof.
  unfold rule_ev, writes.
  destruct ((c =? Alive) && ((a <? 2) || (a >? 3))) eqn:E1; cbn [List.filter is_write orb].
  - destruct (k' =? k); reflexivity.
  - destruct (c =? Dead); cbn [List.filter is_write]; destruct (k' =? k); reflexivity.
Qed.

Lemma calls_updated k x y s :
  calls k (GameField.trace (updated x y s))
  = (calls k (GameField.trace s) + (if (interleaveXY x y =? k)%Z then 1 else 0))%nat.
Proof.
  unfold updated. cbn [GameField.trace].
  rewrite calls_app. f_equal.
  change (EvUpdateCell (interleaveXY x y) :: ?l) with ([EvUpdateCell (interleaveXY x y)] ++ l).
  rewrite !calls_app, calls_walk_ev, calls_rule_ev.
  unfold calls. cbn [List.filter is_call]. destruct (interleaveXY x y =? k); reflexivity.
Qed.

Lemma writes_updated k x y s :
  writes k (GameField.trace (updated x y s))
  = (writes k (GameField.trace s)
     + writes k (rule_ev (interleaveXY x y) (cell (GameField.field s) (interleaveXY x y))
                         (walk_sum (GameField.field s) x y)))%nat.
Proof.
  unfold updated. cbn [GameField.trace].
  rewrite writes_app. f_equal.
  change (EvUpdateCell (interleaveXY x y) :: ?l) with ([EvUpdateCell (interleaveXY x y)] ++ l).
  rewrite !writes_app, writes_walk_ev. reflexivity.
Qed.

Lemma calls_moved k a b s :
  calls k (GameField.trace (moved a b s)) = calls k (GameField.trace s).
Proof. unfold moved. cbn [GameField.trace]. rewrite calls_app, calls_probe_ev. lia. Qed.

Lemma writes_moved k a b s :
  writes k (GameField.trace (moved a b s)) = writes k (GameField.trace s).
Proof. unfold moved. cbn [GameField.trace]. rewrite writes_app, writes_probe_ev. lia. Qed.

Section Counting.

Variable f0 : GameField.t.
Hypothesis Hwf0 : wf f0.
Hypothesis Hset : settled f0.
Variable t0 : list event.

Local Abbreviation N := (GameField.size f0).
Local Abbreviation key := interleaveXY.
Local Abbreviation fld := GameField.field.

Lemma Counted_start : Counted f0 t0 (GameField.Machine f0 t0).
Proof.
  intros x y Hin E0 k c. subst k c. cbn [GameField.field GameField.trace].
  rewrite E0. split; [cbn; lia|]. split; [reflexivity|]. split; discriminate.
Qed.

Lemma Counted_same s s' :
  (forall k, cell (fld s') k = cell (fld s) k) ->
  (forall k, calls k (GameField.trace s') = calls k (GameField.trace s)) ->
  (forall k, writes k (GameField.trace s') = writes k (GameField.trace s)) ->
  Counted f0 t0 s -> Counted f0 t0 s'.
Proof.
  intros Hc Hcalls Hwrites HC x y Hin E0. cbv zeta.
  rewrite Hc, Hcalls, Hwrites. apply (HC x y Hin E0).
Qed.

Lemma Counted_moved s a b : Counted f0 t0 s -> Counted f0 t0 (moved a b s).
Proof.
  apply Counted_same.
  - intros k. reflexivity.
  - intros k. apply calls_moved.
  - intros k. apply writes_moved.
Qed.

Lemma Counted_updated s a b :
  Inv f0 s -> Counted f0 t0 s -> in_grid N a b = true ->
  (cell f0 (key a b) = Dead -> cell (fld s) (key a b) <> DeadVisited) ->
  Counted f0 t0 (updated a b s).
Proof.
  intros HI HC Hin Hnot.
  destruct (updated_Inv f0 Hwf0 Hset s a b HI Hin) as (HI' & HF & Hother).
  pose proof (walk_sum_Inv f0 Hset s a b HI Hin) as Hsum.
  intros x y Hxy E0. cbv zeta.
  rewrite calls_updated, writes_updated, writes_rule_ev, Hsum.
  destruct (Z.eq_dec (key x y) (key a b)) as [E | E].
  - destruct (in_grid_inj f0 x y a b Hwf0 Hxy Hin E) as [-> ->].
    rewrite !Z.eqb_refl, andb_true_l.
    destruct (HC a b Hin E0) as (Hw & Hc0 & Hc1 & Hc2). cbv zeta in Hw, Hc0, Hc1, Hc2.
    unfold Fin in HF. rewrite HF.
    destruct HI as [_ HCells].
    assert (Hc : cell (fld s) (key a b) = Dead \/ cell (fld s) (key a b) = Birthing).
    { destruct (HCells a b Hin) as [Ec | Ec]; [left; congruence|].
      destruct (final_dead f0 a b E0) as [[Ef _] | [Ef _]]; rewrite Ef in Ec.
      - right. exact Ec.
      - exfalso. apply (Hnot E0). exact Ec. }
    destruct Hc as [Ec | Ec]; rewrite Ec in *.
    + specialize (Hc0 eq_refl).
      destruct (final_dead f0 a b E0) as [[-> _] | [-> _]]; cbn in *;
        (split; [lia|]); (split; [discriminate|]); split; intros; (discriminate || lia).
    + specialize (Hc2 eq_refl).
      destruct (final_dead f0 a b E0) as [[-> _] | [Ef Hn]].
      * cbn in *. split; [lia|]. split; [discriminate|]. split; intros; (discriminate || lia).
      * exfalso. destruct (HCells a b Hin) as [E1 | E1]; rewrite Ec in E1.
        -- rewrite E0 in E1. discriminate.
        -- rewrite Ef in E1. discriminate.
  - rewrite Hother by (pose proof (interleaveXY_range x y); lia || exact E).
    destruct (key a b =? key x y) eqn:E'; [lia|]. rewrite andb_false_l, !Nat.add_0_r.
    apply (HC x y Hxy E0).
Qed.

Lemma Counted_visit s a b :
  Inv f0 s -> Counted f0 t0 s -> -1 <= a <= N -> -1 <= b <= N ->
  Counted f0 t0 (visit_post a b s).
Proof.
  intros HI HC Ha Hb. pose proof HI as [Hsh HCells]. pose proof Hsh as [Hwf Hshape].
  assert (Hgrid : on_grid (fld s) a b = in_grid N a b).
  { rewrite on_grid_in_grid by (rewrite ?(shaped_size f0 s Hsh); (exact Hwf || lia)).
    rewrite (shaped_size f0 s Hsh). reflexivity. }
  unfold visit_post.
  destruct (probe_val (fld s) a b Game.mask =? Dead) eqn:Ep; [|apply Counted_moved, HC].
  assert (Hin : in_grid N a b = true).
  { rewrite <- Hgrid. apply probe_Dead_on_grid, Z.eqb_eq, Ep. }
  apply Counted_updated.
  - split; [split; [apply wf_moved, Hwf | exact Hshape] | exact HCells].
  - apply Counted_moved, HC.
  - exact Hin.
  - intros _ Ec. unfold probe_val in Ep. rewrite Hgrid, Hin in Ep.
    change (cell (fld (moved a b s)) (key a b)) with (cell (fld s) (key a b)) in Ec.
    rewrite Ec in Ep. discriminate.
Qed.

Lemma Counted_visits (ps : list (Z * Z)) : forall s,
  Inv f0 s -> Counted f0 t0 s ->
  (forall p, In p ps -> -1 <= fst p <= N /\ -1 <= snd p <= N) ->
  Counted f0 t0 (fold_left (fun s p => visit_post (fst p) (snd p) s) ps s).
Proof.
  induction ps as [|p ps IH]; intros s HI HC Hps; cbn [fold_left]; [exact HC|].
  destruct (Hps p (or_introl eq_refl)) as [Ha Hb].
  apply IH.
  - apply (visit_Inv f0 Hwf0 Hset s (fst p) (snd p) HI Ha Hb).
  - apply Counted_visit; assumption.
  - intros q Hq. apply Hps. right. exact Hq.
Qed.

Lemma Counted_evaluated s k :
  Inv f0 s -> Counted f0 t0 s ->
  0 <= k < Z.of_nat (length (GameField.cells f0)) ->
  Counted f0 t0 (evaluated k s).
Proof.
  intros HI HC Hk. pose proof HI as [Hsh HCells]. pose proof Hsh as [Hwf Hshape].
  destruct (index_on_grid f0 k Hwf0 Hk) as (_ & Hkey & Hx & Hy).
  set (x := morton_x 16 k) in *. set (y := morton_y 16 k) in *.
  assert (Hin : in_grid N x y = true) by (apply in_grid_spec; lia).
  assert (HC0 : Counted f0 t0 (logged [EvRead k] s)).
  { revert HC. apply Counted_same.
    - intros k'. reflexivity.
    - intros k'. unfold logged. cbn [GameField.trace]. rewrite calls_app. cbn. lia.
    - intros k'. unfold logged. cbn [GameField.trace]. rewrite writes_app. cbn. lia. }
  unfold evaluated. fold x y.
  destruct (cell (fld s) k =? Alive) eqn:Ec; [|exact HC0].
  set (s1 := start_at k (logged [EvRead k] s)).
  assert (HI1 : Inv f0 s1).
  { split; [split; [|exact Hshape] | exact HCells].
    apply wf_with_idx; [exact Hwf | rewrite <- Hkey; apply interleaveXY_range]. }
  apply Counted_visits.
  - apply (updated_Inv f0 Hwf0 Hset s1 x y HI1 Hin).
  - apply Counted_updated; [exact HI1 | | exact Hin |].
    + revert HC0. apply Counted_same; intros k'; reflexivity.
    + intros _. change (cell (fld s1) (key x y)) with (cell (fld s) (key x y)).
      rewrite Hkey. intros E. rewrite E in Ec. discriminate.
  - apply walk_near, Hin.
Qed.

Lemma pass_Counted (order : list Z) : forall s,
  Inv f0 s -> Marked f0 s -> Counted f0 t0 s ->
  (forall k, In k order -> 0 <= k < Z.of_nat (length (GameField.cells f0))) ->
  Counted f0 t0 (pass evaluated order s).
Proof.
  induction order as [|k order IH]; intros s HI HM HC Hr; [exact HC|].
  rewrite pass_cons.
  destruct (evaluated_Inv f0 Hwf0 Hset s k HI HM (Hr k (or_introl eq_refl))) as (HI1 & HM1 & _).
  apply IH; [exact HI1 | exact HM1 | | intros q Hq; apply Hr; right; exact Hq].
  apply Counted_evaluated; [exact HI | exact HC | apply Hr; left; reflexivity].
Qed.

End Counting.

(** ** Visits to a cell that turns [Birthing] *)

Lemma visit_post_skipped u a b :
  on_grid (GameField.field u) a b = true ->
  cell (GameField.field u) (interleaveXY a b) = DeadVisited ->
  visit_post a b u = moved a b u.
Proof.
  intros Hon E. unfold visit_post, probe_val. rewrite Hon, E. reflexivity.
Qed.

Lemma visit_post_Birthing u a b :
  on_grid (GameField.field u) a b = true ->
  cell (GameField.field u) (interleaveXY a b) = Birthing ->
  visit_post a b u = updated a b (moved a b u) /\
  GameField.cells (GameField.field (visit_post a b u)) = GameField.cells (GameField.field u).
Proof.
  intros Hon E.
  assert (Hv : visit_post a b u = updated a b (moved a b u)).
  { unfold visit_post, probe_val. rewrite Hon, E. reflexivity. }
  split; [exact Hv|]. rewrite Hv.
  assert (E1 : cell (GameField.field (moved a b u)) (interleaveXY a b) = Birthing) by exact E.
  unfold updated. cbn [GameField.field GameField.cells with_cells].
  rewrite E1. rewrite rule_noop by (left; reflexivity).
  rewrite <- E1.
  rewrite (insert_cell_same (GameField.field (moved a b u))) by apply interleaveXY_range.
  reflexivity.
Qed.

Lemma occurrences_sym x y a b :
  occurrences a b (walk x y) = occurrences x y (walk a b).
Proof.
  unfold occurrences, walk. cbn [List.filter fst snd].
  assert (Hx : a - x = -1 \/ a - x = 0 \/ a - x = 1 \/ (a - x < -1 \/ 1 < a - x)) by lia.
  assert (Hy : b - y = -1 \/ b - y = 0 \/ b - y = 1 \/ (b - y < -1 \/ 1 < b - y)) by lia.
  destruct Hx as [Hx | [Hx | [Hx | Hx]]]; destruct Hy as [Hy | [Hy | [Hy | Hy]]];
    repeat match goal with
           | |- context [?p =? ?q] =>
               first [ replace (p =? q) with true by (symmetry; apply Z.eqb_eq; lia)
                     | replace (p =? q) with false by (symmetry; apply Z.eqb_neq; lia) ]
           end; reflexivity.
Qed.

Lemma filter_split {A} (P Q R : A -> bool) (l : list A) :
  (forall a, In a l -> P a && Q a && R a = false) ->
  length (List.filter (fun a => P a && (Q a || R a)) l)
  = (length (List.filter (fun a => P a && Q a) l)
     + length (List.filter (fun a => P a && R a) l))%nat.
Proof.
  induction l as [|a l IH]; intros H; [reflexivity|].
  cbn [List.filter]. specialize (IH (fun c Hc => H c (or_intror Hc))).
  specialize (H a (or_introl eq_refl)).
  destruct (P a), (Q a), (R a); cbn [andb orb length] in *; try discriminate; lia.
Qed.

Lemma filter_guard {A} (c : bool) (P : A -> bool) (l : list A) :
  length (List.filter (fun a => c && P a) l)
  = if c then length (List.filter P l) else 0%nat.
Proof.
  destruct c; cbn [andb]; [reflexivity|].
  induction l as [|a l IH]; [reflexivity | exact IH].
Qed.

Section Revisits.

Variable f0 : GameField.t.
Hypothesis Hwf0 : wf f0.
Hypothesis Hset : settled f0.
Variables x y : Z.
Hypothesis Hin : in_grid (GameField.size f0) x y = true.
Hypothesis E0 : cell f0 (interleaveXY x y) = Dead.
Hypothesis H3 : neighbours_alive f0 x y = 3.

Local Abbreviation N := (GameField.size f0).
Local Abbreviation key := interleaveXY.
Local Abbreviation fld := GameField.field.

Lemma target_codes s : Inv f0 s ->
  cell (fld s) (key x y) = Dead \/ cell (fld s) (key x y) = Birthing.
Proof.
  intros [_ HC]. destruct (HC x y Hin) as [E | E]; [left; congruence|].
  right. rewrite E. destruct (final_dead f0 x y E0) as [[Ef _] | [_ Hn]];
    [exact Ef | contradiction].
Qed.

Lemma not_alive_stays s k : Inv f0 s ->
  0 <= k < Z.of_nat (length (GameField.cells f0)) ->
  cell f0 k <> Alive -> cell (fld s) k <> Alive.
Proof.
  intros [_ HC] Hk Hne E.
  destruct (index_on_grid f0 k Hwf0 Hk) as (_ & Hkey & Hx & Hy).
  specialize (HC (morton_x 16 k) (morton_y 16 k) ltac:(apply in_grid_spec; lia)).
  rewrite Hkey in HC. destruct HC as [HC | HC]; [congruence|].
  destruct (cell0_cases f0 Hset k) as [Ek | Ek]; [|contradiction].
  rewrite E in HC. unfold final in HC. rewrite Hkey, Ek in HC.
  unfold rule, Alive, Dead, Birthing, DeadVisited in HC. cbn [Z.eqb andb] in HC.
  destruct (_ =? 3) in HC; discriminate.
Qed.

Lemma calls_visit_target s a b : Inv f0 s -> -1 <= a <= N -> -1 <= b <= N ->
  calls (key x y) (GameField.trace (visit_post a b s))
  = (calls (key x y) (GameField.trace s) + (if ((a =? x) && (b =? y))%Z then 1 else 0))%nat.
Proof.
  intros HI Ha Hb. pose proof HI as [Hsh HC]. pose proof Hsh as [Hwf Hshape].
  assert (Hgrid : on_grid (fld s) a b = in_grid N a b).
  { rewrite on_grid_in_grid by (rewrite ?(shaped_size f0 s Hsh); (exact Hwf || lia)).
    rewrite (shaped_size f0 s Hsh). reflexivity. }
  unfold visit_post.
  destruct (probe_val (fld s) a b Game.mask =? Dead) eqn:Ep.
  - assert (Hab : in_grid N a b = true).
    { rewrite <- Hgrid. apply probe_Dead_on_grid, Z.eqb_eq, Ep. }
    rewrite calls_updated, calls_moved. f_equal.
    destruct ((a =? x) && (b =? y)) eqn:E.
    + assert (a = x) by lia. assert (b = y) by lia. subst a b.
      rewrite Z.eqb_refl. reflexivity.
    + destruct (key a b =? key x y) eqn:E'; [|reflexivity].
      exfalso. destruct (in_grid_inj f0 a b x y Hwf0 Hab Hin ltac:(lia)). lia.
  - rewrite calls_moved.
    destruct ((a =? x) && (b =? y)) eqn:E; [|lia].
    exfalso. assert (a = x) by lia. assert (b = y) by lia. subst a b.
    unfold probe_val in Ep. rewrite Hgrid, Hin in Ep.
    destruct (target_codes s HI) as [Ec | Ec]; rewrite Ec in Ep; discriminate.
Qed.

Lemma calls_visits_target (ps : list (Z * Z)) : forall s,
  Inv f0 s -> (forall p, In p ps -> -1 <= fst p <= N /\ -1 <= snd p <= N) ->
  calls (key x y)
    (GameField.trace (fold_left (fun s p => visit_post (fst p) (snd p) s) ps s))
  = (calls (key x y) (GameField.trace s) + occurrences x y ps)%nat.
Proof.
  induction ps as [|p ps IH]; intros s HI Hps; cbn [fold_left].
  - unfold occurrences. cbn [List.filter length]. lia.
  - destruct (Hps p (or_introl eq_refl)) as [Ha Hb].
    rewrite IH;
      [| apply (visit_Inv f0 Hwf0 Hset s (fst p) (snd p) HI Ha Hb)
       | intros q Hq; apply Hps; right; exact Hq].
    rewrite calls_visit_target by assumption.
    unfold occurrences. cbn [List.filter].
    destruct ((fst p =? x) && (snd p =? y)); cbn [length]; lia.
Qed.

Lemma calls_evaluated_target s k : Inv f0 s ->
  0 <= k < Z.of_nat (length (GameField.cells f0)) ->
  calls (key x y) (GameField.trace (evaluated k s))
  = (calls (key x y) (GameField.trace s)
     + (if (cell (fld s) k =? Alive)%Z
        then occurrences x y (walk (morton_x 16 k) (morton_y 16 k)) else 0))%nat.
Proof.
  intros HI Hk. pose proof HI as [Hsh HCells]. pose proof Hsh as [Hwf Hshape].
  destruct (index_on_grid f0 k Hwf0 Hk) as (_ & Hkey & Hx & Hy).
  set (xk := morton_x 16 k) in *. set (yk := morton_y 16 k) in *.
  assert (Hink : in_grid N xk yk = true) by (apply in_grid_spec; lia).
  unfold evaluated. fold xk yk.
  destruct (cell (fld s) k =? Alive) eqn:Ec.
  - set (s1 := start_at k (logged [EvRead k] s)).
    assert (HI1 : Inv f0 s1).
    { split; [split; [|exact Hshape] | exact HCells].
      apply wf_with_idx; [exact Hwf | rewrite <- Hkey; apply interleaveXY_range]. }
    rewrite calls_visits_target;
      [| apply (updated_Inv f0 Hwf0 Hset s1 xk yk HI1 Hink) | apply walk_near, Hink].
    rewrite calls_updated. unfold s1, start_at, logged. cbn [GameField.trace].
    rewrite calls_app. change (calls (key x y) [EvRead k]) with 0%nat.
    destruct (key xk yk =? key x y) eqn:E; [exfalso | lia].
    rewrite Hkey in E. assert (Ek : k = key x y) by lia. rewrite Ek in Ec.
    destruct (target_codes s HI) as [E1 | E1]; rewrite E1 in Ec; discriminate.
  - unfold logged. cbn [GameField.trace]. rewrite calls_app.
    change (calls (key x y) [EvRead k]) with 0%nat. lia.
Qed.

Lemma evaluated_keeps s k a b : Inv f0 s ->
  0 <= k < Z.of_nat (length (GameField.cells f0)) ->
  in_grid N a b = true -> alive_at f0 a b = true -> key a b <> k ->
  cell (fld (evaluated k s)) (key a b) = cell (fld s) (key a b).
Proof.
  intros HI Hk Hab Hal Hne. pose proof HI as [Hsh HCells]. pose proof Hsh as [Hwf Hshape].
  destruct (index_on_grid f0 k Hwf0 Hk) as (_ & Hkey & Hx & Hy).
  set (xk := morton_x 16 k) in *. set (yk := morton_y 16 k) in *.
  assert (Hink : in_grid N xk yk = true) by (apply in_grid_spec; lia).
  unfold evaluated. fold xk yk.
  destruct (cell (fld s) k =? Alive) eqn:Ec; [|reflexivity].
  set (s1 := start_at k (logged [EvRead k] s)).
  assert (HI1 : Inv f0 s1).
  { split; [split; [|exact Hshape] | exact HCells].
    apply wf_with_idx; [exact Hwf | rewrite <- Hkey; apply interleaveXY_range]. }
  destruct (updated_Inv f0 Hwf0 Hset s1 xk yk HI1 Hink) as (HI2 & _ & Hother).
  destruct (visits_Inv f0 Hwf0 Hset (walk xk yk) (updated xk yk s1) HI2
              (walk_near f0 xk yk Hink)) as (_ & _ & Hkeep & _).
  rewrite (Hkeep a b Hab Hal). rewrite Hother; [reflexivity | |rewrite Hkey; exact Hne].
  pose proof (interleaveXY_range a b). lia.
Qed.

Lemma alive_key_eq k a b :
  0 <= k < Z.of_nat (length (GameField.cells f0)) ->
  alive_at f0 a b && (key a b =? k)
  = (cell f0 k =? Alive) && ((a =? morton_x 16 k) && (b =? morton_y 16 k)).
Proof.
  intros Hk. destruct (index_on_grid f0 k Hwf0 Hk) as (_ & Hkey & Hx & Hy).
  set (xk := morton_x 16 k) in *. set (yk := morton_y 16 k) in *.
  assert (Hink : in_grid N xk yk = true) by (apply in_grid_spec; lia).
  destruct ((a =? xk) && (b =? yk)) eqn:E.
  - assert (a = xk) by lia. assert (b = yk) by lia. subst a b.
    unfold alive_at. rewrite Hink, Hkey, Z.eqb_refl, andb_true_r. reflexivity.
  - rewrite andb_false_r. unfold alive_at.
    destruct (in_grid N a b) eqn:Hab; [|reflexivity].
    destruct (key a b =? k) eqn:Ek; [|apply andb_false_r].
    exfalso. destruct (in_grid_inj f0 a b xk yk Hwf0 Hab Hink ltac:(lia)). lia.
Qed.

Lemma alive_neighbours_in_cons k order :
  0 <= k < Z.of_nat (length (GameField.cells f0)) -> ~ In k order ->
  alive_neighbours_in f0 x y (k :: order)
  = ((if (cell f0 k =? Alive)%Z
      then occurrences x y (walk (morton_x 16 k) (morton_y 16 k)) else 0)
     + alive_neighbours_in f0 x y order)%nat.
Proof.
  intros Hk Hnin. unfold alive_neighbours_in. cbn [existsb].
  rewrite (filter_split (fun p => alive_at f0 (fst p) (snd p))
             (fun p => key (fst p) (snd p) =? k)
             (fun p => existsb (Z.eqb (key (fst p) (snd p))) order)).
  - f_equal.
    rewrite (filter_ext _ (fun p => (cell f0 k =? Alive)
                                    && ((fst p =? morton_x 16 k) && (snd p =? morton_y 16 k))))
      by (intros p; apply alive_key_eq, Hk).
    rewrite filter_guard. destruct (cell f0 k =? Alive); [|reflexivity].
    apply occurrences_sym.
  - intros p _. destruct (key (fst p) (snd p) =? k) eqn:Ek;
      [|rewrite andb_false_r; reflexivity].
    destruct (existsb (Z.eqb (key (fst p) (snd p))) order) eqn:Ex;
      [|apply andb_false_r].
    exfalso. apply existsb_exists in Ex as (j & Hj & Ej). apply Hnin.
    assert (j = k) by lia. subst j. exact Hj.
Qed.

Lemma alive_neighbours_in_all :
  alive_neighbours_in f0 x y (scan_order f0) = 3%nat.
Proof.
  unfold alive_neighbours_in.
  rewrite (filter_ext _ (fun p => alive_at f0 (fst p) (snd p))).
  - pose proof H3 as H. unfold neighbours_alive in H. unfold walk.
    cbn [List.filter fst snd].
    destruct (alive_at f0 x (y - 1)), (alive_at f0 (x - 1) (y - 1)),
      (alive_at f0 (x - 1) y), (alive_at f0 (x - 1) (y + 1)),
      (alive_at f0 x (y + 1)), (alive_at f0 (x + 1) (y + 1)),
      (alive_at f0 (x + 1) y), (alive_at f0 (x + 1) (y - 1));
      cbn [Z.b2z length] in *; (reflexivity || lia).
  - intros [a b]. cbn [fst snd].
    destruct (alive_at f0 a b) eqn:Hal; [|reflexivity]. cbn [andb].
    apply existsb_exists. exists (key a b). split; [|apply Z.eqb_refl].
    apply scan_order_spec. apply in_grid_key; [exact Hwf0|].
    unfold alive_at in Hal. destruct (in_grid N a b); [reflexivity | discriminate].
Qed.

Lemma pass_calls_target (order : list Z) : NoDup order -> forall s,
  Inv f0 s -> Marked f0 s -> Unprocessed f0 order s ->
  (forall k, In k order -> 0 <= k < Z.of_nat (length (GameField.cells f0))) ->
  calls (key x y) (GameField.trace (pass evaluated order s))
  = (calls (key x y) (GameField.trace s) + alive_neighbours_in f0 x y order)%nat.
Proof.
  induction order as [|k order IH]; intros Hnd s HI HM HU Hr.
  - unfold alive_neighbours_in. cbn [pass fold_left existsb].
    rewrite (filter_ext _ (fun p => false && alive_at f0 (fst p) (snd p)))
      by (intros p; apply andb_false_r).
    rewrite filter_guard. lia.
  - apply NoDup_cons in Hnd as [Hnin Hnd].
    assert (Hnin' : ~ In k order) by (intros H; apply Hnin, list_elem_of_In, H).
    pose proof (Hr k (or_introl eq_refl)) as Hk.
    destruct (evaluated_Inv f0 Hwf0 Hset s k HI HM Hk) as (HI1 & HM1 & _).
    rewrite pass_cons, IH;
      [| exact Hnd | exact HI1 | exact HM1 | | intros q Hq; apply Hr; right; exact Hq].
    + rewrite calls_evaluated_target by assumption.
      rewrite alive_neighbours_in_cons by assumption.
      assert (Hsame : (cell (fld s) k =? Alive) = (cell f0 k =? Alive)).
      { destruct (cell f0 k =? Alive) eqn:Ek.
        - rewrite (HU k (or_introl eq_refl) ltac:(lia)). reflexivity.
        - pose proof (not_alive_stays s k HI Hk ltac:(lia)). lia. }
      rewrite Hsame. lia.
    + intros q Hq Eq. pose proof (Hr q (or_intror Hq)) as Hqr.
      destruct (index_on_grid f0 q Hwf0 Hqr) as (_ & Hkey & Hx & Hy).
      rewrite <- Hkey. rewrite evaluated_keeps.
      * rewrite Hkey. apply HU; [right; exact Hq | exact Eq].
      * exact HI.
      * exact Hk.
      * apply in_grid_spec. lia.
      * unfold alive_at.
        assert (Hg : in_grid N (morton_x 16 q) (morton_y 16 q) = true)
          by (apply in_grid_spec; lia).
        rewrite Hg, Hkey, Eq. reflexivity.
      * rewrite Hkey. intros ->. apply Hnin'. exact Hq.
Qed.

End Revisits.

Lemma calls_committed k' k s :
  calls k' (GameField.trace (committed k s)) = calls k' (GameField.trace s).
Proof.
  unfold committed. destruct (_ =? _); [|destruct (_ || _)];
    unfold wrote, logged; cbn [GameField.trace GameField.field];
    rewrite ?calls_app; cbn; lia.
Qed.

Lemma calls_pass_committed k' (order : list Z) : forall s,
  calls k' (GameField.trace (pass committed order s)) = calls k' (GameField.trace s).
Proof.
  induction order as [|k order IH]; intros s; [reflexivity|].
  rewrite pass_cons, IH. apply calls_committed.
Qed.

(** C2, as amended. In a tick from a grid of [Dead] and [Alive] cells,
    every [Dead] cell with an alive neighbour is passed to [updateCell] at
    least once in the evaluate pass, which writes it exactly once, to
    [Birthing] when it has 3 alive neighbours and to [DeadVisited]
    otherwise; a cell turned [DeadVisited] is passed to [updateCell]
    exactly once, since it reads non-zero under the mask
    [Alive | DeadVisited]; a cell turned [Birthing] reads zero under that
    mask, so later visits pass it to [updateCell] again: three times
    in all, as many as it has alive neighbours.  In any state, the step
    [visit] of the evaluate pass that lands on a [Birthing] cell enters
    [updateCell] on it and leaves every cell as it is, and one that lands
    on a [DeadVisited] cell does not enter [updateCell]. *)
Theorem dead_border_evaluated (s : GameField.machine) (x y : Z) :
  wf (GameField.field s) -> settled (GameField.field s) ->
  in_grid (GameField.size (GameField.field s)) x y = true ->
  cell (GameField.field s) (interleaveXY x y) = Dead ->
  neighbours_alive (GameField.field s) x y <> 0 ->
  exists s1 s2,
    Game.evaluate_pass s = Some (tt, s1) /\
    Game.simulationTick s = Some (tt, s2) /\
    ((cell (GameField.field s1) (interleaveXY x y) = Birthing /\
        neighbours_alive (GameField.field s) x y = 3) \/
     (cell (GameField.field s1) (interleaveXY x y) = DeadVisited /\
        neighbours_alive (GameField.field s) x y <> 3)) /\
    writes (interleaveXY x y) (GameField.trace s1)
      = (writes (interleaveXY x y) (GameField.trace s) + 1)%nat /\
    calls (interleaveXY x y) (GameField.trace s2)
      = calls (interleaveXY x y) (GameField.trace s1) /\
    (calls (interleaveXY x y) (GameField.trace s) + 1
       <= calls (interleaveXY x y) (GameField.trace s1))%nat /\
    (cell (GameField.field s1) (interleaveXY x y) = DeadVisited ->
       calls (interleaveXY x y) (GameField.trace s1)
       = (calls (interleaveXY x y) (GameField.trace s) + 1)%nat) /\
    (u8 (Z.land DeadVisited Game.mask) =? Dead) = false /\
    (u8 (Z.land Birthing Game.mask) =? Dead) = true /\
    (forall a, rule Birthing a = Birthing) /\
    (cell (GameField.field s1) (interleaveXY x y) = Birthing ->
       calls (interleaveXY x y) (GameField.trace s1)
       = (calls (interleaveXY x y) (GameField.trace s) + 3)%nat) /\
    (forall u d x0 y0,
       wf (GameField.field u) -> GameField.idx (GameField.field u) = interleaveXY x0 y0 ->
       let a := fst (target d x0 y0) in
       let b := snd (target d x0 y0) in
       on_grid (GameField.field u) a b = true ->
       (cell (GameField.field u) (interleaveXY a b) = Birthing ->
        exists u', Game.visit (step d) u = Some (tt, u') /\
          calls (interleaveXY a b) (GameField.trace u')
          = (calls (interleaveXY a b) (GameField.trace u) + 1)%nat /\
          GameField.cells (GameField.field u') = GameField.cells (GameField.field u)) /\
       (cell (GameField.field u) (interleaveXY a b) = DeadVisited ->
        exists u', Game.visit (step d) u = Some (tt, u') /\
          (forall j, calls j (GameField.trace u') = calls j (GameField.trace u)) /\
          GameField.cells (GameField.field u') = GameField.cells (GameField.field u))).
Proof.
  intros Hwf Hset Hin E0 Hnb. destruct s as [f0 t0]. cbn [GameField.field GameField.trace] in *.
  assert (Hr : forall k, In k (scan_order f0) -> 0 <= k < Z.of_nat (length (GameField.cells f0)))
    by (intros k; apply scan_order_spec).
  destruct (pass_evaluated_Inv f0 Hwf Hset (scan_order f0) (GameField.Machine f0 t0)
              (Inv_start f0 Hwf t0) (Marked_start f0 Hset t0) Hr) as (HI & _ & _ & HD).
  pose proof (pass_Counted f0 Hwf Hset t0 (scan_order f0) (GameField.Machine f0 t0)
                (Inv_start f0 Hwf t0) (Marked_start f0 Hset t0) (Counted_start f0 t0) Hr) as HC.
  set (s1 := pass evaluated (scan_order f0) (GameField.Machine f0 t0)) in *.
  assert (HF : Fin f0 s1 x y).
  { destruct (alive_neighbour f0 x y Hnb) as ([a b] & Hp & Hal). cbn [fst snd] in Hal.
    assert (Hab : in_grid (GameField.size f0) a b = true).
    { unfold alive_at in Hal. destruct (in_grid (GameField.size f0) a b); [reflexivity | discriminate]. }
    destruct (decode_key f0 a b Hwf Hab) as [Ea Eb].
    specialize (HD (interleaveXY a b) (proj2 (scan_order_spec f0 _) (in_grid_key f0 a b Hwf Hab))).
    rewrite Ea, Eb in HD. destruct (HD Hal) as [_ HW].
    apply (HW (x, y) (walk_sym a b x y Hp) Hin).
    cbn [fst snd]. unfold alive_at. rewrite Hin, E0. reflexivity. }
  destruct (HC x y Hin E0) as (Hw & _ & Hc1 & Hc2). cbv zeta in Hw, Hc1, Hc2.
  cbn [GameField.trace] in Hw, Hc1, Hc2.
  destruct (simulationTick_run (GameField.Machine f0 t0) Hwf) as [Hrun2 _].
  exists s1, (ticked (GameField.Machine f0 t0)).
  split; [apply (evaluate_pass_run (GameField.Machine f0 t0) Hwf)|].
  split; [exact Hrun2|].
  unfold Fin in HF.
  assert (Hcases : (cell (GameField.field s1) (interleaveXY x y) = Birthing /\
                      neighbours_alive f0 x y = 3) \/
                   (cell (GameField.field s1) (interleaveXY x y) = DeadVisited /\
                      neighbours_alive f0 x y <> 3)).
  { rewrite HF. destruct (final_dead f0 x y E0) as [[-> H3] | [-> H3]]; [left | right]; tauto. }
  split; [exact Hcases|].
  split; [|split; [|split; [|split; [|split; [|split; [|split; [|split]]]]]]].
  - rewrite Hw. destruct Hcases as [[-> _] | [-> _]]; reflexivity.
  - unfold ticked. apply calls_pass_committed.
  - destruct Hcases as [[E _] | [E _]]; [apply Hc2, E | rewrite (Hc1 E); lia].
  - exact Hc1.
  - reflexivity.
  - reflexivity.
  - intros a. reflexivity.
  - intros Eb.
    assert (H3 : neighbours_alive f0 x y = 3).
    { destruct Hcases as [[_ H] | [E _]]; [exact H|]. rewrite E in Eb. discriminate. }
    unfold s1.
    rewrite (pass_calls_target f0) with (x := x) (y := y); try assumption;
      [ cbn [GameField.trace]; rewrite (alive_neighbours_in_all f0) by assumption; reflexivity
      | apply NoDup_seqZ
      | apply Inv_start, Hwf
      | apply Marked_start, Hset
      | intros k _ E; exact E ].
  - intros u d x0 y0 Hu Hi Hon.
    set (a := fst (target d x0 y0)) in *. set (b := snd (target d x0 y0)) in *.
    pose proof (visit_run (step d) a b u Hu (step_run d Game.mask u x0 y0 Hu Hi)) as Hv.
    split.
    + intros Ec. destruct (visit_post_Birthing u a b Hon Ec) as [Hp Hcells].
      exists (visit_post a b u). split; [exact Hv|]. split; [|exact Hcells].
      rewrite Hp, calls_updated, calls_moved, Z.eqb_refl. reflexivity.
    + intros Ec. exists (visit_post a b u). split; [exact Hv|].
      rewrite (visit_post_skipped u a b Hon Ec).
      split; [intros j; apply calls_moved | reflexivity].
Qed.

Lemma dead_border_evaluated_witness :
  exists s1 s2,
    Game.evaluate_pass (GameField.Machine blinker4 []) = Some (tt, s1) /\
    Game.simulationTick (GameField.Machine blinker4 []) = Some (tt, s2) /\
    ((cell (GameField.field s1) (interleaveXY 0 1) = Birthing /\
        neighbours_alive blinker4 0 1 = 3) \/
     (cell (GameField.field s1) (interleaveXY 0 1) = DeadVisited /\
        neighbours_alive blinker4 0 1 <> 3)) /\
    writes (interleaveXY 0 1) (GameField.trace s1) = (writes (interleaveXY 0 1) [] + 1)%nat /\
    calls (interleaveXY 0 1) (GameField.trace s2) = calls (interleaveXY 0 1) (GameField.trace s1) /\
    (calls (interleaveXY 0 1) [] + 1 <= calls (interleaveXY 0 1) (GameField.trace s1))%nat /\
    (cell (GameField.field s1) (interleaveXY 0 1) = DeadVisited ->
       calls (interleaveXY 0 1) (GameField.trace s1) = (calls (interleaveXY 0 1) [] + 1)%nat) /\
    (u8 (Z.land DeadVisited Game.mask) =? Dead) = false /\
    (u8 (Z.land Birthing Game.mask) =? Dead) = true /\
    (forall a, rule Birthing a = Birthing) /\
    (cell (GameField.field s1) (interleaveXY 0 1) = Birthing ->
       calls (interleaveXY 0 1) (GameField.trace s1)
       = (calls (interleaveXY 0 1) [] + 3)%nat) /\
    (forall u d x0 y0,
       wf (GameField.field u) -> GameField.idx (GameField.field u) = interleaveXY x0 y0 ->
       let a := fst (target d x0 y0) in
       let b := snd (target d x0 y0) in
       on_grid (GameField.field u) a b = true ->
       (cell (GameField.field u) (interleaveXY a b) = Birthing ->
        exists u', Game.visit (step d) u = Some (tt, u') /\
          calls (interleaveXY a b) (GameField.trace u')
          = (calls (interleaveXY a b) (GameField.trace u) + 1)%nat /\
          GameField.cells (GameField.field u') = GameField.cells (GameField.field u)) /\
       (cell (GameField.field u) (interleaveXY a b) = DeadVisited ->
        exists u', Game.visit (step d) u = Some (tt, u') /\
          (forall j, calls j (GameField.trace u') = calls j (GameField.trace u)) /\
          GameField.cells (GameField.field u') = GameField.cells (GameField.field u))).
Proof.
  apply (dead_border_evaluated (GameField.Machine blinker4 []) 0 1).
  - exact wf_blinker4.
  - exact settled_blinker4.
  - vm_compute. reflexivity.
  - vm_compute. reflexivity.
  - replace (neighbours_alive (GameField.field (GameField.Machine blinker4 [])) 0 1) with 3
      by (vm_compute; reflexivity).
    lia.
Defined.

(** C2, counterexample. On the 4x4 board with a blinker in column 1, the
    dead cell [(0, 1)] borders the alive cell [(1, 1)] and one tick passes
    it to [updateCell] three times, not once: once [Birthing] it reads 0
    under the mask [Alive | DeadVisited]. *)
Lemma blinker_side_cell_updated_thrice :
  wf blinker4 /\ settled blinker4 /\
  cell blinker4 (interleaveXY 0 1) = Dead /\
  alive_at blinker4 1 1 = true /\ In (1, 1) (walk 0 1) /\
  Z.land Birthing Game.mask = 0 /\
  exists s', Game.simulationTick (GameField.Machine blinker4 []) = Some (tt, s') /\
             calls (interleaveXY 0 1) (GameField.trace s') = 3%nat.
Proof.
  split; [exact wf_blinker4|]. split; [exact settled_blinker4|].
  split; [vm_compute; reflexivity|]. split; [vm_compute; reflexivity|].
  split; [cbn; tauto|]. split; [reflexivity|].
  eexists. split; vm_compute; reflexivity.
Qed.

(** * Further properties of the code *)

(** ** The codec *)

(** X1. [interleaveXY] is the Morton code of its arguments taken as 16-bit
    numbers: bit [j] of [x] is bit [2j] of the key, bit [j] of [y] is bit
    [2j+1], and the key fits in 32 bits. *)
Theorem interleaveXY_bits (x y j : Z) :
  0 <= j < 16 ->
  Z.testbit (interleaveXY x y) (2 * j) = Z.testbit x j /\
  Z.testbit (interleaveXY x y) (2 * j + 1) = Z.testbit y j /\
  0 <= interleaveXY x y < 2 ^ 32 /\
  interleaveXY (x + 2 ^ 16) y = interleaveXY x y /\
  interleaveXY x (y + 2 ^ 16) = interleaveXY x y.
Proof.
  intros Hj. rewrite !interleaveXY_morton.
  rewrite morton_testbit_even, morton_testbit_odd by lia.
  destruct (j <? Z.of_nat 16) eqn:E; [|lia]. cbn [andb].
  split; [reflexivity|]. split; [reflexivity|]. split; [apply morton16_range|].
  split.
  - rewrite <- (morton_mod 16 (x + 2 ^ 16) y), <- (morton_mod 16 x y).
    f_equal. change (2 ^ Z.of_nat 16) with (2 ^ 16).
    rewrite <- (Z.mul_1_l (2 ^ 16)) at 1. apply Z.mod_add. lia.
  - rewrite <- (morton_mod 16 x (y + 2 ^ 16)), <- (morton_mod 16 x y).
    f_equal. change (2 ^ Z.of_nat 16) with (2 ^ 16).
    rewrite <- (Z.mul_1_l (2 ^ 16)) at 1. apply Z.mod_add. lia.
Qed.

Lemma interleaveXY_bits_witness :
  Z.testbit (interleaveXY 5 3) (2 * 2) = Z.testbit 5 2 /\
  Z.testbit (interleaveXY 5 3) (2 * 2 + 1) = Z.testbit 3 2 /\
  0 <= interleaveXY 5 3 < 2 ^ 32 /\
  interleaveXY (5 + 2 ^ 16) 3 = interleaveXY 5 3 /\
  interleaveXY 5 (3 + 2 ^ 16) = interleaveXY 5 3.
Proof. apply (interleaveXY_bits 5 3 2). lia. Defined.

(** X2. On a well-formed field the keys of the positions of the grid are
    exactly the indices of the cell array, each index being the key of one
    position only. *)
Theorem grid_slots (f : GameField.t) :
  wf f ->
  (forall x y, in_grid (GameField.size f) x y = true ->
     0 <= interleaveXY x y < Z.of_nat (length (GameField.cells f))) /\
  (forall k, 0 <= k < Z.of_nat (length (GameField.cells f)) ->
     in_grid (GameField.size f) (morton_x 16 k) (morton_y 16 k) = true /\
     interleaveXY (morton_x 16 k) (morton_y 16 k) = k) /\
  (forall x y x' y',
     in_grid (GameField.size f) x y = true -> in_grid (GameField.size f) x' y' = true ->
     interleaveXY x y = interleaveXY x' y' -> x = x' /\ y = y') /\
  Z.of_nat (length (GameField.cells f)) = GameField.size f * GameField.size f.
Proof.
  intros Hwf. split; [|split; [|split]].
  - intros x y. apply in_grid_key, Hwf.
  - intros k Hk. destruct (index_on_grid f k Hwf Hk) as (_ & Hkey & Hx & Hy).
    split; [apply in_grid_spec; lia | exact Hkey].
  - intros x y x' y'. apply in_grid_inj, Hwf.
  - symmetry. apply square_cells, Hwf.
Qed.

Lemma grid_slots_witness :
  (forall x y, in_grid 4 x y = true -> 0 <= interleaveXY x y < 16) /\
  (forall k, 0 <= k < 16 ->
     in_grid 4 (morton_x 16 k) (morton_y 16 k) = true /\
     interleaveXY (morton_x 16 k) (morton_y 16 k) = k) /\
  (forall x y x' y',
     in_grid 4 x y = true -> in_grid 4 x' y' = true ->
     interleaveXY x y = interleaveXY x' y' -> x = x' /\ y = y') /\
  16 = 4 * 4.
Proof. apply (grid_slots blinker4). constructor; cbn; lia. Defined.

(** ** The moves *)

(** X3. Each move changes one coordinate of the cursor by one, modulo
    [2^16], and leaves the other and the cells alone; it returns the masked
    code of the cell it lands on and reads that cell only, or, when it lands
    off the grid, the masked sentinel without reading anything. *)
Theorem moves_by_coordinates (s : GameField.machine) (x y mask : Z) :
  wf (GameField.field s) ->
  GameField.idx (GameField.field s) = interleaveXY x y ->
  GameField.right mask s
    = Some (probe_val (GameField.field s) (x + 1) y mask, moved (x + 1) y s) /\
  GameField.left mask s
    = Some (probe_val (GameField.field s) (x - 1) y mask, moved (x - 1) y s) /\
  GameField.up mask s
    = Some (probe_val (GameField.field s) x (y - 1) mask, moved x (y - 1) s) /\
  GameField.down mask s
    = Some (probe_val (GameField.field s) x (y + 1) mask, moved x (y + 1) s) /\
  (forall a b,
     GameField.idx (GameField.field (moved a b s)) = interleaveXY a b /\
     GameField.cells (GameField.field (moved a b s)) = GameField.cells (GameField.field s) /\
     (u16 a < GameField.size (GameField.field s) ->
      u16 b < GameField.size (GameField.field s) ->
      probe_val (GameField.field s) a b mask
        = u8 (Z.land (cell (GameField.field s) (interleaveXY a b)) mask) /\
      GameField.trace (moved a b s) = GameField.trace s ++ [EvRead (interleaveXY a b)] /\
      0 <= interleaveXY a b < Z.of_nat (length (GameField.cells (GameField.field s)))) /\
     (GameField.size (GameField.field s) <= u16 a \/
      GameField.size (GameField.field s) <= u16 b ->
      probe_val (GameField.field s) a b mask = u8 (Z.land DeadVisited mask) /\
      GameField.trace (moved a b s) = GameField.trace s)).
Proof.
  intros Hwf Hidx.
  split; [apply right_run; assumption|]. split; [apply left_run; assumption|].
  split; [apply up_run; assumption|]. split; [apply down_run; assumption|].
  intros a b. split; [reflexivity|]. split; [reflexivity|]. split.
  - intros Ha Hb.
    assert (Hon : on_grid (GameField.field s) a b = true) by (unfold on_grid; lia).
    unfold probe_val, moved, probe_ev. rewrite Hon. cbn [GameField.trace].
    split; [reflexivity|]. split; [reflexivity | apply on_grid_range; assumption].
  - intros Hab.
    assert (Hoff : on_grid (GameField.field s) a b = false) by (unfold on_grid; lia).
    unfold probe_val, moved, probe_ev. rewrite Hoff. cbn [GameField.trace].
    split; [reflexivity | apply app_nil_r].
Qed.

Lemma moves_by_coordinates_witness :
  GameField.right 1 (GameField.Machine (with_idx 3 blinker4) [])
    = Some (probe_val blinker4 (1 + 1) 1 1, moved (1 + 1) 1 (GameField.Machine (with_idx 3 blinker4) [])).
Proof.
  apply (moves_by_coordinates (GameField.Machine (with_idx 3 blinker4) []) 1 1 1).
  - constructor; cbn; lia.
  - reflexivity.
Defined.

(** X4. On a grid of [Dead] and [Alive] cells, with the cursor on a
    position of the grid, [countAliveNeighbors] returns the number of alive
    Moore neighbours on the board, a number from 0 to 8. *)
Theorem countAliveNeighbors_count (s : GameField.machine) (x y : Z) :
  wf (GameField.field s) -> settled (GameField.field s) ->
  in_grid (GameField.size (GameField.field s)) x y = true ->
  GameField.idx (GameField.field s) = interleaveXY x y ->
  exists s', GameField.countAliveNeighbors s
             = Some (neighbours_alive (GameField.field s) x y, s') /\
    GameField.field s' = GameField.field s /\
    0 <= neighbours_alive (GameField.field s) x y <= 8.
Proof.
  intros Hwf Hset Hin Hidx. destruct s as [f t]. cbn [GameField.field] in *.
  exists (logged (walk_ev f x y) (GameField.Machine f t)).
  rewrite <- (walk_sum_Inv f Hset (GameField.Machine f t) x y (Inv_start f Hwf t) Hin).
  split; [apply countAliveNeighbors_run; assumption|]. split; [reflexivity|].
  cbn [GameField.field]. unfold walk_sum, walk. cbn [fold_right fst snd].
  pose proof (low_bit_range f x (y - 1)). pose proof (low_bit_range f (x - 1) (y - 1)).
  pose proof (low_bit_range f (x - 1) y). pose proof (low_bit_range f (x - 1) (y + 1)).
  pose proof (low_bit_range f x (y + 1)). pose proof (low_bit_range f (x + 1) (y + 1)).
  pose proof (low_bit_range f (x + 1) y). pose proof (low_bit_range f (x + 1) (y - 1)).
  lia.
Qed.

Lemma countAliveNeighbors_count_witness :
  exists s', GameField.countAliveNeighbors (GameField.Machine (with_idx 3 blinker4) [])
             = Some (neighbours_alive blinker4 1 1, s') /\
    GameField.field s' = with_idx 3 blinker4 /\
    0 <= neighbours_alive blinker4 1 1 <= 8.
Proof.
  apply (countAliveNeighbors_count (GameField.Machine (with_idx 3 blinker4) []) 1 1).
  - constructor; cbn; lia.
  - exact settled_blinker4.
  - reflexivity.
  - reflexivity.
Defined.

(** X5. [updateCell] with the cursor on a position of the grid rewrites
    the cell under the cursor by the rule and nothing else: an [Alive] cell
    with fewer than 2 or more than 3 counted neighbours becomes [Dying], one
    with 2 or 3 stays [Alive]; a [Dead] cell becomes [Birthing] on exactly 3
    and [DeadVisited] otherwise; the cursor and all other cells stay. *)
Theorem updateCell_rule (s : GameField.machine) (x y : Z) :
  wf (GameField.field s) -> on_grid (GameField.field s) x y = true ->
  GameField.idx (GameField.field s) = interleaveXY x y ->
  exists s', GameField.updateCell s = Some (tt, s') /\
    GameField.idx (GameField.field s') = GameField.idx (GameField.field s) /\
    same_shape (GameField.field s) (GameField.field s') /\
    (forall k, 0 <= k -> k <> interleaveXY x y ->
       cell (GameField.field s') k = cell (GameField.field s) k) /\
    let c := cell (GameField.field s) (interleaveXY x y) in
    let a := walk_sum (GameField.field s) x y in
    let c' := cell (GameField.field s') (interleaveXY x y) in
    (c = Alive -> a < 2 \/ a > 3 -> c' = Dying) /\
    (c = Alive -> 2 <= a <= 3 -> c' = Alive) /\
    (c = Dead -> a = 3 -> c' = Birthing) /\
    (c = Dead -> a <> 3 -> c' = DeadVisited) /\
    (c <> Alive -> c <> Dead -> c' = c).
Proof.
  intros Hwf Hon Hidx. exists (updated x y s).
  split; [apply updateCell_run; assumption|]. split; [reflexivity|].
  split; [apply shape_updated|]. split.
  - intros k Hk Hne. rewrite cell_updated by assumption.
    destruct (k =? interleaveXY x y) eqn:E; [lia | reflexivity].
  - cbv zeta. rewrite cell_updated by (try assumption; pose proof (interleaveXY_range x y); lia).
    rewrite Z.eqb_refl. unfold rule, Alive, Dead, Dying, Birthing, DeadVisited.
    set (c := cell (GameField.field s) (interleaveXY x y)).
    set (a := walk_sum (GameField.field s) x y).
    destruct ((c =? 1) && ((a <? 2) || (a >? 3))) eqn:E1;
      destruct (c =? 0) eqn:E2; destruct (a =? 3) eqn:E3;
      repeat split; intros; try lia.
Qed.

Lemma updateCell_rule_witness :
  exists s', GameField.updateCell (GameField.Machine (with_idx 3 blinker4) []) = Some (tt, s') /\
    GameField.idx (GameField.field s') = 3.
Proof.
  destruct (updateCell_rule (GameField.Machine (with_idx 3 blinker4) []) 1 1) as (s' & H & Hi & _).
  - constructor; cbn; lia.
  - reflexivity.
  - reflexivity.
  - exists s'. split; [exact H | exact Hi].
Defined.

(** ** Editing the board *)

Lemma toggle_run s :
  0 <= GameField.idx (GameField.field s) < Z.of_nat (length (GameField.cells (GameField.field s))) ->
  GameField.toggle s
  = Some (tt, wrote (GameField.idx (GameField.field s))
                    (if cell (GameField.field s) (GameField.idx (GameField.field s)) =? Dead
                     then Alive else Dead)
                    (logged [EvRead (GameField.idx (GameField.field s))] s)).
Proof.
  intros Hi. unfold GameField.toggle.
  rewrite (bind_Some _ _ _ _ _ (gets_run GameField.idx s)).
  rewrite (bind_Some _ _ _ _ _ (read_cell_run s _ Hi)).
  rewrite write_cell_run by exact Hi. reflexivity.
Qed.

Lemma setCursor_run s x y :
  wf (GameField.field s) ->
  0 <= x < GameField.size (GameField.field s) ->
  0 <= y < GameField.size (GameField.field s) ->
  GameField.setCursor x y s
  = Some (cell (GameField.field s) (interleaveXY x y),
          logged [EvRead (interleaveXY x y)] (start_at (interleaveXY x y) s)).
Proof.
  intros Hwf Hx Hy. unfold GameField.setCursor.
  rewrite (bind_Some _ _ _ _ _ (gets_run GameField.size s)).
  destruct ((x >=? GameField.size (GameField.field s))
            || (y >=? GameField.size (GameField.field s))) eqn:E; [lia|].
  rewrite (bind_Some _ _ s tt (start_at (interleaveXY x y) s) eq_refl).
  rewrite (bind_Some _ _ _ _ _ (gets_run GameField.idx _)).
  cbn [start_at GameField.field with_idx GameField.idx].
  assert (Hin : in_grid (GameField.size (GameField.field s)) x y = true)
    by (apply in_grid_spec; lia).
  rewrite read_cell_run by (apply (in_grid_key _ x y Hwf Hin)).
  reflexivity.
Qed.

(** X6. [toggle] with the cursor inside the array turns a [Dead] cell
    [Alive] and a cell of any other code [Dead], keeps the cursor and all
    other cells, and applied twice to a [Dead] or [Alive] cell gives back
    the cells it started from. *)
Theorem toggle_flips (s : GameField.machine) :
  0 <= GameField.idx (GameField.field s)
    < Z.of_nat (length (GameField.cells (GameField.field s))) ->
  exists s1 s2,
    GameField.toggle s = Some (tt, s1) /\ GameField.toggle s1 = Some (tt, s2) /\
    GameField.idx (GameField.field s1) = GameField.idx (GameField.field s) /\
    same_shape (GameField.field s) (GameField.field s1) /\
    cell (GameField.field s1) (GameField.idx (GameField.field s))
      = (if cell (GameField.field s) (GameField.idx (GameField.field s)) =? Dead
         then Alive else Dead) /\
    (forall k, 0 <= k -> k <> GameField.idx (GameField.field s) ->
       cell (GameField.field s1) k = cell (GameField.field s) k) /\
    (cell (GameField.field s) (GameField.idx (GameField.field s)) = Dead \/
     cell (GameField.field s) (GameField.idx (GameField.field s)) = Alive ->
     GameField.cells (GameField.field s2) = GameField.cells (GameField.field s)).
Proof.
  intros Hi. pose proof (toggle_run s Hi) as H1.
  set (i := GameField.idx (GameField.field s)) in *.
  set (s1 := wrote i (if cell (GameField.field s) i =? Dead then Alive else Dead)
                   (logged [EvRead i] s)) in *.
  assert (Hl1 : length (GameField.cells (GameField.field s1))
                = length (GameField.cells (GameField.field s)))
    by exact (length_wrote i _ (logged [EvRead i] s)).
  assert (Hi1 : GameField.idx (GameField.field s1) = i) by reflexivity.
  assert (Hc1 : forall k, 0 <= k ->
            cell (GameField.field s1) k
            = if k =? i then (if cell (GameField.field s) i =? Dead then Alive else Dead)
              else cell (GameField.field s) k).
  { intros k Hk. unfold s1, wrote. cbn [GameField.field logged].
    apply cell_insert; [exact Hi | exact Hk]. }
  pose proof (toggle_run s1 ltac:(rewrite Hi1, Hl1; exact Hi)) as H2. rewrite Hi1 in H2.
  eexists. eexists. split; [exact H1|]. split; [exact H2|]. split; [exact Hi1|].
  split; [apply (shape_wrote i _ (logged [EvRead i] s))|]. split.
  - rewrite Hc1 by lia. rewrite Z.eqb_refl. reflexivity.
  - split.
    + intros k Hk Hne. rewrite Hc1 by exact Hk. destruct (k =? i) eqn:E; [lia | reflexivity].
    + intros Hc. apply cells_ext.
      * rewrite length_wrote. cbn [logged GameField.field]. exact Hl1.
      * intros k Hk. unfold wrote at 1. cbn [GameField.field logged].
        rewrite cell_insert by (rewrite ?Hl1; lia).
        destruct (k =? i) eqn:E; [|rewrite Hc1 by lia; rewrite E; reflexivity].
        assert (k = i) by lia. subst k. rewrite Hc1 by lia. rewrite Z.eqb_refl.
        unfold Alive, Dead in *. destruct Hc as [-> | ->]; reflexivity.
Qed.

Lemma toggle_flips_witness :
  exists s1 s2,
    GameField.toggle (GameField.Machine (with_idx 3 blinker4) []) = Some (tt, s1) /\
    GameField.toggle s1 = Some (tt, s2) /\
    GameField.idx (GameField.field s1) = 3 /\
    same_shape (with_idx 3 blinker4) (GameField.field s1) /\
    cell (GameField.field s1) 3 = Dead /\
    (forall k, 0 <= k -> k <> 3 -> cell (GameField.field s1) k = cell (with_idx 3 blinker4) k) /\
    (cell (with_idx 3 blinker4) 3 = Dead \/ cell (with_idx 3 blinker4) 3 = Alive ->
     GameField.cells (GameField.field s2) = GameField.cells blinker4).
Proof.
  apply (toggle_flips (GameField.Machine (with_idx 3 blinker4) [])). cbn. lia.
Defined.

(** X7. [setCursor] on a position of the grid returns the code of its
    cell, reading that cell only, and puts the cursor on it: the cursor's
    key decodes to the position asked for; no cell changes. *)
Theorem setCursor_on_grid (s : GameField.machine) (x y : Z) :
  wf (GameField.field s) ->
  0 <= x < GameField.size (GameField.field s) ->
  0 <= y < GameField.size (GameField.field s) ->
  exists s', GameField.setCursor x y s
             = Some (cell (GameField.field s) (interleaveXY x y), s') /\
    GameField.idx (GameField.field s') = interleaveXY x y /\
    morton_x 16 (GameField.idx (GameField.field s')) = x /\
    morton_y 16 (GameField.idx (GameField.field s')) = y /\
    GameField.cells (GameField.field s') = GameField.cells (GameField.field s) /\
    wf (GameField.field s') /\
    GameField.trace s' = GameField.trace s ++ [EvRead (interleaveXY x y)] /\
    0 <= interleaveXY x y < Z.of_nat (length (GameField.cells (GameField.field s))).
Proof.
  intros Hwf Hx Hy.
  assert (Hin : in_grid (GameField.size (GameField.field s)) x y = true)
    by (apply in_grid_spec; lia).
  destruct (decode_key _ x y Hwf Hin) as [Ex Ey].
  eexists. split; [apply setCursor_run; assumption|].
  cbn [logged start_at GameField.field GameField.trace with_idx GameField.idx GameField.cells].
  split; [reflexivity|]. split; [exact Ex|]. split; [exact Ey|]. split; [reflexivity|].
  split; [apply wf_with_idx; [exact Hwf | apply interleaveXY_range]|].
  split; [reflexivity | apply (in_grid_key _ x y Hwf Hin)].
Qed.

Lemma setCursor_on_grid_witness :
  exists s', GameField.setCursor 1 2 (GameField.Machine blinker4 [])
             = Some (cell blinker4 (interleaveXY 1 2), s') /\
    GameField.idx (GameField.field s') = interleaveXY 1 2 /\
    morton_x 16 (GameField.idx (GameField.field s')) = 1 /\
    morton_y 16 (GameField.idx (GameField.field s')) = 2 /\
    GameField.cells (GameField.field s') = GameField.cells blinker4 /\
    wf (GameField.field s') /\
    GameField.trace s' = [] ++ [EvRead (interleaveXY 1 2)] /\
    0 <= interleaveXY 1 2 < Z.of_nat (length (GameField.cells blinker4)).
Proof.
  apply (setCursor_on_grid (GameField.Machine blinker4 []) 1 2).
  - exact wf_blinker4.
  - cbn. lia.
  - cbn. lia.
Defined.

(** X8. A left click at a pixel of the board flips the cell that contains
    the pixel, the one at column [pixel_x / cell_size] and row
    [pixel_y / cell_size], and no other cell of the board; a click at a
    negative pixel or beyond the last cell leaves the machine as it is. *)
Theorem click_flips (s : GameField.machine) (pixel_x pixel_y cell_size : Z) :
  wf (GameField.field s) -> 0 < cell_size ->
  let x := pixel_x / cell_size in
  let y := pixel_y / cell_size in
  let N := GameField.size (GameField.field s) in
  (0 <= pixel_x < N * cell_size -> 0 <= pixel_y < N * cell_size ->
   in_grid N x y = true /\
   exists s', Main.click pixel_x pixel_y cell_size s = Some (tt, s') /\
     same_shape (GameField.field s) (GameField.field s') /\
     cell (GameField.field s') (interleaveXY x y)
       = (if cell (GameField.field s) (interleaveXY x y) =? Dead then Alive else Dead) /\
     forall x' y', in_grid N x' y' = true -> (x', y') <> (x, y) ->
       cell (GameField.field s') (interleaveXY x' y')
       = cell (GameField.field s) (interleaveXY x' y')) /\
  (pixel_x < 0 \/ pixel_y < 0 \/ N * cell_size <= pixel_x \/ N * cell_size <= pixel_y ->
   Main.click pixel_x pixel_y cell_size s = Some (tt, s)).
Proof.
  intros Hwf Hcs x y N. pose proof (size_bound _ Hwf) as HN. fold N in HN.
  split.
  - intros Hpx Hpy.
    assert (Hx : 0 <= x < N).
    { unfold x. split; [apply Z.div_pos; lia | apply Z.div_lt_upper_bound; lia]. }
    assert (Hy : 0 <= y < N).
    { unfold y. split; [apply Z.div_pos; lia | apply Z.div_lt_upper_bound; lia]. }
    assert (Hin : in_grid N x y = true) by (apply in_grid_spec; lia).
    split; [exact Hin|].
    pose proof (in_grid_key _ x y Hwf Hin) as Hk.
    unfold Main.click.
    destruct ((pixel_x >=? 0) && (pixel_y >=? 0)) eqn:E1; [|lia].
    destruct (cell_size =? 0) eqn:E2; [lia|]. cbv zeta.
    rewrite (bind_Some _ _ _ _ _ (gets_run GameField.size s)).
    fold x y N. destruct ((x <? N) && (y <? N)) eqn:E3; [|lia].
    rewrite (bind_Some _ _ _ _ _ (setCursor_run s x y Hwf Hx Hy)).
    set (s0 := logged [EvRead (interleaveXY x y)] (start_at (interleaveXY x y) s)).
    assert (Hi0 : GameField.idx (GameField.field s0) = interleaveXY x y) by reflexivity.
    assert (Hc0 : GameField.cells (GameField.field s0) = GameField.cells (GameField.field s))
      by reflexivity.
    rewrite toggle_run by (rewrite Hi0, Hc0; exact Hk). rewrite Hi0.
    eexists. split; [reflexivity|]. split.
    + apply (same_shape_trans _ (GameField.field s0)); [repeat split|].
      exact (shape_wrote _ _ (logged [EvRead (interleaveXY x y)] s0)).
    + assert (Hc : forall k, 0 <= k ->
                cell (GameField.field
                        (wrote (interleaveXY x y)
                           (if cell (GameField.field s0) (interleaveXY x y) =? Dead
                            then Alive else Dead) (logged [EvRead (interleaveXY x y)] s0))) k
                = if k =? interleaveXY x y
                  then (if cell (GameField.field s) (interleaveXY x y) =? Dead
                        then Alive else Dead)
                  else cell (GameField.field s) k).
      { intros k Hk0. unfold wrote. cbn [GameField.field logged].
        rewrite cell_insert by (rewrite ?Hc0; lia). reflexivity. }
      split.
      * rewrite Hc by lia. rewrite Z.eqb_refl. reflexivity.
      * intros x' y' Hin' Hne. pose proof (in_grid_key _ x' y' Hwf Hin') as Hk'.
        rewrite Hc by lia.
        destruct (interleaveXY x' y' =? interleaveXY x y) eqn:E; [|reflexivity].
        exfalso. apply Hne.
        destruct (in_grid_inj _ x' y' x y Hwf Hin' Hin ltac:(lia)) as [-> ->]. reflexivity.
  - intros Hout. unfold Main.click.
    destruct ((pixel_x >=? 0) && (pixel_y >=? 0)) eqn:E1; [|reflexivity].
    destruct (cell_size =? 0) eqn:E2; [lia|]. cbv zeta.
    rewrite (bind_Some _ _ _ _ _ (gets_run GameField.size s)).
    fold x y N. destruct ((x <? N) && (y <? N)) eqn:E3; [|reflexivity].
    exfalso.
    assert (pixel_x < N * cell_size).
    { apply Z.nle_gt. intros Hge.
      assert (N <= x) by (unfold x; apply Z.div_le_lower_bound; lia). lia. }
    assert (pixel_y < N * cell_size).
    { apply Z.nle_gt. intros Hge.
      assert (N <= y) by (unfold y; apply Z.div_le_lower_bound; lia). lia. }
    lia.
Qed.

Lemma click_flips_witness :
  (0 <= 30 < 4 * 25 -> 0 <= 60 < 4 * 25 ->
   in_grid 4 (30 / 25) (60 / 25) = true /\
   exists s', Main.click 30 60 25 (GameField.Machine blinker4 []) = Some (tt, s') /\
     same_shape blinker4 (GameField.field s') /\
     cell (GameField.field s') (interleaveXY (30 / 25) (60 / 25))
       = (if cell blinker4 (interleaveXY (30 / 25) (60 / 25)) =? Dead then Alive else Dead) /\
     forall x' y', in_grid 4 x' y' = true -> (x', y') <> (30 / 25, 60 / 25) ->
       cell (GameField.field s') (interleaveXY x' y') = cell blinker4 (interleaveXY x' y')) /\
  (30 < 0 \/ 60 < 0 \/ 4 * 25 <= 30 \/ 4 * 25 <= 60 ->
   Main.click 30 60 25 (GameField.Machine blinker4 []) = Some (tt, GameField.Machine blinker4 [])).
Proof.
  apply (click_flips (GameField.Machine blinker4 []) 30 60 25).
  - exact wf_blinker4.
  - lia.
Defined.

(** X9. [clear] makes every cell [Dead] and keeps the geometry and the
    cursor. *)
Theorem clear_all_dead (s : GameField.machine) :
  wf (GameField.field s) ->
  exists s', GameField.clear s = Some (tt, s') /\
    GameField.cells (GameField.field s')
      = replicate (length (GameField.cells (GameField.field s))) Dead /\
    same_shape (GameField.field s) (GameField.field s') /\
    GameField.idx (GameField.field s') = GameField.idx (GameField.field s) /\
    wf (GameField.field s') /\ settled (GameField.field s') /\
    alive_indices (GameField.field s') = [].
Proof.
  intros Hwf. destruct (clear_run s Hwf) as (s' & Hrun & [Hwf' Hsh] & Hidx & Hdead).
  assert (Hl : length (GameField.cells (GameField.field s'))
               = length (GameField.cells (GameField.field s))) by apply Hsh.
  assert (Hcells : GameField.cells (GameField.field s')
                   = replicate (length (GameField.cells (GameField.field s))) Dead).
  { apply list_eq. intros j.
    destruct (Nat.lt_ge_cases j (length (GameField.cells (GameField.field s)))) as [Hj | Hj].
    - specialize (Hdead (Z.of_nat j) ltac:(lia)).
      rewrite <- (Nat2Z.id j) at 1. rewrite lookup_cell by lia. rewrite Hdead.
      symmetry. apply lookup_replicate_2. exact Hj.
    - rewrite !(proj2 (lookup_ge_None _ _)); [reflexivity | rewrite length_replicate; lia | lia]. }
  exists s'. split; [exact Hrun|]. split; [exact Hcells|]. split; [exact Hsh|].
  split; [exact Hidx|]. split; [exact Hwf'|]. split.
  - apply settled_cells. intros k Hk. left. apply Hdead. lia.
  - destruct (alive_indices (GameField.field s')) as [|k l] eqn:E; [reflexivity|].
    assert (Hk : k ∈ alive_indices (GameField.field s')) by (rewrite E; left).
    apply alive_indices_spec in Hk. destruct Hk as [Hk Hal].
    rewrite Hdead in Hal by lia. discriminate.
Qed.

Lemma clear_all_dead_witness :
  exists s', GameField.clear (GameField.Machine blinker4 []) = Some (tt, s') /\
    GameField.cells (GameField.field s') = replicate (length (GameField.cells blinker4)) Dead /\
    same_shape blinker4 (GameField.field s') /\
    GameField.idx (GameField.field s') = GameField.idx blinker4 /\
    wf (GameField.field s') /\ settled (GameField.field s') /\
    alive_indices (GameField.field s') = [].
Proof. apply (clear_all_dead (GameField.Machine blinker4 [])). exact wf_blinker4. Defined.

(** X10. [setAlive] makes [Alive] exactly the cells whose index is listed
    and keeps the others; an index at or beyond the number of cells is
    skipped, and the order and the repetitions of the list do not matter. *)
Theorem setAlive_marks (s : GameField.machine) (idxs : list Z) :
  wf (GameField.field s) -> Forall (fun i => 0 <= i) idxs ->
  exists s', GameField.setAlive idxs s = Some (tt, s') /\
    same_shape (GameField.field s) (GameField.field s') /\
    GameField.idx (GameField.field s') = GameField.idx (GameField.field s) /\
    (forall k, 0 <= k < Z.of_nat (length (GameField.cells (GameField.field s))) ->
       (In k idxs -> cell (GameField.field s') k = Alive) /\
       (~ In k idxs -> cell (GameField.field s') k = cell (GameField.field s) k)) /\
    (forall idxs' s'', Forall (fun i => 0 <= i) idxs' ->
       (forall k, 0 <= k < Z.of_nat (length (GameField.cells (GameField.field s))) ->
          In k idxs <-> In k idxs') ->
       GameField.setAlive idxs' s = Some (tt, s'') ->
       GameField.cells (GameField.field s'') = GameField.cells (GameField.field s')).
Proof.
  intros Hwf Hpos. destruct (setAlive_run s idxs Hwf Hpos) as (s' & Hrun & [Hwf' Hsh] & Hidx & Hc).
  exists s'. split; [exact Hrun|]. split; [exact Hsh|]. split; [exact Hidx|]. split.
  - intros k Hk. rewrite (Hc k Hk). split; intros Hin.
    + rewrite bool_decide_eq_true_2; [reflexivity | apply list_elem_of_In; exact Hin].
    + rewrite bool_decide_eq_false_2; [reflexivity|].
      intros H. apply Hin, list_elem_of_In, H.
  - intros idxs' s'' Hpos' Hsame Hrun'.
    destruct (setAlive_run s idxs' Hwf Hpos') as (t' & Hrun2 & [_ Hsh2] & _ & Hc2).
    rewrite Hrun' in Hrun2. injection Hrun2 as <-.
    assert (Hl : length (GameField.cells (GameField.field s'))
                 = length (GameField.cells (GameField.field s))) by apply Hsh.
    assert (Hl2 : length (GameField.cells (GameField.field s''))
                  = length (GameField.cells (GameField.field s))) by apply Hsh2.
    apply cells_ext; [congruence|]. intros k Hk. rewrite Hl2 in Hk.
    rewrite (Hc k Hk), (Hc2 k Hk).
    destruct (bool_decide (k ∈ idxs)) eqn:E1; destruct (bool_decide (k ∈ idxs')) eqn:E2;
      try reflexivity.
    + apply bool_decide_eq_true in E1. apply bool_decide_eq_false in E2.
      exfalso. apply E2. apply list_elem_of_In, (Hsame k Hk), list_elem_of_In, E1.
    + apply bool_decide_eq_false in E1. apply bool_decide_eq_true in E2.
      exfalso. apply E1. apply list_elem_of_In, (Hsame k Hk), list_elem_of_In, E2.
Qed.

Lemma setAlive_marks_witness :
  exists s', GameField.setAlive [2; 99; 2] (GameField.Machine blinker4 []) = Some (tt, s') /\
    same_shape blinker4 (GameField.field s') /\
    GameField.idx (GameField.field s') = GameField.idx blinker4 /\
    (forall k, 0 <= k < Z.of_nat (length (GameField.cells blinker4)) ->
       (In k [2; 99; 2] -> cell (GameField.field s') k = Alive) /\
       (~ In k [2; 99; 2] -> cell (GameField.field s') k = cell blinker4 k)) /\
    (forall idxs' s'', Forall (fun i => 0 <= i) idxs' ->
       (forall k, 0 <= k < Z.of_nat (length (GameField.cells blinker4)) ->
          In k [2; 99; 2] <-> In k idxs') ->
       GameField.setAlive idxs' (GameField.Machine blinker4 []) = Some (tt, s'') ->
       GameField.cells (GameField.field s'') = GameField.cells (GameField.field s')).
Proof.
  apply (setAlive_marks (GameField.Machine blinker4 []) [2; 99; 2]).
  - exact wf_blinker4.
  - repeat constructor; lia.
Defined.

(** ** Construction and files *)

Lemma new_pow2 t : 0 <= t <= 12 ->
  GameField.new (2 ^ t)
  = inr (GameField.mk t (interleaveXY (2 ^ t) 0) (Z.shiftl (interleaveXY (2 ^ t) 0) 1)
           (replicate (Z.to_nat (Z.shiftl 1 (Z.shiftl t 1))) Dead) (2 ^ t) 0).
Proof.
  intros Ht.
  assert (Hr : 0 < 2 ^ t < 2 ^ 64).
  { split; [apply Z.pow_pos_nonneg; lia | apply Z.pow_lt_mono_r; lia]. }
  destruct (new_run (2 ^ t) ltac:(lia)) as [[E _] | (t' & q & Ht' & Hq & Hsz & Hnew)]; [lia|].
  symmetry in Hsz. destruct (pow2_unique t' q t ltac:(lia) Hq ltac:(lia) Hsz) as [-> ->].
  rewrite Hnew. cbn [Z.eqb negb]. destruct (t >? 12) eqn:E; [lia | reflexivity].
Qed.

(** X11. The constructor reports a side that is zero or not a power of
    two as [size needs to be power of 2], and a power of two above 4096 as
    [size >4096 not supported]. *)
Theorem new_errors (size0 : Z) :
  0 <= size0 < 2 ^ 64 ->
  ((forall m, 0 <= m -> size0 <> 2 ^ m) ->
   GameField.new size0 = inl (invalid_argument "size needs to be power of 2")) /\
  (forall m, 12 < m -> size0 = 2 ^ m ->
   GameField.new size0 = inl (invalid_argument "size >4096 not supported")).
Proof.
  intros Hs. split.
  - intros Hnp. destruct (new_run size0 Hs) as [[_ E] | (t & q & Ht & Hq & Hsz & Hnew)];
      [exact E|].
    rewrite Hnew. destruct (q =? 0) eqn:Eq; [|reflexivity].
    exfalso. apply (Hnp t ltac:(lia)). assert (q = 0) by lia. subst q. lia.
  - intros m Hm E. destruct (new_run size0 Hs) as [[E0 _] | (t & q & Ht & Hq & Hsz & Hnew)].
    + assert (0 < 2 ^ m) by (apply Z.pow_pos_nonneg; lia). lia.
    + rewrite E in Hsz. symmetry in Hsz.
      destruct (pow2_unique t q m ltac:(lia) Hq ltac:(lia) Hsz) as [-> ->].
      rewrite Hnew. cbn [Z.eqb negb]. destruct (m >? 12) eqn:E'; [reflexivity | lia].
Qed.

Lemma new_errors_witness :
  GameField.new 8192 = inl (invalid_argument "size >4096 not supported").
Proof. apply (proj2 (new_errors 8192 ltac:(lia)) 13); [lia | reflexivity]. Defined.

(** X12. [openFile] on a file that declares a side [2^t] with [t <= 12]
    leaves a well-formed board of that side whose alive cells are exactly
    the listed indices below [4^t], every other cell being [Dead],
    whatever the board held before; the board is rebuilt, with the cursor
    at 0, when the side differs from the current one. *)
Theorem openFile_loads (s : GameField.machine) (t : Z) (idxs : list Z) :
  wf (GameField.field s) -> 0 <= t <= 12 -> Forall (fun i => 0 <= i) idxs ->
  exists s', Game.openFile (2 ^ t :: idxs) s = Some (tt, s') /\
    wf (GameField.field s') /\
    GameField.size (GameField.field s') = 2 ^ t /\
    Z.of_nat (length (GameField.cells (GameField.field s'))) = 4 ^ t /\
    settled (GameField.field s') /\
    (forall k, 0 <= k < 4 ^ t ->
       cell (GameField.field s') k = Alive <-> In k idxs) /\
    GameField.idx (GameField.field s')
      = (if 2 ^ t =? GameField.size (GameField.field s)
         then GameField.idx (GameField.field s) else 0).
Proof.
  intros Hwf Ht Hpos.
  assert (Hload : forall g, wf (GameField.field g) -> GameField.size (GameField.field g) = 2 ^ t ->
            exists s', (GameField.clear ;;; GameField.setAlive idxs) g = Some (tt, s') /\
              wf (GameField.field s') /\
              GameField.size (GameField.field s') = 2 ^ t /\
              Z.of_nat (length (GameField.cells (GameField.field s'))) = 4 ^ t /\
              settled (GameField.field s') /\
              (forall k, 0 <= k < 4 ^ t ->
                 cell (GameField.field s') k = Alive <-> In k idxs) /\
              GameField.idx (GameField.field s') = GameField.idx (GameField.field g)).
  { intros g Hwfg Hsz.
    destruct (clear_run g Hwfg) as (g1 & Hclear & [Hwf1 Hsh1] & Hi1 & Hdead).
    destruct (setAlive_run g1 idxs Hwf1 Hpos) as (g2 & Hset & [Hwf2 Hsh2] & Hi2 & Hc).
    assert (Hl1 : length (GameField.cells (GameField.field g1))
                  = length (GameField.cells (GameField.field g))) by apply Hsh1.
    assert (Hl2 : length (GameField.cells (GameField.field g2))
                  = length (GameField.cells (GameField.field g1))) by apply Hsh2.
    assert (Hlen : Z.of_nat (length (GameField.cells (GameField.field g))) = 4 ^ t).
    { rewrite <- (square_cells _ Hwfg), Hsz.
      replace 4 with (2 * 2) by reflexivity. rewrite Z.pow_mul_l. reflexivity. }
    assert (Hcell : forall k, 0 <= k < 4 ^ t ->
              cell (GameField.field g2) k = if bool_decide (k ∈ idxs) then Alive else Dead).
    { intros k Hk. rewrite Hc by lia. rewrite Hdead by lia. reflexivity. }
    exists g2. split; [rewrite (bind_Some _ _ _ _ _ Hclear); exact Hset|].
    split; [exact Hwf2|]. split.
    { destruct Hsh2 as (_ & Hz2 & _). destruct Hsh1 as (_ & Hz1 & _). congruence. }
    split; [lia|]. split.
    { apply settled_cells. intros k Hk. rewrite Hcell by lia.
      destruct (bool_decide (k ∈ idxs)); [right | left]; reflexivity. }
    split; [|congruence].
    intros k Hk. rewrite Hcell by exact Hk. rewrite <- list_elem_of_In.
    destruct (bool_decide (k ∈ idxs)) eqn:E.
    - apply bool_decide_eq_true in E. split; [intros _; exact E | reflexivity].
    - apply bool_decide_eq_false in E. split; [discriminate | contradiction]. }
  unfold Game.openFile.
  rewrite (bind_Some _ _ _ _ _ (gets_run GameField.size s)).
  destruct (2 ^ t =? GameField.size (GameField.field s)) eqn:E; cbn [negb].
  - destruct (Hload s Hwf ltac:(lia)) as (s' & Hrun & H). exists s'. split; [exact Hrun | exact H].
  - rewrite (new_pow2 t Ht).
    set (f := GameField.mk t _ _ _ _ 0).
    rewrite (bind_Some _ _ s tt (GameField.Machine f (GameField.trace s)) eq_refl).
    destruct (Hload (GameField.Machine f (GameField.trace s)) (new_wf t Ht) eq_refl)
      as (s' & Hrun & H).
    exists s'. split; [exact Hrun | exact H].
Qed.

Lemma openFile_loads_witness :
  exists s', Game.openFile (2 ^ 1 :: [3; 7; 0]) (GameField.Machine blinker4 []) = Some (tt, s') /\
    wf (GameField.field s') /\
    GameField.size (GameField.field s') = 2 ^ 1 /\
    Z.of_nat (length (GameField.cells (GameField.field s'))) = 4 ^ 1 /\
    settled (GameField.field s') /\
    (forall k, 0 <= k < 4 ^ 1 -> cell (GameField.field s') k = Alive <-> In k [3; 7; 0]) /\
    GameField.idx (GameField.field s') = (if 2 ^ 1 =? 4 then 0 else 0).
Proof.
  apply (openFile_loads (GameField.Machine blinker4 []) 1 [3; 7; 0]).
  - exact wf_blinker4.
  - lia.
  - repeat constructor; lia.
Defined.

Lemma filter_seqZ_sorted (P : Z -> bool) (count : nat) : forall i,
  StronglySorted Z.lt (List.filter P (seqZ i (Z.of_nat count))) /\
  Forall (fun k => i <= k) (List.filter P (seqZ i (Z.of_nat count))).
Proof.
  induction count as [|count IH]; intros i.
  - change (seqZ i (Z.of_nat 0)) with (@nil Z). split; constructor.
  - rewrite (seqZ_cons i (Z.of_nat (S count))) by lia.
    replace (Z.pred (Z.of_nat (S count))) with (Z.of_nat count) by lia.
    destruct (IH (Z.succ i)) as [Hs Hf]. cbn [List.filter].
    assert (Hf' : Forall (fun k => i <= k) (List.filter P (seqZ (Z.succ i) (Z.of_nat count)))).
    { eapply Forall_impl; [exact Hf|]. cbv beta. intros k Hk. lia. }
    destruct (P i).
    + split.
      * constructor; [exact Hs|]. eapply Forall_impl; [exact Hf|]. cbv beta. intros k Hk. lia.
      * constructor; [lia | exact Hf'].
    + split; [exact Hs | exact Hf'].
Qed.

(** X13. [saveFile] writes the side of the board followed by the indices
    of the cells whose code is [Alive], each once and in increasing order;
    every word fits in 32 bits; the board is left as it was, each cell
    having been read once and none written. *)
Theorem saveFile_words (s : GameField.machine) :
  wf (GameField.field s) ->
  exists ws s', Game.saveFile s = Some (GameField.size (GameField.field s) :: ws, s') /\
    GameField.field s' = GameField.field s /\
    StronglySorted Z.lt ws /\
    (forall k, In k ws <->
       0 <= k < Z.of_nat (length (GameField.cells (GameField.field s))) /\
       cell (GameField.field s) k = Alive) /\
    Forall (fun w => u32 w = w) (GameField.size (GameField.field s) :: ws) /\
    GameField.trace s'
      = GameField.trace s
        ++ map EvRead (seqZ 0 (Z.of_nat (length (GameField.cells (GameField.field s))))).
Proof.
  intros Hwf. exists (alive_indices (GameField.field s)).
  pose proof (cells_bound _ Hwf) as Hb.
  eexists. split.
  - unfold Game.saveFile.
    rewrite (bind_Some _ _ _ _ _ (gets_run GameField.size s)).
    rewrite (square_cells _ Hwf), (u32_size _ Hwf).
    unfold u32 at 1. rewrite Z.mod_small by lia. rewrite Nat2Z.id.
    rewrite collect_alive_run by lia. reflexivity.
  - split; [reflexivity|]. split; [apply filter_seqZ_sorted|]. split.
    + intros k. rewrite <- list_elem_of_In. apply alive_indices_spec.
    + split; [|reflexivity]. constructor; [apply u32_size, Hwf|].
      apply Forall_forall. intros k Hk. apply alive_indices_spec in Hk.
      unfold u32. apply Z.mod_small. lia.
Qed.

Lemma saveFile_words_witness :
  exists ws s', Game.saveFile (GameField.Machine blinker4 []) = Some (4 :: ws, s') /\
    GameField.field s' = blinker4 /\
    StronglySorted Z.lt ws /\
    (forall k, In k ws <->
       0 <= k < Z.of_nat (length (GameField.cells blinker4)) /\ cell blinker4 k = Alive) /\
    Forall (fun w => u32 w = w) (4 :: ws) /\
    GameField.trace s'
      = [] ++ map EvRead (seqZ 0 (Z.of_nat (length (GameField.cells blinker4)))).
Proof. apply (saveFile_words (GameField.Machine blinker4 [])). exact wf_blinker4. Defined.

(** ** Whole ticks *)

Lemma updates_app t t' : updates (t ++ t') = (updates t + updates t')%nat.
Proof. unfold updates. rewrite List.filter_app, length_app. reflexivity. Qed.

Lemma updates_probe_ev f a b : updates (probe_ev f a b) = 0%nat.
Proof. unfold probe_ev. destruct (on_grid f a b); reflexivity. Qed.

Lemma updates_walk_ev f x y : updates (walk_ev f x y) = 0%nat.
Proof.
  unfold walk_ev, walk. cbn [flat_map fst snd].
  rewrite !updates_app, !updates_probe_ev. reflexivity.
Qed.

Lemma updates_rule_ev k c a : updates (rule_ev k c a) = 0%nat.
Proof. unfold rule_ev. destruct (_ && _); [reflexivity|]. destruct (c =? Dead); reflexivity. Qed.

Lemma updates_updated x y s :
  updates (GameField.trace (updated x y s)) = S (updates (GameField.trace s)).
Proof.
  unfold updated. cbn [GameField.trace].
  change (EvUpdateCell (interleaveXY x y) :: ?l) with ([EvUpdateCell (interleaveXY x y)] ++ l).
  rewrite !updates_app, updates_walk_ev, updates_rule_ev.
  change (updates [EvUpdateCell (interleaveXY x y)]) with 1%nat. lia.
Qed.

Lemma updates_moved a b s :
  updates (GameField.trace (moved a b s)) = updates (GameField.trace s).
Proof. unfold moved. cbn [GameField.trace]. rewrite updates_app, updates_probe_ev. lia. Qed.

Lemma updates_visit_post a b s :
  (updates (GameField.trace (visit_post a b s)) <= S (updates (GameField.trace s)))%nat.
Proof.
  unfold visit_post. destruct (_ =? Dead).
  - rewrite updates_updated, updates_moved. lia.
  - rewrite updates_moved. lia.
Qed.

Lemma updates_visits (ps : list (Z * Z)) : forall s,
  (updates (GameField.trace (fold_left (fun s p => visit_post (fst p) (snd p) s) ps s))
   <= updates (GameField.trace s) + length ps)%nat.
Proof.
  induction ps as [|p ps IH]; intros s.
  - cbn [fold_left length]. lia.
  - cbn [fold_left length]. specialize (IH (visit_post (fst p) (snd p) s)).
    pose proof (updates_visit_post (fst p) (snd p) s). lia.
Qed.

Lemma updates_evaluated k s :
  (updates (GameField.trace (evaluated k s))
   <= updates (GameField.trace s)
      + (if (cell (GameField.field s) k =? Alive)%Z then 9 else 0))%nat.
Proof.
  unfold evaluated. destruct (cell (GameField.field s) k =? Alive).
  - pose proof (updates_visits (walk (morton_x 16 k) (morton_y 16 k))
                  (updated (morton_x 16 k) (morton_y 16 k) (start_at k (logged [EvRead k] s)))) as H.
    rewrite updates_updated in H. cbn [length walk] in H.
    cbn [start_at logged GameField.trace] in H.
    rewrite updates_app in H. change (updates [EvRead k]) with 0%nat in H. lia.
  - cbn [logged GameField.trace]. rewrite updates_app. change (updates [EvRead k]) with 0%nat. lia.
Qed.

Lemma updates_committed k s :
  updates (GameField.trace (committed k s)) = updates (GameField.trace s).
Proof.
  unfold committed. destruct (_ =? Birthing); [|destruct (_ || _)];
    unfold wrote; cbn [logged GameField.trace]; rewrite ?updates_app;
    cbn [updates List.filter is_update length]; lia.
Qed.

Lemma updates_pass_committed (order : list Z) : forall s,
  updates (GameField.trace (pass committed order s)) = updates (GameField.trace s).
Proof.
  induction order as [|k order IH]; intros s; [reflexivity|].
  rewrite pass_cons, IH. apply updates_committed.
Qed.

Lemma updates_pass_evaluated f0 (order : list Z) : wf f0 -> settled f0 -> forall s,
  Inv f0 s -> Marked f0 s ->
  (forall k, In k order -> 0 <= k < Z.of_nat (length (GameField.cells f0))) ->
  (updates (GameField.trace (pass evaluated order s))
   <= updates (GameField.trace s)
      + 9 * length (List.filter (fun k => (cell f0 k =? Alive)%Z) order))%nat.
Proof.
  intros Hwf0 Hset. induction order as [|k order IH]; intros s HI HM Hr.
  - cbn [pass fold_left List.filter length]. lia.
  - rewrite pass_cons.
    destruct (evaluated_Inv f0 Hwf0 Hset s k HI HM (Hr k (or_introl eq_refl))) as (HI1 & HM1 & _).
    specialize (IH (evaluated k s) HI1 HM1 (fun q Hq => Hr q (or_intror Hq))).
    pose proof (updates_evaluated k s) as Hk.
    assert (Hal : cell (GameField.field s) k = Alive -> cell f0 k = Alive).
    { intros E. destruct (index_on_grid f0 k Hwf0 (Hr k (or_introl eq_refl))) as (_ & Hkey & Hx & Hy).
      destruct HI as [_ HC].
      specialize (HC (morton_x 16 k) (morton_y 16 k) ltac:(apply in_grid_spec; lia)).
      rewrite Hkey in HC. destruct HC as [HC | HC]; [congruence|].
      destruct (cell0_cases f0 Hset k) as [E0 | E0]; [|exact E0].
      exfalso. rewrite E in HC. unfold final in HC. rewrite Hkey, E0 in HC.
      unfold rule, Alive, Dead, Birthing, DeadVisited in HC. cbn [Z.eqb andb] in HC.
      destruct (_ =? 3) in HC; discriminate. }
    cbn [List.filter].
    destruct (cell (GameField.field s) k =? Alive) eqn:E1.
    + pose proof (Hal ltac:(lia)) as E0. destruct (cell f0 k =? Alive) eqn:E2; [|lia].
      cbn [length]. lia.
    + destruct (cell f0 k =? Alive); cbn [length]; lia.
Qed.

Lemma updates_visits_ge (ps : list (Z * Z)) : forall s,
  (updates (GameField.trace s)
   <= updates (GameField.trace (fold_left (fun s p => visit_post (fst p) (snd p) s) ps s)))%nat.
Proof.
  induction ps as [|p ps IH]; intros s; [cbn [fold_left]; lia|].
  cbn [fold_left]. etransitivity; [|apply IH].
  unfold visit_post. destruct (_ =? Dead).
  - rewrite updates_updated, updates_moved. lia.
  - rewrite updates_moved. lia.
Qed.

Lemma updates_evaluated_ge k s :
  (updates (GameField.trace s) <= updates (GameField.trace (evaluated k s)))%nat.
Proof.
  unfold evaluated. destruct (_ =? Alive).
  - etransitivity; [|apply updates_visits_ge].
    rewrite updates_updated. cbn [start_at logged GameField.trace].
    rewrite updates_app. lia.
  - cbn [logged GameField.trace]. rewrite updates_app. lia.
Qed.

Lemma updates_pass_evaluated_ge (order : list Z) : forall s,
  (updates (GameField.trace s) <= updates (GameField.trace (pass evaluated order s)))%nat.
Proof.
  induction order as [|k order IH]; intros s; [cbn [pass fold_left]; lia|].
  rewrite pass_cons. etransitivity; [apply (updates_evaluated_ge k)|apply IH].
Qed.

(** X14. A tick from a grid of [Dead] and [Alive] cells enters
    [updateCell] at most nine times for each alive cell of the board, and
    so never on an empty board, whatever its size. *)
Theorem tick_updates_bound (s : GameField.machine) :
  wf (GameField.field s) -> settled (GameField.field s) ->
  exists s', Game.simulationTick s = Some (tt, s') /\
    (updates (GameField.trace s')
     <= updates (GameField.trace s) + 9 * length (alive_indices (GameField.field s)))%nat /\
    (alive_indices (GameField.field s) = [] ->
     updates (GameField.trace s') = updates (GameField.trace s)).
Proof.
  intros Hwf Hset. destruct (simulationTick_run s Hwf) as [Hrun _].
  exists (ticked s). split; [exact Hrun|].
  assert (Hb : (updates (GameField.trace (ticked s))
                <= updates (GameField.trace s)
                   + 9 * length (alive_indices (GameField.field s)))%nat).
  { unfold ticked. rewrite updates_pass_committed. destruct s as [f0 t0].
    cbn [GameField.field GameField.trace] in *.
    apply (updates_pass_evaluated f0 (scan_order f0) Hwf Hset (GameField.Machine f0 t0)
             (Inv_start f0 Hwf t0) (Marked_start f0 Hset t0)).
    intros k. apply scan_order_spec. }
  split; [exact Hb|]. intros E. rewrite E in Hb. cbn [length] in Hb.
  assert (Hge : (updates (GameField.trace s) <= updates (GameField.trace (ticked s)))%nat).
  { unfold ticked. rewrite updates_pass_committed. apply updates_pass_evaluated_ge. }
  lia.
Qed.

Lemma tick_updates_bound_witness :
  exists s', Game.simulationTick (GameField.Machine blinker4 []) = Some (tt, s') /\
    (updates (GameField.trace s') <= updates [] + 9 * length (alive_indices blinker4))%nat /\
    (alive_indices blinker4 = [] -> updates (GameField.trace s') = updates []).
Proof.
  apply (tick_updates_bound (GameField.Machine blinker4 [])).
  - exact wf_blinker4.
  - exact settled_blinker4.
Defined.

Lemma commit_code_coded c :
  c = Dead \/ c = Alive \/ c = Dying \/ c = Birthing \/ c = DeadVisited ->
  commit_code c = Dead \/ commit_code c = Alive.
Proof.
  unfold commit_code, Dead, Alive, Dying, Birthing, DeadVisited.
  intros [-> | [-> | [-> | [-> | ->]]]]; cbn; auto.
Qed.

(** X15. The commit pass alone settles any board of the five codes:
    [Birthing] becomes [Alive], [Dying] and [DeadVisited] become [Dead],
    [Dead] and [Alive] stay; a board of [Dead] and [Alive] cells is left
    as it is. *)
Theorem commit_pass_settles (s : GameField.machine) :
  wf (GameField.field s) -> coded (GameField.field s) ->
  exists s', Game.commit_pass s = Some (tt, s') /\
    same_shape (GameField.field s) (GameField.field s') /\
    settled (GameField.field s') /\
    (forall k, 0 <= k < Z.of_nat (length (GameField.cells (GameField.field s))) ->
       cell (GameField.field s') k = commit_code (cell (GameField.field s) k)) /\
    (settled (GameField.field s) ->
     GameField.cells (GameField.field s') = GameField.cells (GameField.field s)).
Proof.
  intros Hwf Hcoded. destruct (rows_commit_run s Hwf) as [_ [_ Hsh]].
  fold (scan_order (GameField.field s)) in Hsh.
  exists (pass committed (scan_order (GameField.field s)) s).
  assert (Hl : length (GameField.cells (GameField.field
                         (pass committed (scan_order (GameField.field s)) s)))
               = length (GameField.cells (GameField.field s))) by apply Hsh.
  split; [apply commit_pass_run, Hwf|]. split; [exact Hsh|]. split; [|split].
  - apply settled_cells. intros k Hk. rewrite Hl in Hk. rewrite commit_pass_cells by exact Hk.
    apply commit_code_coded. unfold cell.
    destruct (GameField.cells (GameField.field s) !! Z.to_nat k) as [c|] eqn:E.
    + apply (proj1 (Forall_lookup _ _) Hcoded _ _ E).
    + left. reflexivity.
  - intros k Hk. apply commit_pass_cells, Hk.
  - intros Hset. apply cells_ext; [exact Hl|]. intros k Hk. rewrite Hl in Hk.
    rewrite commit_pass_cells by exact Hk.
    destruct (cell0_cases _ Hset k) as [-> | ->]; reflexivity.
Qed.

Lemma commit_pass_settles_witness :
  exists s', Game.commit_pass (GameField.Machine (GameField.mk 0 1 2 [Birthing] 1 0) [])
             = Some (tt, s') /\
    same_shape (GameField.mk 0 1 2 [Birthing] 1 0) (GameField.field s') /\
    settled (GameField.field s') /\
    (forall k, 0 <= k < Z.of_nat (length [Birthing]) ->
       cell (GameField.field s') k = commit_code (cell (GameField.mk 0 1 2 [Birthing] 1 0) k)) /\
    (settled (GameField.mk 0 1 2 [Birthing] 1 0) ->
     GameField.cells (GameField.field s') = [Birthing]).
Proof.
  apply (commit_pass_settles (GameField.Machine (GameField.mk 0 1 2 [Birthing] 1 0) [])).
  - constructor; cbn; lia.
  - apply Forall_cons_2; [|apply Forall_nil_2]. right. right. right. left. reflexivity.
Defined.

Lemma tick_generation s :
  wf (GameField.field s) -> settled (GameField.field s) ->
  Game.simulationTick s = Some (tt, ticked s) /\
  wf (GameField.field (ticked s)) /\ same_shape (GameField.field s) (GameField.field (ticked s)) /\
  settled (GameField.field (ticked s)) /\
  GameField.cells (GameField.field (ticked s)) = GameField.cells (generation (GameField.field s)).
Proof.
  intros Hwf Hset. destruct (simulationTick_run s Hwf) as [Hrun [Hwf' Hsh]].
  destruct (tick_with_run s (scan_order (GameField.field s)) Hwf Hset
              (fun k => scan_order_spec _ k)) as (_ & _ & Hc).
  fold (ticked s) in Hc.
  assert (Hl : length (GameField.cells (GameField.field (ticked s)))
               = length (GameField.cells (GameField.field s))) by apply Hsh.
  assert (Hcell : forall k, 0 <= k < Z.of_nat (length (GameField.cells (GameField.field s))) ->
            cell (GameField.field (ticked s)) k
            = if life_next (GameField.field s) (morton_x 16 k) (morton_y 16 k)
              then Alive else Dead).
  { intros k Hk. destruct (index_on_grid _ k Hwf Hk) as (_ & Hkey & Hx & Hy).
    rewrite <- Hkey at 1. apply Hc. apply in_grid_spec. lia. }
  split; [exact Hrun|]. split; [exact Hwf'|]. split; [exact Hsh|]. split.
  - apply settled_cells. intros k Hk. rewrite Hl in Hk. rewrite Hcell by exact Hk.
    destruct (life_next _ _ _); [right | left]; reflexivity.
  - apply list_eq. intros j. unfold generation. cbn [with_cells GameField.cells].
    destruct (Nat.lt_ge_cases j (length (GameField.cells (GameField.field s)))) as [Hj | Hj].
    + rewrite <- (Nat2Z.id j) at 1. rewrite lookup_cell by lia.
      rewrite Hcell by lia. rewrite list_lookup_fmap.
      rewrite (lookup_seqZ_lt 0 _ j) by lia. cbn. rewrite Z.add_0_l. reflexivity.
    + rewrite !(proj2 (lookup_ge_None _ _)); [reflexivity | | lia].
      rewrite length_fmap, length_seqZ. lia.
Qed.

Lemma life_next_ext f g x y :
  GameField.cells f = GameField.cells g -> GameField.size f = GameField.size g ->
  life_next f x y = life_next g x y.
Proof.
  intros Hc Hs.
  assert (Ha : forall a b, alive_at f a b = alive_at g a b).
  { intros a b. unfold alive_at, cell. rewrite Hc, Hs. reflexivity. }
  unfold life_next, neighbours_alive. rewrite !Ha. reflexivity.
Qed.

Lemma generation_ext f g :
  GameField.cells f = GameField.cells g -> GameField.size f = GameField.size g ->
  GameField.cells (generation f) = GameField.cells (generation g) /\
  GameField.size (generation f) = GameField.size (generation g).
Proof.
  intros Hc Hs. unfold generation. cbn [with_cells GameField.cells GameField.size].
  split; [|exact Hs]. rewrite Hc. apply map_ext. intros k.
  rewrite (life_next_ext f g _ _ Hc Hs). reflexivity.
Qed.

Lemma generations_ext (count : nat) f g :
  GameField.cells f = GameField.cells g -> GameField.size f = GameField.size g ->
  GameField.cells (Nat.iter count generation f) = GameField.cells (Nat.iter count generation g) /\
  GameField.size (Nat.iter count generation f) = GameField.size (Nat.iter count generation g).
Proof.
  intros Hc Hs. induction count as [|count [IHc IHs]]; [split; assumption|].
  cbn [Nat.iter nat_rect]. apply generation_ext; assumption.
Qed.

Lemma ticks_run (count : nat) : forall s,
  wf (GameField.field s) -> settled (GameField.field s) ->
  exists s', ticks count s = Some (tt, s') /\
    GameField.cells (GameField.field s')
      = GameField.cells (Nat.iter count generation (GameField.field s)) /\
    same_shape (GameField.field s) (GameField.field s') /\
    wf (GameField.field s') /\ settled (GameField.field s').
Proof.
  induction count as [|count IH]; intros s Hwf Hset.
  - exists s. split; [reflexivity|]. split; [reflexivity|].
    split; [apply same_shape_refl|]. split; assumption.
  - destruct (tick_generation s Hwf Hset) as (Hrun & Hwf1 & Hsh1 & Hset1 & Hc1).
    destruct (IH (ticked s) Hwf1 Hset1) as (s' & Hrun' & Hc' & Hsh' & Hwf' & Hset').
    exists s'. split; [cbn [ticks]; rewrite (bind_Some _ _ _ _ _ Hrun); exact Hrun'|].
    split; [|split; [apply (same_shape_trans _ _ _ Hsh1 Hsh') | split; assumption]].
    rewrite Hc'. rewrite Nat.iter_succ_r.
    apply generations_ext; [exact Hc1 | apply Hsh1].
Qed.

(** X16. Ticks compose: [count] ticks in a row from a grid of [Dead] and
    [Alive] cells leave the cells of the [count]-th generation of the Game
    of Life on the bounded board, on a board of the same geometry. *)
Theorem ticks_generations (count : nat) (s : GameField.machine) :
  wf (GameField.field s) -> settled (GameField.field s) ->
  exists s', ticks count s = Some (tt, s') /\
    GameField.cells (GameField.field s')
      = GameField.cells (Nat.iter count generation (GameField.field s)) /\
    same_shape (GameField.field s) (GameField.field s') /\
    wf (GameField.field s') /\ settled (GameField.field s').
Proof. apply ticks_run. Qed.

Lemma ticks_generations_witness :
  exists s', ticks 2 (GameField.Machine blinker4 []) = Some (tt, s') /\
    GameField.cells (GameField.field s') = GameField.cells (Nat.iter 2 generation blinker4) /\
    same_shape blinker4 (GameField.field s') /\
    wf (GameField.field s') /\ settled (GameField.field s').
Proof.
  apply (ticks_generations 2 (GameField.Machine blinker4 [])).
  - exact wf_blinker4.
  - exact settled_blinker4.
Defined.

(** ** The cadence of ticks *)

Lemma cadence_press k f : cadence f -> cadence (Main.press k f).
Proof.
  unfold cadence. cbn [In].
  intros [<- | [<- | [<- | [<- | [<- | [<- | [<- | [<- | [<- | []]]]]]]]]];
    destruct k; vm_compute; tauto.
Qed.

(** X17. Whatever sequence of Up and Down keys is pressed, the number of
    frames per tick stays one of 1, 3, 5, 10, 20, 30, 40, 50, 60; Up at 1
    and Down at 60 do nothing; elsewhere each key undoes the other. *)
Theorem cadence_keys (keys : list Main.key) :
  let fpt := fold_left (fun f k => Main.press k f) keys Main.FRAMES_PER_TICK_INIT in
  cadence fpt /\ 1 <= fpt <= 60 /\
  Main.key_Up 1 = 1 /\ Main.key_Down 60 = 60 /\
  (fpt <> 60 -> Main.key_Up (Main.key_Down fpt) = fpt) /\
  (fpt <> 1 -> Main.key_Down (Main.key_Up fpt) = fpt).
Proof.
  cbv zeta.
  assert (H : cadence (fold_left (fun f k => Main.press k f) keys Main.FRAMES_PER_TICK_INIT)).
  { assert (H0 : cadence Main.FRAMES_PER_TICK_INIT) by (vm_compute; tauto).
    revert H0. generalize Main.FRAMES_PER_TICK_INIT as f.
    induction keys as [|k keys IH]; intros f Hf; [exact Hf|].
    cbn [fold_left]. apply IH, cadence_press, Hf. }
  split; [exact H|]. revert H.
  generalize (fold_left (fun f k => Main.press k f) keys Main.FRAMES_PER_TICK_INIT) as f.
  unfold cadence. cbn [In].
  intros f [<- | [<- | [<- | [<- | [<- | [<- | [<- | [<- | [<- | []]]]]]]]]];
    (split; [lia|]); (split; [reflexivity|]); (split; [reflexivity|]);
    split; intros; try reflexivity; try lia.
Qed.

Lemma frames_idle (count : nat) : forall p c s,
  Z.of_nat count <= c < 2 ^ 32 ->
  Main.frames count p c s = Some (c - Z.of_nat count, s).
Proof.
  induction count as [|count IH]; intros p c s Hc.
  - cbn [Main.frames]. unfold ret. rewrite Z.sub_0_r. reflexivity.
  - cbn [Main.frames Main.frame]. destruct (c =? 0) eqn:E; [lia|].
    unfold bind at 1, ret at 1. unfold u32. rewrite Z.mod_small by lia.
    rewrite IH by lia. f_equal. f_equal. lia.
Qed.

(** X18. While the simulation runs, a tick is followed by
    [frames_per_tick] frames without a tick and then by a frame with one:
    ticks are [frames_per_tick + 1] frames apart, and after [count] such
    periods the board holds the [count]-th generation. *)
Theorem tick_period (s : GameField.machine) (frames_per_tick : Z) (count : nat) :
  wf (GameField.field s) -> settled (GameField.field s) ->
  0 <= frames_per_tick < 2 ^ 32 ->
  let period := S (Z.to_nat frames_per_tick) in
  (forall j, 0 <= j <= frames_per_tick ->
     Main.frames (Z.to_nat j) frames_per_tick frames_per_tick s
     = Some (frames_per_tick - j, s)) /\
  Main.frames period frames_per_tick frames_per_tick s
    = (Game.simulationTick ;;; ret frames_per_tick) s /\
  exists s', Main.frames (count * period) frames_per_tick frames_per_tick s
             = Some (frames_per_tick, s') /\
    GameField.cells (GameField.field s')
      = GameField.cells (Nat.iter count generation (GameField.field s)).
Proof.
  intros Hwf Hset Hp period.
  assert (Hframes : forall a b c u,
            Main.frames (a + b) frames_per_tick c u
            = bind (Main.frames a frames_per_tick c)
                   (fun c' => Main.frames b frames_per_tick c') u).
  { induction a as [|a IH]; intros b c u; [reflexivity|].
    cbn [Nat.add Main.frames]. unfold bind in *.
    destruct (Main.frame true frames_per_tick c u) as [[c' u']|]; [|reflexivity].
    apply IH. }
  assert (Hperiod : forall u,
            Main.frames period frames_per_tick frames_per_tick u
            = (Game.simulationTick ;;; ret frames_per_tick) u).
  { intros u. unfold period. replace (S (Z.to_nat frames_per_tick))
      with (Z.to_nat frames_per_tick + 1)%nat by lia.
    rewrite Hframes. rewrite (bind_Some _ _ _ _ _ (frames_idle (Z.to_nat frames_per_tick) frames_per_tick frames_per_tick u ltac:(lia))).
    rewrite Z2Nat.id, Z.sub_diag by lia.
    cbn [Main.frames Main.frame Z.eqb]. unfold bind.
    destruct (Game.simulationTick u) as [[[] u']|]; reflexivity. }
  split; [|split; [apply Hperiod|]].
  - intros j Hj. rewrite frames_idle by lia. rewrite Z2Nat.id by lia. reflexivity.
  - assert (Hticks : forall n u, Main.frames (n * period) frames_per_tick frames_per_tick u
                       = (ticks n ;;; ret frames_per_tick) u).
    { induction n as [|n IH]; intros u; [reflexivity|].
      cbn [Nat.mul]. rewrite Hframes. unfold bind at 1. rewrite Hperiod.
      cbn [ticks]. unfold bind.
      destruct (Game.simulationTick u) as [[[] u']|]; [|reflexivity].
      unfold ret at 1. specialize (IH u'). unfold bind in IH. exact IH. }
    destruct (ticks_run count s Hwf Hset) as (s' & Hrun & Hc & _).
    exists s'. split; [|exact Hc].
    rewrite Hticks. rewrite (bind_Some _ _ _ _ _ Hrun). reflexivity.
Qed.

Lemma tick_period_witness :
  (forall j, 0 <= j <= 3 ->
     Main.frames (Z.to_nat j) 3 3 (GameField.Machine blinker4 [])
     = Some (3 - j, GameField.Machine blinker4 [])) /\
  Main.frames (S (Z.to_nat 3)) 3 3 (GameField.Machine blinker4 [])
    = (Game.simulationTick ;;; ret 3) (GameField.Machine blinker4 []) /\
  exists s', Main.frames (2 * S (Z.to_nat 3)) 3 3 (GameField.Machine blinker4 [])
             = Some (3, s') /\
    GameField.cells (GameField.field s')
      = GameField.cells (Nat.iter 2 generation blinker4).
Proof.
  apply (tick_period (GameField.Machine blinker4 []) 3 2).
  - exact wf_blinker4.
  - exact settled_blinker4.
  - lia.
Defined.

(** ** Drawing *)

Lemma i32_small z : - 2 ^ 31 <= z < 2 ^ 31 -> Game.i32 z = z.
Proof. intros Hz. unfold Game.i32. rewrite Z.mod_small by lia. lia. Qed.

Lemma i32_u32 z : - 2 ^ 31 <= z < 2 ^ 31 -> Game.i32 (u32 z) = z.
Proof.
  intros Hz. unfold Game.i32, u32. rewrite Zplus_mod_idemp_l.
  rewrite Z.mod_small by lia. lia.
Qed.

Lemma filter_none {A} (P : A -> bool) (l : list A) :
  (forall a, In a l -> P a = false) -> List.filter P l = [].
Proof.
  induction l as [|a l IH]; intros H; [reflexivity|].
  cbn [List.filter]. rewrite (H a (or_introl eq_refl)). apply IH.
  intros b Hb. apply H. right. exact Hb.
Qed.

Lemma In_seqZ k i (count : nat) : In k (seqZ i (Z.of_nat count)) <-> i <= k < i + Z.of_nat count.
Proof. rewrite <- list_elem_of_In, elem_of_seqZ. lia. Qed.

Lemma row_cells_past f cs ox wx y x (count : nat) :
  0 < cs -> wx <= x * cs - ox -> row_cells f cs ox wx y x count = [].
Proof.
  intros Hcs Hpx. unfold row_cells. apply filter_none. intros a Ha.
  apply In_seqZ in Ha.
  assert (x * cs <= a * cs) by nia.
  destruct (a * cs - ox <? wx) eqn:E; [lia | reflexivity].
Qed.

Lemma same_board_moved f0 s a b : same_board f0 s -> same_board f0 (moved a b s).
Proof.
  intros (Hwf & Hsh & Hc). split; [apply wf_moved, Hwf|].
  split; [|exact Hc]. apply (same_shape_trans _ _ _ Hsh), shape_moved.
Qed.

Lemma same_board_size f0 s : same_board f0 s -> GameField.size (GameField.field s) = GameField.size f0.
Proof. intros (_ & Hsh & _). apply Hsh. Qed.

Lemma same_board_cell f0 s k : same_board f0 s -> cell (GameField.field s) k = cell f0 k.
Proof. intros (_ & _ & Hc). unfold cell. rewrite Hc. reflexivity. Qed.

(** What a move with the default mask returns on a settled board. *)
Lemma probe_alive f0 s x y :
  wf f0 -> settled f0 -> same_board f0 s ->
  in_grid (GameField.size f0) x y = true ->
  (probe_val (GameField.field s) x y Alive =? Alive) = alive_at f0 x y.
Proof.
  intros Hwf0 Hset Hsb Hin. pose proof Hsb as (Hwf & Hsh & Hc).
  pose proof (same_board_size _ _ Hsb) as Hsz.
  apply in_grid_spec in Hin as Hxy.
  rewrite probe_val_Alive. unfold low_bit.
  rewrite (on_grid_in_grid _ x y Hwf) by lia. rewrite Hsz, Hin.
  unfold alive_at. rewrite Hin. rewrite (same_board_cell _ _ _ Hsb).
  destruct (cell0_cases f0 Hset (interleaveXY x y)) as [-> | ->]; reflexivity.
Qed.

Section Draw.

Variable f0 : GameField.t.
Hypothesis Hwf0 : wf f0.
Hypothesis Hset : settled f0.
Variables cs ox oy wx wy : Z.
Hypothesis Hcs : 0 < cs.
Hypothesis Hwx : 0 <= wx /\ wx + cs < 2 ^ 31.
Hypothesis Hwy : 0 <= wy /\ wy + cs < 2 ^ 31.

Local Abbreviation N := (GameField.size f0).

Lemma draw_row_run y py (fuel : nat) : forall x c sp s,
  same_board f0 s -> 0 <= y < N -> 0 <= x -> x + Z.of_nat fuel = N ->
  GameField.idx (GameField.field s) = interleaveXY x y ->
  (x < N -> (c =? Alive) = alive_at f0 x y) ->
  - 2 ^ 31 <= x * cs - ox ->
  exists c' s',
    Game.draw_row fuel cs wx py (x * cs - ox) x c sp s
    = Some ((c', sp ++ row_sprites f0 cs ox wx y py x fuel), s') /\
    same_board f0 s'.
Proof.
  induction fuel as [|fuel IH]; intros x c sp s Hsb Hy Hx Hfuel Hidx Hc Hpx.
  - exists c, s. split; [|exact Hsb]. cbn [Game.draw_row]. unfold ret.
    unfold row_sprites, row_cells. change (seqZ x (Z.of_nat 0)) with (@nil Z).
    cbn [List.filter map]. rewrite app_nil_r. reflexivity.
  - cbn [Game.draw_row]. rewrite (bind_Some _ _ _ _ _ (gets_run GameField.size s)).
    rewrite (same_board_size _ _ Hsb). rewrite (i32_small wx) by lia.
    destruct (x * cs - ox <? wx) eqn:Epx; cbn [andb].
    + destruct (x <? N) eqn:Ex; [|lia]. cbv zeta.
      pose proof Hsb as (Hwf & _).
      rewrite (bind_Some _ _ _ _ _ (right_run s x y Alive Hwf Hidx)).
      rewrite i32_u32 by lia.
      replace (x * cs - ox + cs) with ((x + 1) * cs - ox) by ring.
      destruct (IH (x + 1) (probe_val (GameField.field s) (x + 1) y Alive)
                  (if c =? Alive then sp ++ [(x * cs - ox, py)] else sp)
                  (moved (x + 1) y s) (same_board_moved _ _ _ _ Hsb) Hy ltac:(lia) ltac:(lia)
                  (idx_moved s (x + 1) y)) as (c' & s' & Hrun & Hsb').
      { intros Hx1. apply probe_alive; [exact Hwf0 | exact Hset | exact Hsb|].
        apply in_grid_spec. lia. }
      { nia. }
      exists c', s'. split; [|exact Hsb']. rewrite Hrun. f_equal. f_equal. f_equal.
      unfold row_sprites, row_cells.
      rewrite (seqZ_cons x (Z.of_nat (S fuel))) by lia.
      replace (Z.pred (Z.of_nat (S fuel))) with (Z.of_nat fuel) by lia.
      replace (Z.succ x) with (x + 1) by lia.
      cbn [List.filter]. rewrite Epx. cbn [andb]. rewrite <- (Hc ltac:(lia)).
      destruct (c =? Alive); [rewrite <- app_assoc|]; reflexivity.
    + exists c, s. split; [|exact Hsb]. unfold ret.
      unfold row_sprites. rewrite row_cells_past by lia.
      cbn [map]. rewrite app_nil_r. reflexivity.
Qed.

Lemma draw_rows_run px0 x0 (fuel : nat) : forall y c sp s,
  same_board f0 s -> 0 <= x0 <= N -> 0 <= y -> y + Z.of_nat fuel = N ->
  (x0 < N -> px0 = x0 * cs - ox /\ - 2 ^ 31 <= px0 /\
             GameField.idx (GameField.field s) = interleaveXY x0 y /\
             (y < N -> (c =? Alive) = alive_at f0 x0 y)) ->
  - 2 ^ 31 <= y * cs - oy ->
  exists s',
    Game.draw_rows fuel cs wx wy px0 x0 (y * cs - oy) y c sp s
    = Some (sp ++ board_sprites f0 cs ox oy wx wy x0 y fuel, s') /\
    same_board f0 s'.
Proof.
  induction fuel as [|fuel IH]; intros y c sp s Hsb Hx0 Hy Hfuel Hcur Hpy.
  - exists s. split; [|exact Hsb]. cbn [Game.draw_rows]. unfold ret, board_sprites.
    change (seqZ y (Z.of_nat 0)) with (@nil Z). cbn [List.filter flat_map].
    rewrite app_nil_r. reflexivity.
  - cbn [Game.draw_rows]. rewrite (bind_Some _ _ _ _ _ (gets_run GameField.size s)).
    rewrite (same_board_size _ _ Hsb). rewrite (i32_small wy) by lia.
    assert (Hseq : seqZ y (Z.of_nat (S fuel)) = y :: seqZ (y + 1) (Z.of_nat fuel)).
    { rewrite (seqZ_cons y (Z.of_nat (S fuel))) by lia.
      replace (Z.pred (Z.of_nat (S fuel))) with (Z.of_nat fuel) by lia.
      replace (Z.succ y) with (y + 1) by lia. reflexivity. }
    destruct (y * cs - oy <? wy) eqn:Epy; cbn [andb].
    + destruct (y <? N) eqn:Ey; [|lia].
      rewrite (bind_Some _ _ _ _ _ (gets_run GameField.idx s)).
      assert (Hrow : exists c1 s1,
                Game.draw_row (Z.to_nat (N - x0)) cs wx (y * cs - oy) px0 x0 c sp s
                = Some ((c1, sp ++ row_sprites f0 cs ox wx y (y * cs - oy) x0
                                     (Z.to_nat (N - x0))), s1) /\
                same_board f0 s1).
      { destruct (Z.eq_dec x0 N) as [-> | Hne].
        - rewrite Z.sub_diag. exists c, s. split; [|exact Hsb].
          cbn [Z.to_nat Game.draw_row]. unfold ret, row_sprites, row_cells.
          change (seqZ N (Z.of_nat 0)) with (@nil Z). cbn [List.filter map].
          rewrite app_nil_r. reflexivity.
        - destruct (Hcur ltac:(lia)) as (-> & Hp0 & Hidx & Hc).
          apply (draw_row_run y (y * cs - oy) (Z.to_nat (N - x0)) x0 c sp s Hsb);
            [lia | lia | lia | exact Hidx | intros _; apply Hc; lia | exact Hp0]. }
      destruct Hrow as (c1 & s1 & Hrow & Hsb1).
      rewrite (bind_Some _ _ _ _ _ Hrow). cbn [snd].
      set (i := GameField.idx (GameField.field s)).
      set (s2 := GameField.Machine (with_idx i (GameField.field s1)) (GameField.trace s1)).
      rewrite (bind_Some (GameField.set_idx i) _ s1 tt s2 eq_refl).
      assert (Hsb2 : same_board f0 s2).
      { destruct Hsb1 as (Hwf1 & Hsh1 & Hc1). destruct Hsb as (Hwf & _).
        split; [apply wf_with_idx; [exact Hwf1 | apply Hwf]|].
        split; [exact Hsh1 | exact Hc1]. }
      pose proof Hsb2 as (Hwf2 & _).
      assert (Hdown : exists v s3,
                GameField.down Alive s2 = Some (v, s3) /\ same_board f0 s3 /\
                (x0 < N -> GameField.idx (GameField.field s3) = interleaveXY x0 (y + 1) /\
                           (y + 1 < N -> (v =? Alive) = alive_at f0 x0 (y + 1)))).
      { destruct (Z.eq_dec x0 N) as [-> | Hne].
        - pose proof (cursor_coords _ Hwf2) as Hcc.
          eexists. eexists. split; [apply (down_run s2 _ _ Alive Hwf2 Hcc)|].
          split; [apply same_board_moved, Hsb2 | lia].
        - destruct (Hcur ltac:(lia)) as (_ & _ & Hidx & _).
          eexists. eexists. split; [apply (down_run s2 x0 y Alive Hwf2 Hidx)|].
          split; [apply same_board_moved, Hsb2|]. intros _. split; [apply idx_moved|].
          intros Hy1. apply probe_alive; [exact Hwf0 | exact Hset | exact Hsb2|].
          apply in_grid_spec. lia. }
      destruct Hdown as (v & s3 & Hdown & Hsb3 & Hcur3).
      rewrite (bind_Some _ _ _ _ _ Hdown).
      rewrite i32_u32 by lia.
      replace (y * cs - oy + cs) with ((y + 1) * cs - oy) by ring.
      destruct (IH (y + 1) v (sp ++ row_sprites f0 cs ox wx y (y * cs - oy) x0 (Z.to_nat (N - x0)))
                  s3 Hsb3 Hx0 ltac:(lia) ltac:(lia)) as (s' & Hrun & Hsb').
      { intros Hlt. destruct (Hcur Hlt) as (Hp & Hp0 & _ & _).
        destruct (Hcur3 Hlt) as (Hi3 & Hc3).
        split; [exact Hp|]. split; [exact Hp0|]. split; [exact Hi3 | exact Hc3]. }
      { nia. }
      exists s'. split; [|exact Hsb']. rewrite Hrun. f_equal. f_equal.
      unfold board_sprites. rewrite Hseq. cbn [List.filter]. rewrite Epy.
      cbn [flat_map]. rewrite <- app_assoc. reflexivity.
    + exists s. split; [|exact Hsb]. unfold ret, board_sprites.
      rewrite filter_none; [cbn [flat_map]; rewrite app_nil_r; reflexivity|].
      intros a Ha. apply In_seqZ in Ha.
      assert (y * cs <= a * cs) by nia.
      destruct (a * cs - oy <? wy) eqn:E; [lia | reflexivity].
Qed.

End Draw.

Lemma draw_start_spec o cs N :
  - 2 ^ 31 < o < 2 ^ 31 -> 0 < cs < 2 ^ 31 -> 1 <= N <= 4096 ->
  exists p0 c0, Game.draw_start o cs N = Some (p0, c0) /\
    0 <= c0 <= N /\ - 2 ^ 31 <= p0 /\ (c0 < N -> p0 = c0 * cs - o) /\
    forall x, 0 <= x < N -> (c0 <= x <-> - cs < x * cs - o).
Proof.
  intros Ho Hcs HN. unfold Game.draw_start.
  destruct (o <=? 0) eqn:E0.
  - destruct (o =? - 2 ^ 31) eqn:E1; [lia|].
    exists (- o), 0. split; [reflexivity|]. split; [lia|]. split; [lia|]. split; [lia|].
    intros x Hx. split; intros _; [nia | lia].
  - destruct (cs =? 0) eqn:E1; [lia|].
    assert (Hu : u32 o = o) by (unfold u32; apply Z.mod_small; lia).
    assert (HuN : u32 N = N) by (unfold u32; apply Z.mod_small; lia).
    rewrite Hu, HuN.
    pose proof (Z.mod_pos_bound o cs ltac:(lia)) as Hr.
    pose proof (Z.div_mod o cs ltac:(lia)) as Hdm.
    assert (Hq : 0 <= o / cs) by (apply Z.div_pos; lia).
    rewrite i32_u32 by lia.
    eexists. eexists. split; [reflexivity|]. split; [lia|]. split; [lia|]. split.
    + intros Hlt. assert (Z.min (o / cs) N = o / cs) as -> by lia. nia.
    + intros x Hx. destruct (Z.le_gt_cases (o / cs) N) as [Hle | Hgt].
      * assert (Z.min (o / cs) N = o / cs) as -> by lia. split; intros H; nia.
      * assert (Z.min (o / cs) N = N) as -> by lia. split; intros H; [lia | nia].
Qed.

Lemma In_board_sprites f cs ox oy wx wy x0 y0 (count : nat) px py :
  In (px, py) (board_sprites f cs ox oy wx wy x0 y0 count) <->
  exists x y, y0 <= y < y0 + Z.of_nat count /\ y * cs - oy < wy /\
    x0 <= x < x0 + Z.of_nat (Z.to_nat (GameField.size f - x0)) /\ x * cs - ox < wx /\
    alive_at f x y = true /\ px = x * cs - ox /\ py = y * cs - oy.
Proof.
  unfold board_sprites, row_sprites, row_cells. rewrite in_flat_map. split.
  - intros (y & Hy & Hin). apply filter_In in Hy as [Hy Hpy]. apply In_seqZ in Hy.
    apply in_map_iff in Hin as (x & E & Hx). apply filter_In in Hx as [Hx Hpx].
    apply In_seqZ in Hx. injection E as <- <-.
    exists x, y. repeat split; lia.
  - intros (x & y & Hy & Hpy & Hx & Hpx & Hal & -> & ->).
    exists y. split.
    + apply filter_In. split; [apply In_seqZ; exact Hy | lia].
    + apply in_map_iff. exists x. split; [reflexivity|].
      apply filter_In. split; [apply In_seqZ; exact Hx|]. rewrite Hal. lia.
Qed.

Lemma NoDup_flat_map {A B} (g : A -> list B) (l : list A) :
  NoDup l -> (forall a, In a l -> NoDup (g a)) ->
  (forall a a' b, In a l -> In a' l -> In b (g a) -> In b (g a') -> a = a') ->
  NoDup (flat_map g l).
Proof.
  induction l as [|a l IH]; intros Hl Hg Hd; [apply NoDup_nil_2|].
  cbn [flat_map]. apply NoDup_cons in Hl as [Ha Hl]. apply NoDup_app.
  split; [apply Hg; left; reflexivity|]. split.
  - intros b Hb Hb'. apply list_elem_of_In in Hb, Hb'.
    apply in_flat_map in Hb' as (a' & Ha' & Hb').
    assert (a = a') by (apply (Hd a a' b); [left; reflexivity | right; exact Ha' | exact Hb | exact Hb']).
    subst a'. apply Ha, list_elem_of_In, Ha'.
  - apply IH; [exact Hl | intros; apply Hg; right; assumption|].
    intros a1 a2 b H1 H2. apply Hd; right; assumption.
Qed.

Lemma NoDup_List_filter {A} (P : A -> bool) (l : list A) :
  NoDup l -> NoDup (List.filter P l).
Proof.
  induction l as [|a l IH]; intros Hl; [apply NoDup_nil_2|].
  apply NoDup_cons in Hl as [Ha Hl]. cbn [List.filter].
  destruct (P a); [|apply IH, Hl].
  apply NoDup_cons_2; [|apply IH, Hl].
  intros Hin. apply Ha. apply list_elem_of_In in Hin. apply filter_In in Hin as [Hin _].
  apply list_elem_of_In, Hin.
Qed.

Lemma NoDup_board_sprites f cs ox oy wx wy x0 y0 (count : nat) :
  0 < cs -> NoDup (board_sprites f cs ox oy wx wy x0 y0 count).
Proof.
  intros Hcs. unfold board_sprites. apply NoDup_flat_map.
  - apply NoDup_List_filter, NoDup_seqZ.
  - intros y _. unfold row_sprites. apply NoDup_fmap_2_strong.
    + intros a b _ _ E. injection E as E. nia.
    + apply NoDup_List_filter, NoDup_seqZ.
  - intros y y' [px py] _ _ H H'. unfold row_sprites in H, H'.
    apply in_map_iff in H as (x & E & _). apply in_map_iff in H' as (x' & E' & _).
    injection E as _ E. injection E' as _ E'. nia.
Qed.

(** X19. On a board of [Dead] and [Alive] cells, for a positive
    [cell_size], origins strictly between [-2^31] and [2^31], and a window
    whose width and height are not negative and stay below [2^31] once
    [cell_size] is added, [draw] stamps the sprite once for each alive
    cell whose square meets the window, and for no other: the cell at
    column [x] and row [y] is drawn at pixel
    [(x * cell_size - origin_x, y * cell_size - origin_y)], the square
    that a click maps back to that cell.  Every access stays inside the
    array, also when the view is scrolled past the board, and no cell
    changes. *)
Theorem draw_sprites (s : GameField.machine) (origin_x origin_y cell_size window_x window_y : Z) :
  wf (GameField.field s) -> settled (GameField.field s) ->
  0 < cell_size ->
  - 2 ^ 31 < origin_x < 2 ^ 31 -> - 2 ^ 31 < origin_y < 2 ^ 31 ->
  0 <= window_x /\ window_x + cell_size < 2 ^ 31 ->
  0 <= window_y /\ window_y + cell_size < 2 ^ 31 ->
  exists sprites s',
    Game.draw origin_x origin_y cell_size window_x window_y s = Some (sprites, s') /\
    GameField.cells (GameField.field s') = GameField.cells (GameField.field s) /\
    same_shape (GameField.field s) (GameField.field s') /\
    NoDup sprites /\
    forall px py, In (px, py) sprites <->
      exists x y, in_grid (GameField.size (GameField.field s)) x y = true /\
        alive_at (GameField.field s) x y = true /\
        px = x * cell_size - origin_x /\ py = y * cell_size - origin_y /\
        - cell_size < px < window_x /\ - cell_size < py < window_y.
Proof.
  intros Hwf Hset Hcs Hox Hoy Hwx Hwy.
  set (f0 := GameField.field s). set (N := GameField.size f0).
  pose proof (size_bound _ Hwf) as HN. fold f0 N in HN.
  destruct (draw_start_spec origin_x cell_size N Hox ltac:(lia) HN)
    as (px0 & x0 & Hsx & Hx0 & Hpx0 & Hpx & Hcx).
  destruct (draw_start_spec origin_y cell_size N Hoy ltac:(lia) HN)
    as (py0 & y0 & Hsy & Hy0 & Hpy0 & Hpy & Hcy).
  assert (Hsb : same_board f0 s) by (split; [exact Hwf | split; [apply same_shape_refl | reflexivity]]).
  assert (Hcur : exists c s1,
            GameField.setCursor x0 y0 s = Some (c, s1) /\ same_board f0 s1 /\
            (x0 < N -> y0 < N ->
             GameField.idx (GameField.field s1) = interleaveXY x0 y0 /\
             (c =? Alive) = alive_at f0 x0 y0)).
  { destruct (Z.lt_ge_cases x0 N) as [Hx | Hx]; [destruct (Z.lt_ge_cases y0 N) as [Hy | Hy]|].
    - eexists. eexists. split; [apply (setCursor_run s x0 y0 Hwf); fold f0 N; lia|].
      split.
      + split; [|split; [repeat split | reflexivity]].
        apply wf_with_idx; [exact Hwf | apply interleaveXY_range].
      + intros _ _. split; [reflexivity|]. unfold alive_at. fold N.
        assert (Hin : in_grid N x0 y0 = true) by (apply in_grid_spec; lia).
        rewrite Hin. reflexivity.
    - exists DeadVisited, s. split; [|split; [exact Hsb | lia]].
      unfold GameField.setCursor, bind, GameField.gets, ret. fold f0 N.
      destruct ((x0 >=? N) || (y0 >=? N)) eqn:E; [reflexivity | lia].
    - exists DeadVisited, s. split; [|split; [exact Hsb | lia]].
      unfold GameField.setCursor, bind, GameField.gets, ret. fold f0 N.
      destruct ((x0 >=? N) || (y0 >=? N)) eqn:E; [reflexivity | lia]. }
  destruct Hcur as (c & s1 & Hcursor & Hsb1 & Hc1).
  assert (Hrows : exists s',
            Game.draw_rows (Z.to_nat (N - y0)) cell_size window_x window_y px0 x0 py0 y0 c [] s1
            = Some ([] ++ board_sprites f0 cell_size origin_x origin_y window_x window_y
                            x0 y0 (Z.to_nat (N - y0)), s') /\
            same_board f0 s').
  { destruct (Z.eq_dec y0 N) as [-> | Hne].
    - rewrite Z.sub_diag. exists s1. split; [reflexivity | exact Hsb1].
    - rewrite (Hpy ltac:(lia)).
      apply (draw_rows_run f0 Hwf Hset cell_size origin_x origin_y window_x window_y
               Hcs Hwx Hwy px0 x0 (Z.to_nat (N - y0)) y0 c [] s1 Hsb1);
        [exact Hx0 | lia | fold N; lia | | lia].
      fold N. intros Hlt. destruct (Hc1 Hlt ltac:(lia)) as [Hi Hc].
      split; [apply Hpx, Hlt|]. split; [exact Hpx0|]. split; [exact Hi | intros _; exact Hc]. }
  destruct Hrows as (s' & Hrows & Hsb'). cbn [app] in Hrows.
  eexists. exists s'. split.
  - unfold Game.draw. rewrite (bind_Some _ _ _ _ _ (gets_run GameField.size s)).
    fold f0 N. rewrite Hsx, Hsy. rewrite (bind_Some _ _ _ _ _ Hcursor). exact Hrows.
  - destruct Hsb' as (_ & Hsh' & Hc'). split; [exact Hc'|]. split; [exact Hsh'|].
    split; [apply NoDup_board_sprites, Hcs|].
    intros px py. rewrite In_board_sprites. fold N. split.
    + intros (x & y & Hy & Hpy' & Hx & Hpx' & Hal & -> & ->).
      exists x, y. rewrite !Z2Nat.id in * by lia.
      split; [apply in_grid_spec; lia|]. split; [exact Hal|].
      split; [reflexivity|]. split; [reflexivity|].
      pose proof (proj1 (Hcx x ltac:(lia)) ltac:(lia)).
      pose proof (proj1 (Hcy y ltac:(lia)) ltac:(lia)). lia.
    + intros (x & y & Hin & Hal & -> & -> & Hpx' & Hpy').
      apply in_grid_spec in Hin.
      pose proof (proj2 (Hcx x ltac:(lia)) ltac:(lia)).
      pose proof (proj2 (Hcy y ltac:(lia)) ltac:(lia)).
      exists x, y. rewrite !Z2Nat.id by lia.
      repeat split; lia || exact Hal.
Qed.

Lemma draw_sprites_witness :
  exists sprites s',
    Game.draw 30 (-10) 25 512 512 (GameField.Machine blinker4 []) = Some (sprites, s') /\
    GameField.cells (GameField.field s') = GameField.cells blinker4 /\
    same_shape blinker4 (GameField.field s') /\
    NoDup sprites /\
    forall px py, In (px, py) sprites <->
      exists x y, in_grid 4 x y = true /\ alive_at blinker4 x y = true /\
        px = x * 25 - 30 /\ py = y * 25 - (-10) /\
        - 25 < px < 512 /\ - 25 < py < 512.
Proof.
  apply (draw_sprites (GameField.Machine blinker4 []) 30 (-10) 25 512 512).
  - exact wf_blinker4.
  - exact settled_blinker4.
  - lia.
  - lia.
  - lia.
  - lia.
  - lia.
Defined.

(** ** The size of the cells on screen *)

Lemma wheel_bounds w cs : 1 <= cs <= 100 ->
  exists cs' gt, Main.wheel w cs = Some (cs', gt) /\ 1 <= cs' <= 100 /\
    cs - 1 <= cs' <= cs + 1 /\ gt = (if cs' <? 16 then 1 else 2).
Proof.
  intros Hcs. unfold Main.wheel, Game.updateCellSize, Main.SCROLL_PPF.
  rewrite (i32_small cs) by lia.
  assert (Hu : forall v, 1 <= v <= 100 -> u32 v = v) by (intros v Hv; apply Z.mod_small; lia).
  change Game.grid_thickness_threshold with 16. change (Game.GRID_THICKNESS / 2) with 1.
  change Game.GRID_THICKNESS with 2. change Game.CELL_SIZE_MAX with 100.
  unfold Game.clamp.
  destruct w; cbv zeta.
  - destruct ((cs + - (1) <? - 2 ^ 31) || (2 ^ 31 <=? cs + - (1))) eqn:E; [lia|].
    destruct (cs + - (1) <? 1) eqn:E1.
    + rewrite Hu by lia. eexists. eexists. split; [reflexivity|]. lia.
    + destruct (100 <? cs + - (1)) eqn:E2; [lia|].
      rewrite Hu by lia. eexists. eexists. split; [reflexivity|]. lia.
  - destruct ((cs + 1 <? - 2 ^ 31) || (2 ^ 31 <=? cs + 1)) eqn:E; [lia|].
    destruct (cs + 1 <? 1) eqn:E1; [lia|].
    destruct (100 <? cs + 1) eqn:E2.
    + rewrite Hu by lia. eexists. eexists. split; [reflexivity|]. lia.
    + rewrite Hu by lia. eexists. eexists. split; [reflexivity|]. lia.
Qed.

Lemma click_total s px py cs : wf (GameField.field s) -> 0 < cs ->
  exists s', Main.click px py cs s = Some (tt, s') /\
    same_shape (GameField.field s) (GameField.field s').
Proof.
  intros Hwf Hcs. unfold Main.click.
  destruct ((px >=? 0) && (py >=? 0)) eqn:E1;
    [|exists s; split; [reflexivity | apply same_shape_refl]].
  destruct (cs =? 0) eqn:E2; [lia|]. cbv zeta.
  rewrite (bind_Some _ _ _ _ _ (gets_run GameField.size s)).
  set (x := px / cs). set (y := py / cs).
  destruct ((x <? GameField.size (GameField.field s))
            && (y <? GameField.size (GameField.field s))) eqn:E3;
    [|exists s; split; [reflexivity | apply same_shape_refl]].
  assert (Hx : 0 <= x) by (apply Z.div_pos; lia).
  assert (Hy : 0 <= y) by (apply Z.div_pos; lia).
  rewrite (bind_Some _ _ _ _ _ (setCursor_run s x y Hwf ltac:(lia) ltac:(lia))).
  set (s0 := logged [EvRead (interleaveXY x y)] (start_at (interleaveXY x y) s)).
  assert (Hk : 0 <= interleaveXY x y < Z.of_nat (length (GameField.cells (GameField.field s)))).
  { apply (in_grid_key _ x y Hwf). apply in_grid_spec. lia. }
  assert (Hi0 : GameField.idx (GameField.field s0) = interleaveXY x y) by reflexivity.
  assert (Hc0 : GameField.cells (GameField.field s0) = GameField.cells (GameField.field s))
    by reflexivity.
  rewrite toggle_run by (rewrite Hi0, Hc0; exact Hk). rewrite Hi0.
  eexists. split; [reflexivity|].
  apply (same_shape_trans _ (GameField.field s0)); [repeat split|].
  exact (shape_wrote _ _ (logged [EvRead (interleaveXY x y)] s0)).
Qed.

(** X20. Whatever the mouse wheel does, [cell_size], which starts at 25,
    stays between 1 and 100, each event changing it by at most one, and
    the grid lines are 1 pixel thick below a cell size of 16 and 2 from
    16 on; so the division by [cell_size] in the click handler is always
    defined, and a click at any pixel of a well-formed board runs to its
    end. *)
Theorem cell_size_bounds (ws : list bool) :
  exists cell_size, scrolled ws Game.CELL_SIZE_INIT = Some cell_size /\
    1 <= cell_size <= Game.CELL_SIZE_MAX /\
    (forall w, exists cell_size' grid_thickness,
       Main.wheel w cell_size = Some (cell_size', grid_thickness) /\
       cell_size - 1 <= cell_size' <= cell_size + 1 /\
       grid_thickness = (if cell_size' <? 16 then 1 else 2)) /\
    (forall s pixel_x pixel_y, wf (GameField.field s) ->
       exists s', Main.click pixel_x pixel_y cell_size s = Some (tt, s') /\
         same_shape (GameField.field s) (GameField.field s')).
Proof.
  change Game.CELL_SIZE_MAX with 100.
  assert (H0 : 1 <= Game.CELL_SIZE_INIT <= 100) by (unfold Game.CELL_SIZE_INIT; lia).
  revert H0. generalize Game.CELL_SIZE_INIT as cs.
  induction ws as [|w ws IH]; intros cs Hcs.
  - exists cs. split; [reflexivity|]. split; [exact Hcs|]. split.
    + intros w. destruct (wheel_bounds w cs Hcs) as (cs' & gt & Hw & _ & Hd & Hg).
      exists cs', gt. split; [exact Hw|]. split; [exact Hd | exact Hg].
    + intros s px py Hwf. apply click_total; [exact Hwf | lia].
  - destruct (wheel_bounds w cs Hcs) as (cs' & gt & Hw & Hcs' & _).
    destruct (IH cs' Hcs') as (c & Hrun & H).
    exists c. split; [|exact H]. cbn [scrolled]. rewrite Hw. exact Hrun.
Qed.

